(** * dping: the statistics store, its summary views and the target selector

    A shallow embedding of the Go package [internal] of dping:
    - [PingStatsStore.Add] and the consumer loop [HandleDPing];
    - the summary views [GetSummarySorted], [GetSummarySortedGroupedByIsp]
      and [GetLossOnlyGroupedByIspSorted];
    - the ISP / region validation at the head of [DPing] and [isRegionExist];
    - the targets [DPing] starts a probe for, and the goroutines that probe
      them under the limit of [sem];
    - the readers [GetRecent] and [GetSummary], and the footer of
      [printSummaryList];
    - [StatisticList].

    Go's [int] and [time.Duration] are 64-bit two's-complement integers: they
    are modelled as [Z] with the wrap-around written out.  [float64] is Rocq's
    primitive binary64 float.  Go maps are [gmap]s; the order in which [range]
    visits a map is not fixed by the language, so every view takes the visit
    order as an argument.  The goroutines of the dispatcher are a transition
    system over the statements that synchronise them.

    The model comes first, then the vocabulary of the statements and the
    example data, then the proofs. *)

From Stdlib Require Import ZArith Lia List Floats.
From Stdlib Require Uint63.
From stdpp Require Import base option list sorting gmap strings fin_maps.

Local Open Scope Z_scope.

(** ** 64-bit integers *)

Module Int64.

Definition min_int : Z := - 2 ^ 63.
Definition max_int : Z := 2 ^ 63 - 1.

Definition in_range (z : Z) : Prop := min_int <= z <= max_int.

(** Two's-complement wrap-around of a mathematical integer. *)
Definition wrap (z : Z) : Z := (z + 2 ^ 63) mod 2 ^ 64 - 2 ^ 63.

Definition add (a b : Z) : Z := wrap (a + b).
Definition sub (a b : Z) : Z := wrap (a - b).
Definition mul (a b : Z) : Z := wrap (a * b).

(** Go's [/] truncates toward zero and panics on a zero divisor; the one
    overflowing quotient, [min_int / -1], wraps back to [min_int]. *)
Definition quo (a b : Z) : option Z :=
  if b =? 0 then None else Some (wrap (Z.quot a b)).

End Int64.

(** ** Data model *)

(** [time.Duration]: a count of nanoseconds. *)
Definition Duration := Z.
Definition Nanosecond : Duration := 1.
Definition Millisecond : Duration := 1000000.
Definition Second : Duration := 1000000000.
Definition Hour : Duration := 3600 * Second.

(** [time.Time] readings of the wall clock, as the instant's nanoseconds. *)
Definition Time := Z.

(** The fields of go-ping's [ping.Statistics] that the package reads. *)
Record Statistics := {
  PacketsRecv : Z;
  PacketsSent : Z;
  PacketsRecvDuplicates : Z;
  PacketLoss : float;
  MinRtt : Duration;
  MaxRtt : Duration;
  AvgRtt : Duration
}.

Record PingStatistic := {
  SrcIp : string;
  DecIp : string;
  Region : string;
  Isp : string;
  Statistic : Statistics
}.

(** [SummaryStatistic]; its fields carry an [s] where they would clash with
    those of [PingStatistic] and [Statistics]. *)
Record SummaryStatistic := {
  sDestIP : string;
  sRegion : string;
  sIsp : string;
  sTotalSent : Z;
  sTotalRecv : Z;
  sMinRtt : Duration;
  sMaxRtt : Duration;
  sAvgRtt : Duration;
  sMinRttAvg : Duration;
  sMaxRttAvg : Duration;
  sLastUpdated : Time;
  sPacketLoss : float;
  sPacketsRecvDuplicates : Z
}.

Record PingStatsStore := {
  summaryData : gmap string SummaryStatistic;
  recentStats : list PingStatistic;
  maxRecent : Z
}.

Definition NewPingStatsStore (maxRecent : Z) : PingStatsStore :=
  {| summaryData := ∅; recentStats := []; maxRecent := maxRecent |}.

(** ** [PingStatsStore.Add] *)

(** The record stored under a destination that is not in the map yet.  The
    fields the composite literal leaves out take Go's zero values ([0] for the
    numbers; the zero [time.Time] is written [0]). *)
Definition newSummary (stat : PingStatistic) : SummaryStatistic :=
  {| sDestIP := DecIp stat;
     sRegion := Region stat;
     sIsp := Isp stat;
     sTotalSent := 0;
     sTotalRecv := 0;
     sMinRtt := Hour;
     sMaxRtt := 0;
     sAvgRtt := 0;
     sMinRttAvg := 0;
     sMaxRttAvg := 0;
     sLastUpdated := 0;
     sPacketLoss := PacketLoss (Statistic stat);
     sPacketsRecvDuplicates := PacketsRecvDuplicates (Statistic stat) |}.

(** [(m * Duration(total - recv) + v * Duration(recv)) / Duration(total)],
    the expression the three running averages share. *)
Definition mergeAvg (m : Duration) (total recv : Z) (v : Duration) : option Duration :=
  Int64.quo (Int64.add (Int64.mul m (Int64.sub total recv)) (Int64.mul v recv)) total.

(** The update of the record [sum] found (or just created) under the key,
    lines 100 to 137 of the store.  [None] is the run-time panic of an integer
    division by zero. *)
Definition updateSummary (now : Time) (statsData : Statistics) (sum : SummaryStatistic)
  : option SummaryStatistic :=
  let totalSent := Int64.add (sTotalSent sum) (PacketsSent statsData) in
  let totalRecv := Int64.add (sTotalRecv sum) (PacketsRecv statsData) in
  let minRtt :=
    if (MinRtt statsData >? 0) && (MinRtt statsData <? sMinRtt sum)
    then MinRtt statsData else sMinRtt sum in
  minRttAvg ←
    (if totalRecv >? PacketsRecv statsData
     then mergeAvg (sMinRttAvg sum) totalRecv (PacketsRecv statsData) (MinRtt statsData)
     else Some (MinRtt statsData));
  let maxRtt :=
    if MaxRtt statsData >? sMaxRtt sum then MaxRtt statsData else sMaxRtt sum in
  maxRttAvg ←
    (if totalRecv >? PacketsRecv statsData
     then mergeAvg (sMaxRttAvg sum) totalRecv (PacketsRecv statsData) (MaxRtt statsData)
     else Some (MaxRtt statsData));
  avgRtt ←
    (if totalRecv >? 0
     then mergeAvg (sAvgRtt sum) totalRecv (PacketsRecv statsData) (AvgRtt statsData)
     else Some (sAvgRtt sum));
  Some {| sDestIP := sDestIP sum;
          sRegion := sRegion sum;
          sIsp := sIsp sum;
          sTotalSent := totalSent;
          sTotalRecv := totalRecv;
          sMinRtt := minRtt;
          sMaxRtt := maxRtt;
          sAvgRtt := avgRtt;
          sMinRttAvg := minRttAvg;
          sMaxRttAvg := maxRttAvg;
          sLastUpdated := now;
          sPacketLoss := sPacketLoss sum;
          sPacketsRecvDuplicates := sPacketsRecvDuplicates sum |}.

(** The recent-history buffer after appending [stat]. *)
Definition pushRecent (s : PingStatsStore) (stat : PingStatistic) : list PingStatistic :=
  let recent := recentStats s ++ [stat] in
  if Z.of_nat (length recent) >? maxRecent s then drop 1 recent else recent.

(** [s.summaryData[key]] once the [if _, exists := ...; !exists] block has
    run: the record already there, or the one just created. *)
Definition lookupOrCreate (s : PingStatsStore) (stat : PingStatistic) : SummaryStatistic :=
  match summaryData s !! DecIp stat with
  | Some r => r
  | None => newSummary stat
  end.

(** [s.Add(stat)] at wall-clock reading [now].  The record is looked up under
    [stat.DecIp], created when absent, updated in place, which for a map of
    values is storing it back. *)
Definition Add (s : PingStatsStore) (now : Time) (stat : PingStatistic)
  : option PingStatsStore :=
  let recent := pushRecent s stat in
  let key := DecIp stat in
  sum' ← updateSummary now (Statistic stat) (lookupOrCreate s stat);
  Some {| summaryData := <[key := sum']> (summaryData s);
          recentStats := recent;
          maxRecent := maxRecent s |}.

(** A run of [Add] calls, each with the clock reading at which it happens. *)
Fixpoint AddAll (s : PingStatsStore) (calls : list (Time * PingStatistic))
  : option PingStatsStore :=
  match calls with
  | [] => Some s
  | (now, stat) :: rest => s' ← Add s now stat; AddAll s' rest
  end.

(** ** The consumer loop of [HandleDPing]

    One iteration of the [for]/[select] loop for a value received from the
    result channel: the store is fed unless the loss is exactly 100, and the
    progress counter advances either way. *)
Definition handleResult (store : PingStatsStore) (processedCount : Z)
    (now : Time) (stats : PingStatistic) : option (PingStatsStore * Z) :=
  let PacketLoss := PacketLoss (Statistic stats) in
  store' ← (if negb (PacketLoss =? 100)%float then Add store now stats else Some store);
  Some (store', Int64.add processedCount 1).

(** The loop over everything the channel delivers before it is closed. *)
Fixpoint handleResults (store : PingStatsStore) (processedCount : Z)
    (received : list (Time * PingStatistic)) : option (PingStatsStore * Z) :=
  match received with
  | [] => Some (store, processedCount)
  | (now, stats) :: rest =>
      '(store', processedCount') ← handleResult store processedCount now stats;
      handleResults store' processedCount' rest
  end.


(** ** [sort.Slice]

    The views sort with the library's [sort.Slice(x, less)].  Its algorithm is
    not part of the package, so the views take the sorter as a parameter; what
    the proofs may use of it is [SortSlice] below.  [less] is called on
    positions of the slice being permuted and reads the elements there, so it
    is a comparison of elements. *)
Definition Sorter : Type := forall A : Type, (A -> A -> bool) -> list A -> list A.

(** [x] must come before [y]: [less] puts it first and not the other way
    round.  For a strict [less] this is [less x y]; for the negated comparison
    the views use when descending, it leaves ties out. *)
Definition strictly_before {A} (less : A -> A -> bool) (x y : A) : bool :=
  less x y && negb (less y x).

(** The requirement [sort.Interface] documents for [Less], read on the
    elements of the slice: a transitive ordering, both ways. *)
Definition TransitiveOrdering {A} (less : A -> A -> bool) (l : list A) : Prop :=
  (forall x y z, x ∈ l -> y ∈ l -> z ∈ l ->
     less x y = true -> less y z = true -> less x z = true) /\
  (forall x y z, x ∈ l -> y ∈ l -> z ∈ l ->
     less x y = false -> less y z = false -> less x z = false).

(** No element is followed, anywhere later, by one that must come before it. *)
Definition OrderedBy {A} (less : A -> A -> bool) (l : list A) : Prop :=
  StronglySorted (fun x y => strictly_before less y x = false) l.

(** What is assumed of the sorter: it permutes the slice, and on a transitive
    ordering it leaves the slice ordered. *)
Definition SortSlice (sort_Slice : Sorter) : Prop :=
  forall A (less : A -> A -> bool) (l : list A),
    sort_Slice A less l ≡ₚ l /\
    (TransitiveOrdering less l -> OrderedBy less (sort_Slice A less l)).

(** The sorter Go runs on slices of at most twelve elements,
    [insertionSort_func]: each element in turn is swapped leftwards while
    [less] puts it before its left neighbour.  [sorted] is the part already
    sorted, nearest neighbour first. *)
Fixpoint insertLeft {A} (less : A -> A -> bool) (x : A) (sorted : list A) : list A :=
  match sorted with
  | [] => [x]
  | y :: rest => if less x y then y :: insertLeft less x rest else x :: y :: rest
  end.

Definition insertionSort_func : Sorter :=
  fun A less l => reverse (foldl (fun sorted x => insertLeft less x sorted) [] l).

(** The sorted part of [insertionSort_func], read from its right end: nothing
    nearer the end must come before something farther from it. *)
Definition sortedLeftwards {A} (less : A -> A -> bool) (sorted : list A) : Prop :=
  StronglySorted (fun x y => strictly_before less x y = false) sorted.

(** ** The summary views *)

(** The order in which a [range] over a map visits its keys: any order, each
    key once. *)
Definition RangeOrder {V} (m : gmap string V) (order : list string) : Prop :=
  order ≡ₚ (map_to_list m).*1.

(** The values met by a [range] that visits the keys in [order]. *)
Definition rangeValues {V} (m : gmap string V) (order : list string) : list V :=
  omap (fun k => m !! k) order.

(** The field-by-field copy the views make of a record. *)
Definition copySummary (v : SummaryStatistic) : SummaryStatistic :=
  {| sDestIP := sDestIP v;
     sRegion := sRegion v;
     sIsp := sIsp v;
     sTotalSent := sTotalSent v;
     sTotalRecv := sTotalRecv v;
     sMinRtt := sMinRtt v;
     sMaxRtt := sMaxRtt v;
     sAvgRtt := sAvgRtt v;
     sMinRttAvg := sMinRttAvg v;
     sMaxRttAvg := sMaxRttAvg v;
     sLastUpdated := sLastUpdated v;
     sPacketLoss := sPacketLoss v;
     sPacketsRecvDuplicates := sPacketsRecvDuplicates v |}.

(** [if descending { return !less }; return less]. *)
Definition direction (descending less : bool) : bool :=
  if descending then negb less else less.

(** The [switch field] of [GetSummarySorted]. *)
Definition lessFlat (field : string) (a b : SummaryStatistic) : bool :=
  if String.eqb field "minrtt" then sMinRtt a <? sMinRtt b
  else if String.eqb field "maxrtt" then sMaxRtt a <? sMaxRtt b
  else if String.eqb field "avgrtt" then sAvgRtt a <? sAvgRtt b
  else (sPacketLoss a <? sPacketLoss b)%float.

(** The [switch field] of [GetSummarySortedGroupedByIsp]. *)
Definition lessGrouped (field : string) (a b : SummaryStatistic) : bool :=
  if String.eqb field "loss" then (sPacketLoss a <? sPacketLoss b)%float
  else if String.eqb field "rtt" then sAvgRtt a <? sAvgRtt b
  else if String.eqb field "sent" then sTotalSent a <? sTotalSent b
  else if String.eqb field "recv" then sTotalRecv a <? sTotalRecv b
  else (sPacketLoss a <? sPacketLoss b)%float.

(** The [switch field] of [GetLossOnlyGroupedByIspSorted]. *)
Definition lessLossOnly (field : string) (a b : SummaryStatistic) : bool :=
  if String.eqb field "rtt" then sAvgRtt a <? sAvgRtt b
  else if String.eqb field "sent" then sTotalSent a <? sTotalSent b
  else if String.eqb field "recv" then sTotalRecv a <? sTotalRecv b
  else (sPacketLoss a <? sPacketLoss b)%float.

(** [grouped[v.Isp] = append(grouped[v.Isp], copy of v)] over the records in
    the order they are visited. *)
Definition groupByIsp (records : list SummaryStatistic) : gmap string (list SummaryStatistic) :=
  foldl (fun grouped v =>
           <[sIsp v := default [] (grouped !! sIsp v) ++ [copySummary v]]> grouped)
        ∅ records.

Section Views.

Variable sort_Slice : Sorter.

(** [s.GetSummarySorted(field, descending)], the map being visited in
    [order]. *)
Definition GetSummarySorted (s : PingStatsStore) (order : list string)
    (field : string) (descending : bool) : list SummaryStatistic :=
  let statsList := copySummary <$> rangeValues (summaryData s) order in
  sort_Slice _ (fun i j => direction descending (lessFlat field i j)) statsList.

(** [s.GetSummarySortedGroupedByIsp(field, descending)]: the store is visited
    in [order], the groups in [ispOrder]. *)
Definition GetSummarySortedGroupedByIsp (s : PingStatsStore) (order ispOrder : list string)
    (field : string) (descending : bool) : list SummaryStatistic :=
  let grouped := groupByIsp (rangeValues (summaryData s) order) in
  foldl (fun result list =>
           result ++ sort_Slice _ (fun i j => direction descending (lessGrouped field i j)) list)
        [] (rangeValues grouped ispOrder).

(** [s.GetLossOnlyGroupedByIspSorted(sum, field, descending)]. *)
Definition GetLossOnlyGroupedByIspSorted (sum : list SummaryStatistic)
    (field : string) (descending : bool) : list SummaryStatistic :=
  let lossOnly := List.filter (fun v => (0 <? sPacketLoss v)%float) sum in
  sort_Slice _ (fun i j => direction descending (lessLossOnly field i j)) lossOnly.

(** [HandleDPing]: everything received is handled in turn; when the channel
    is closed the grouped summary and its loss-only view are printed.  The
    result is the two printed lists and the final progress count. *)
Definition HandleDPing (store : PingStatsStore) (received : list (Time * PingStatistic))
    (order ispOrder : list string) (sort : string) (des : bool)
  : option (list SummaryStatistic * list SummaryStatistic * Z) :=
  '(store', processedCount) ← handleResults store 0 received;
  let SummaryStatistic := GetSummarySortedGroupedByIsp store' order ispOrder sort des in
  Some (SummaryStatistic,
        GetLossOnlyGroupedByIspSorted SummaryStatistic sort des,
        processedCount).

End Views.

(** The views that fall back on the loss use the [<] of [float64], which is
    an ordering only away from NaN. *)
Definition flatByLoss (field : string) : bool :=
  negb (String.eqb field "minrtt" || String.eqb field "maxrtt" || String.eqb field "avgrtt").

Definition groupedByLoss (field : string) : bool :=
  negb (String.eqb field "rtt" || String.eqb field "sent" || String.eqb field "recv").

Definition lossIsNumber (r : SummaryStatistic) : Prop :=
  PrimFloat.is_nan (sPacketLoss r) = false.

(** Two records that neither comparison puts first: a tie on the sort key. *)
Definition tie {A} (less : A -> A -> bool) (x y : A) : Prop :=
  less x y = false /\ less y x = false.

(** Ascending and descending by the key that [less] compares. *)
Definition Ascending {A} (less : A -> A -> bool) (l : list A) : Prop :=
  StronglySorted (fun x y => less y x = false) l.

Definition Descending {A} (less : A -> A -> bool) (l : list A) : Prop :=
  StronglySorted (fun x y => less x y = false) l.

(** The order of the flat summary with its key written out: the field names
    the minimum, the maximum or the average round-trip time, and any other
    field the loss.  [flatKeyLe field a b]: the key of [a] is at most that of
    [b]; [flatKeyEq field a b]: the two keys are equal. *)
Definition flatKeyLe (field : string) (a b : SummaryStatistic) : Prop :=
  if String.eqb field "minrtt" then sMinRtt a <= sMinRtt b
  else if String.eqb field "maxrtt" then sMaxRtt a <= sMaxRtt b
  else if String.eqb field "avgrtt" then sAvgRtt a <= sAvgRtt b
  else (sPacketLoss a <=? sPacketLoss b)%float = true.

Definition flatKeyEq (field : string) (a b : SummaryStatistic) : Prop :=
  if String.eqb field "minrtt" then sMinRtt a = sMinRtt b
  else if String.eqb field "maxrtt" then sMaxRtt a = sMaxRtt b
  else if String.eqb field "avgrtt" then sAvgRtt a = sAvgRtt b
  else (sPacketLoss a =? sPacketLoss b)%float = true.

(** How many elements of [l] come strictly before [x]. *)
Definition countBefore {A} (less : A -> A -> bool) (x : A) (l : list A) : nat :=
  length (List.filter (fun y => less y x) l).

(** *** The order of binary64 values, read off their specification

    A non-NaN value is ranked by sign class, then exponent, then mantissa,
    mirrored for the negative ones; [SFltb] is the lexicographic order of the
    ranks. *)
Definition sf_key (x : spec_float) : Z * Z * Z :=
  match x with
  | S754_zero _ => (0, 0, 0)
  | S754_infinity s => (if s then -2 else 2, 0, 0)
  | S754_nan => (0, 0, 0)
  | S754_finite s m e => if s then (-1, - e, - Z.pos m) else (1, e, Z.pos m)
  end.

Definition lex_lt (a b : Z * Z * Z) : Prop :=
  a.1.1 < b.1.1 \/ (a.1.1 = b.1.1 /\ (a.1.2 < b.1.2 \/ (a.1.2 = b.1.2 /\ a.2 < b.2))).

Definition sf_is_nan (x : spec_float) : bool :=
  match x with S754_nan => true | _ => false end.

(** ** The target selector at the head of [DPing] *)

Record ProvinceConfig := { IPv4 : list string }.

(** The catalog: ISP, then region, then the addresses. *)
Record DNSConfig := {
  Dx : gmap string ProvinceConfig;
  Lt : gmap string ProvinceConfig;
  Yd : gmap string ProvinceConfig
}.

(** The lines [DPing] hands to [log.Printf]. *)
Inductive Warning :=
| UnsupportedIsp (isp : string)
| RegionNotFound (region isp : string)
| NoAddresses (region isp : string).

Definition validIsps : gmap string bool :=
  list_to_map [("电信", true); ("联通", true); ("移动", true); ("all", true)].

(** [_, ok := m[key]]. *)
Definition hasKey {V} (m : gmap string V) (key : string) : bool :=
  match m !! key with Some _ => true | None => false end.

Definition isRegionExist (isp region : string) (dns : DNSConfig) : bool :=
  if String.eqb isp "电信" then hasKey (Dx dns) region
  else if String.eqb isp "联通" then hasKey (Lt dns) region
  else if String.eqb isp "移动" then hasKey (Yd dns) region
  else if String.eqb isp "all" then
    hasKey (Dx dns) region || hasKey (Lt dns) region || hasKey (Yd dns) region
  else false.

(** Lines 33 to 38: the ISP used, and the warning when it was replaced. *)
Definition selectIsp (isp : string) : string * list Warning :=
  let ispVal := isp in
  if negb (default false (validIsps !! ispVal))
  then ("all", [UnsupportedIsp ispVal])
  else (ispVal, []).

(** Lines 41 to 45: the region used, and the warning when it was replaced. *)
Definition selectRegion (ispVal detection : string) (dns : DNSConfig)
  : string * list Warning :=
  let regionVal := detection in
  if negb (String.eqb regionVal "全国") && negb (isRegionExist ispVal regionVal dns)
  then ("全国", [RegionNotFound regionVal ispVal])
  else (regionVal, []).

(** The validation of both parameters: the values the run goes on with, and
    the warnings logged on the way. *)
Definition selectParams (isp detection : string) (dns : DNSConfig)
  : string * string * list Warning :=
  let '(ispVal, w1) := selectIsp isp in
  let '(regionVal, w2) := selectRegion ispVal detection dns in
  (ispVal, regionVal, w1 ++ w2).

(** What a probe task is started with. *)
Record Target := { tAddress : string; tRegion : string; tIsp : string }.

Definition getIPList (dns : DNSConfig) (ispName region : string) : list string :=
  let regions :=
    if String.eqb ispName "电信" then Some (Dx dns)
    else if String.eqb ispName "联通" then Some (Lt dns)
    else if String.eqb ispName "移动" then Some (Yd dns)
    else None in
  match regions with
  | Some m => match m !! region with Some regionData => IPv4 regionData | None => [] end
  | None => []
  end.

(** [processIPs]: one task per address, in order; an empty list is logged. *)
Definition processIPs (ipList : list string) (region ispName : string)
  : list Target * list Warning :=
  match ipList with
  | [] => ([], [NoAddresses region ispName])
  | _ => ((fun ip => {| tAddress := ip; tRegion := region; tIsp := ispName |}) <$> ipList, [])
  end.

Definition ispRegions (dns : DNSConfig) : gmap string (gmap string ProvinceConfig) :=
  list_to_map [("电信", Dx dns); ("联通", Lt dns); ("移动", Yd dns)].

(** The tasks [DPing] starts, in the order it starts them.  For the whole
    country the two nested [range] loops visit the ISPs in [ispOrder] and the
    regions of an ISP in [regionOrder isp]. *)
Definition dispatchTargets (dns : DNSConfig) (ispVal regionVal : string)
    (ispOrder : list string) (regionOrder : string -> list string)
  : list Target * list Warning :=
  let collect (parts : list (list Target * list Warning)) :=
    (concat (parts.*1), concat (parts.*2)) in
  if negb (String.eqb regionVal "全国") then
    let targetIsps :=
      if String.eqb ispVal "all" then ["电信"; "联通"; "移动"] else [ispVal] in
    collect ((fun ispName => processIPs (getIPList dns ispName regionVal) regionVal ispName)
               <$> targetIsps)
  else
    collect
      (mjoin
         ((fun ispName =>
             if negb (String.eqb ispVal "all") && negb (String.eqb ispName ispVal) then []
             else
               match ispRegions dns !! ispName with
               | Some regions =>
                   omap (fun region =>
                           ipLists ← regions !! region;
                           Some (processIPs (IPv4 ipLists) region ispName))
                        (regionOrder ispName)
               | None => []
               end)
            <$> ispOrder)).

(** The closed set of ISP selectors, and what it means for a region to be in
    the catalog of the selected ISP: under that ISP, or under any when the
    selector is ["all"]. *)
Definition knownIsps : list string := ["电信"; "联通"; "移动"; "all"].

Definition regionInCatalog (dns : DNSConfig) (ispVal region : string) : Prop :=
  exists ispName regions,
    (ispVal = "all" \/ ispVal = ispName) /\
    ispRegions dns !! ispName = Some regions /\ is_Some (regions !! region).

(** A small catalog. *)
Definition sampleCatalog : DNSConfig :=
  {| Dx := list_to_map [("北京", {| IPv4 := ["219.141.136.10"; "219.141.140.10"] |});
                        ("上海", {| IPv4 := ["202.96.209.133"] |})];
     Lt := list_to_map [("北京", {| IPv4 := ["202.106.0.20"] |})];
     Yd := list_to_map [("广东", {| IPv4 := ["211.136.192.6"] |})] |}.

(** An address the selection covers: listed in the catalog under the ISP and
    region the target names, the ISP being the one in use (or any, for
    ["all"]) and the region the one in use (or any, for the whole country). *)
Definition selected (dns : DNSConfig) (ispVal regionVal : string) (t : Target) : Prop :=
  exists regions cfg,
    ispRegions dns !! tIsp t = Some regions /\
    regions !! tRegion t = Some cfg /\
    tAddress t ∈ IPv4 cfg /\
    (ispVal = "all" \/ tIsp t = ispVal) /\
    (regionVal = "全国" \/ tRegion t = regionVal).

(** The two nested [range] loops visit every ISP and every region of it. *)
Definition visitsCatalog (dns : DNSConfig) (ispOrder : list string)
    (regionOrder : string -> list string) : Prop :=
  forall ispName regions region,
    ispRegions dns !! ispName = Some regions -> is_Some (regions !! region) ->
    ispName ∈ ispOrder /\ region ∈ regionOrder ispName.

(** One order in which the loops may visit the sample catalog. *)
Definition sampleIspOrder : list string := ["移动"; "电信"; "联通"].

Definition sampleRegionOrder (ispName : string) : list string :=
  if String.eqb ispName "电信" then ["上海"; "北京"]
  else if String.eqb ispName "联通" then ["北京"]
  else ["广东"].

(** ** The bounded dispatcher

    The goroutines [processIPs] starts, the semaphore channel [sem], the wait
    group [wg] and the closing of the result channel, as a transition system:
    an [Action] is the next statement the scheduler lets run, and [step]
    refuses it ([None]) when that statement is not the next one of its
    goroutine or would block. *)
Module Dispatcher.

(** Where a probe goroutine stands. *)
Inductive TaskPc :=
| AtSem      (* started, before [sem <- struct{}{}] *)
| InPing     (* holds a slot, inside [Ping(...)] *)
| Returned   (* [Ping] is over, the deferred function has not run *)
| Released   (* [<-sem] done *)
| Finished.  (* [wg.Done()] done *)

Record State := {
  pending : list Target;            (* addresses the loops have not reached *)
  tasks : list (Target * TaskPc);   (* goroutines started so far *)
  semLen : Z;                       (* values buffered in [sem] *)
  semCap : Z;                       (* [maxConcurrency] *)
  wgCount : Z;                      (* the counter of [wg] *)
  waited : bool;                    (* [wg.Wait()] has returned *)
  closed : bool                     (* [close(ChStatistics)] has run *)
}.

Inductive Action :=
| Spawn                 (* [wg.Add(1)] and [go func(ip)] for the next address *)
| Acquire (i : nat)     (* task [i]: [sem <- struct{}{}] *)
| PingReturns (i : nat) (* task [i]: [Ping] returns, with or without a result *)
| Release (i : nat)     (* task [i]: [<-sem] *)
| WgDone (i : nat)      (* task [i]: [wg.Done()] *)
| Wait                  (* main: [wg.Wait()] returns *)
| Close.                (* main: [close(ChStatistics)] *)

(** [make(chan struct{}, maxConcurrency)] panics on a negative size. *)
Definition init (targets : list Target) (maxConcurrency : Z) : option State :=
  if maxConcurrency <? 0 then None
  else Some {| pending := targets; tasks := []; semLen := 0; semCap := maxConcurrency;
               wgCount := 0; waited := false; closed := false |}.

Definition setPc (st : State) (i : nat) (pc : TaskPc) (semLen' wgCount' : Z) : State :=
  {| pending := pending st;
     tasks := alter (fun t => (t.1, pc)) i (tasks st);
     semLen := semLen';
     semCap := semCap st;
     wgCount := wgCount';
     waited := waited st;
     closed := closed st |}.

Definition pcOf (st : State) (i : nat) : option TaskPc := snd <$> tasks st !! i.

Definition TaskPc_eqb (a b : TaskPc) : bool :=
  match a, b with
  | AtSem, AtSem | InPing, InPing | Returned, Returned
  | Released, Released | Finished, Finished => true
  | _, _ => false
  end.

Definition at_pc (st : State) (i : nat) (pc : TaskPc) : bool :=
  match pcOf st i with Some pc' => TaskPc_eqb pc' pc | None => false end.

Definition step (st : State) (a : Action) : option State :=
  match a with
  | Spawn =>
      match pending st with
      | t :: rest =>
          Some {| pending := rest; tasks := tasks st ++ [(t, AtSem)];
                  semLen := semLen st; semCap := semCap st;
                  wgCount := wgCount st + 1;
                  waited := waited st; closed := closed st |}
      | [] => None
      end
  | Acquire i =>
      (* a send on a buffered channel goes through when the buffer has room;
         nothing receives from [sem] but the tasks that have sent already *)
      if at_pc st i AtSem && (semLen st <? semCap st)
      then Some (setPc st i InPing (semLen st + 1) (wgCount st)) else None
  | PingReturns i =>
      if at_pc st i InPing
      then Some (setPc st i Returned (semLen st) (wgCount st)) else None
  | Release i =>
      if at_pc st i Returned && (0 <? semLen st)
      then Some (setPc st i Released (semLen st - 1) (wgCount st)) else None
  | WgDone i =>
      if at_pc st i Released
      then Some (setPc st i Finished (semLen st) (wgCount st - 1)) else None
  | Wait =>
      (* [wg.Wait()] comes after the loops and returns when the counter is zero *)
      match pending st with
      | [] =>
          if negb (waited st) && (wgCount st =? 0)
          then Some {| pending := []; tasks := tasks st; semLen := semLen st;
                       semCap := semCap st; wgCount := wgCount st;
                       waited := true; closed := closed st |}
          else None
      | _ :: _ => None
      end
  | Close =>
      if waited st && negb (closed st)
      then Some {| pending := pending st; tasks := tasks st; semLen := semLen st;
                   semCap := semCap st; wgCount := wgCount st;
                   waited := waited st; closed := true |}
      else None
  end.

(** The state after a schedule, when every action of it could run. *)
Fixpoint run (st : State) (schedule : list Action) : option State :=
  match schedule with
  | [] => Some st
  | a :: rest => st' ← step st a; run st' rest
  end.

(** How many tasks stand at one of the given points. *)
Definition pcIn (pcs : list TaskPc) (t : Target * TaskPc) : bool :=
  existsb (TaskPc_eqb t.2) pcs.

Definition countPc (pcs : list TaskPc) (st : State) : Z :=
  Z.of_nat (length (List.filter (pcIn pcs) (tasks st))).

(** The tasks inside the probe call. *)
Definition probing (st : State) : Z := countPc [InPing] st.

Definition allFinished (st : State) : Prop :=
  Forall (fun t : Target * TaskPc => t.2 = Finished) (tasks st).

(** What every reachable state satisfies: the tasks started are the
    descriptors reached so far, one each and in order; [sem] buffers one value
    per task between its send and its receive, and never more than its
    capacity; [wg] counts the tasks that have not called [Done]; [Wait]
    returns, and the channel is closed, only with every task finished. *)
Definition Inv (targets : list Target) (maxConcurrency : Z) (st : State) : Prop :=
  (tasks st).*1 ++ pending st = targets /\
  semCap st = maxConcurrency /\
  semLen st = countPc [InPing; Returned] st /\
  semLen st <= semCap st /\
  wgCount st = countPc [AtSem; InPing; Returned; Released] st /\
  (waited st = true -> pending st = [] /\ allFinished st) /\
  (closed st = true -> waited st = true).

(** Two descriptors dispatched with one slot: whichever task takes the slot
    second takes it only after the other has given it back. *)
Definition twoTargets : list Target :=
  (dispatchTargets sampleCatalog "电信" "北京" [] (fun _ => [])).1.

Definition oneSlotSchedule : list Action :=
  [ Spawn; Spawn; Acquire 1; PingReturns 1; Release 1; Acquire 0; WgDone 1;
    PingReturns 0; Release 0; WgDone 0; Wait; Close ].

(** The steps a task, and the whole run, still have to take: five for an
    address not reached yet (its start and the four steps of its task), and
    one each for [wg.Wait()] and [close(ChStatistics)]. *)
Definition stepsLeft (pc : TaskPc) : Z :=
  match pc with
  | AtSem => 4 | InPing => 3 | Returned => 2 | Released => 1 | Finished => 0
  end.

Definition tasksLeft (l : list (Target * TaskPc)) : Z :=
  foldr (fun t acc => stepsLeft t.2 + acc) 0 l.

Definition remaining (st : State) : Z :=
  5 * Z.of_nat (length (pending st)) + tasksLeft (tasks st)
  + (if waited st then 0 else 1) + (if closed st then 0 else 1).

(** A run whose [sem] has no buffer: every task started waits at its send. *)
Definition noSlot (st : State) : Prop :=
  semCap st = 0 /\ semLen st = 0 /\
  Forall (fun t : Target * TaskPc => t.2 = AtSem) (tasks st) /\
  wgCount st = Z.of_nat (length (tasks st)) /\
  waited st = false /\ closed st = false /\
  (tasks st <> [] \/ pending st <> []).

End Dispatcher.

(** ** The footer of [printSummaryList]

    [printSummaryList] renders one table row per record and a footer of
    totals.  The rendering is the table writer's; what is modelled is the
    arithmetic: the colour chosen for a loss and for an ISP, and the numbers
    of the footer before they are formatted. *)
Module PrintSummaryList.

Inductive Color := green | yellow | red | blue | purple | green2.

Definition colorForPacketLoss (loss : float) : Color :=
  if (loss <? 5)%float then green
  else if (loss <? 10)%float then yellow
  else red.

Definition colorForISP (isp : string) : Color :=
  if String.eqb isp "联通" then blue
  else if String.eqb isp "移动" then purple
  else if String.eqb isp "电信" then green2
  else blue.

(** The accumulators of the loop over the rows. *)
Record Totals := {
  totalSent : Z;
  totalRecv : Z;
  totalLoss : float;
  totalDuplicates : Z;
  rttCount : Z;
  globalMinRtt : Duration;
  globalMaxRtt : Duration;
  globalAvgRtt : Duration
}.

Definition noTotals : Totals :=
  {| totalSent := 0; totalRecv := 0; totalLoss := 0%float; totalDuplicates := 0;
     rttCount := 0; globalMinRtt := 0; globalMaxRtt := 0; globalAvgRtt := 0 |}.

(** One turn of [for _, sum := range summaryList]. *)
Definition addRow (t : Totals) (sum : SummaryStatistic) : Totals :=
  {| totalSent := Int64.add (totalSent t) (sTotalSent sum);
     totalRecv := Int64.add (totalRecv t) (sTotalRecv sum);
     totalLoss := (totalLoss t + sPacketLoss sum)%float;
     totalDuplicates := Int64.add (totalDuplicates t) (sPacketsRecvDuplicates sum);
     rttCount := Int64.add (rttCount t) (sTotalRecv sum);
     globalMinRtt :=
       Int64.add (globalMinRtt t) (Int64.mul (sMinRtt sum) (sTotalRecv sum));
     globalMaxRtt :=
       Int64.add (globalMaxRtt t) (Int64.mul (sMaxRtt sum) (sTotalRecv sum));
     globalAvgRtt :=
       Int64.add (globalAvgRtt t) (Int64.mul (sAvgRtt sum) (sTotalRecv sum)) |}.

(** [float64(n)] for a length [n]. *)
Definition float64_of_len (n : nat) : float :=
  PrimFloat.of_uint63 (Uint63.of_Z (Z.of_nat n)).

(** The numbers handed to [table.SetFooter]. *)
Record Footer := {
  footSent : Z;
  footRecv : Z;
  footAvgLoss : float;
  footDuplicates : Z;
  footMinRtt : Duration;
  footMaxRtt : Duration;
  footAvgRtt : Duration
}.

(** [g /= time.Duration(rttCount)] under [if rttCount > 0]: the divisor is
    not zero there, so the division cannot panic. *)
Definition divideByCount (rttCount : Z) (g : Duration) : Duration :=
  if rttCount >? 0 then Int64.wrap (g ÷ rttCount) else g.

Definition footer (summaryList : list SummaryStatistic) : Footer :=
  let t := foldl addRow noTotals summaryList in
  let avgLoss :=
    if Z.of_nat (length summaryList) >? 0
    then (totalLoss t / float64_of_len (length summaryList))%float
    else 0%float in
  {| footSent := totalSent t;
     footRecv := totalRecv t;
     footAvgLoss := avgLoss;
     footDuplicates := totalDuplicates t;
     footMinRtt := divideByCount (rttCount t) (globalMinRtt t);
     footMaxRtt := divideByCount (rttCount t) (globalMaxRtt t);
     footAvgRtt := divideByCount (rttCount t) (globalAvgRtt t) |}.

(** The packets received over the rows, and the sum of a value weighted by
    them. *)
Definition received (rows : list SummaryStatistic) : Z :=
  foldr (fun r acc => sTotalRecv r + acc) 0 rows.

Definition weighted (get : SummaryStatistic -> Z) (rows : list SummaryStatistic) : Z :=
  foldr (fun r acc => get r * sTotalRecv r + acc) 0 rows.

(** A row whose times, when it received anything, are within [0, B]. *)
Definition row_within (B : Z) (r : SummaryStatistic) : Prop :=
  0 <= sTotalRecv r /\
  (0 < sTotalRecv r ->
   0 <= sMinRtt r <= B /\ 0 <= sMaxRtt r <= B /\ 0 <= sAvgRtt r <= B).

Definition get_within (get : SummaryStatistic -> Z) (B : Z) (r : SummaryStatistic) : Prop :=
  0 <= sTotalRecv r /\ (0 < sTotalRecv r -> 0 <= get r <= B).

End PrintSummaryList.

(** ** The other readers of the store *)

(** [s.GetRecent()]: a copy of the recent-history slice. *)
Definition GetRecent (s : PingStatsStore) : list PingStatistic := recentStats s.

(** [s.GetSummary()]: a new map with a copy of every record under its key. *)
Definition GetSummary (s : PingStatsStore) : gmap string SummaryStatistic :=
  copySummary <$> summaryData s.

(** The destinations and the clock readings of a run of calls. *)
Definition callsFor (d : string) (calls : list (Time * PingStatistic))
  : list (Time * PingStatistic) :=
  filter (fun c => DecIp c.2 = d) calls.

Definition recv_total (calls : list (Time * PingStatistic)) : Z :=
  foldr (fun c acc => PacketsRecv (Statistic c.2) + acc) 0 calls.

(** The counters the store holds for [d]; none yet is zero of each. *)
Definition totals_state (s : PingStatsStore) (d : string) : Z * Z :=
  match summaryData s !! d with
  | Some r => (sTotalSent r, sTotalRecv r)
  | None => (0, 0)
  end.

(** The running mean that [get] reads off the record of [d], with its weight. *)
Definition rtt_state (get : SummaryStatistic -> Z) (d : string) (s : PingStatsStore)
  : Z * Z :=
  match summaryData s !! d with
  | Some r => (get r, sTotalRecv r)
  | None => (0, 0)
  end.

(** The samples [(value, received)] of the results for [d], for a value read
    off the statistics by [val]. *)
Definition samples_by (val : Statistics -> Z) (d : string)
    (calls : list (Time * PingStatistic)) : list (Z * Z) :=
  (fun c => (val (Statistic c.2), PacketsRecv (Statistic c.2))) <$> callsFor d calls.

(** A call [Add] can run, whose minimum and maximum, when it is for [d], are
    within [0, B]. *)
Definition rtt_within (d : string) (B : Z) (c : Time * PingStatistic) : Prop :=
  0 <= PacketsRecv (Statistic c.2) /\
  (DecIp c.2 = d ->
   0 <= MinRtt (Statistic c.2) <= B /\ 0 <= MaxRtt (Statistic c.2) <= B).

(** ** [StatisticList]

    A slice of pointers behind a read-write lock.  Every method holds the
    lock for its whole body, so a method call is one step on the slice.  A
    pointer is [Some] statistic or [None] for nil; the outer [option] of a
    result is [None] where the call does not return: a panic, or the runtime
    giving up for want of memory. *)
Module StatisticList.

Record StatisticList := { items : list (option PingStatistic) }.

(** The longest slice of pointers [make] accepts on a 64-bit platform with
    48-bit heap addresses: [maxAlloc / 8] entries.  A longer one panics with
    [makeslice: len out of range]. *)
Definition maxSliceLen : Z := 2 ^ 45.

(** [make([]*PingStatistic, len)]: [len] nil pointers.  A negative length
    and one above [maxSliceLen] panic; below that the allocation succeeds
    when the memory holds it, [available] being the number of entries the
    runtime can allocate when the call is made (an input, as the clock is). *)
Definition NewStatisticList (available len : Z) : option StatisticList :=
  if (len <? 0) || (maxSliceLen <? len) || (available <? len) then None
  else Some {| items := replicate (Z.to_nat len) None |}.

(** [append] grows the slice when it is full; the growth is taken to find
    the memory it needs. *)
Definition Append (l : StatisticList) (item : option PingStatistic) : StatisticList :=
  {| items := items l ++ [item] |}.

Definition Len (l : StatisticList) : Z := Z.of_nat (length (items l)).

(** Only the upper bound is checked: a negative index reaches
    [l.items[index]] and panics. *)
Definition Get (l : StatisticList) (index : Z) : option (option PingStatistic) :=
  if index >=? Len l then Some None
  else if index <? 0 then None
  else items l !! Z.to_nat index.

Definition Remove (l : StatisticList) (index : Z) : StatisticList :=
  if (index <? 0) || (index >=? Len l) then l
  else {| items := take (Z.to_nat index) (items l)
                   ++ drop (Z.to_nat (index + 1)) (items l) |}.

(** A run of [Append] calls. *)
Definition AppendAll (l : StatisticList) (new : list (option PingStatistic))
  : StatisticList :=
  foldl Append l new.

End StatisticList.

(** ** The running average, as the specification words it

    Merging a sample of value [v] and weight [w] into a mean [m] of
    accumulated weight [W]: [v] when [W] is zero, [(m*W + v*w) / (W + w)]
    otherwise, the quotient being that of durations (whole nanoseconds,
    truncated). *)
Definition spec_merge (m W v w : Z) : Z :=
  if W =? 0 then v else (m * W + v * w) ÷ (W + w).

Definition spec_step (acc sample : Z * Z) : Z * Z :=
  (spec_merge acc.1 acc.2 sample.1 sample.2, acc.2 + sample.2).

(** Mean and accumulated weight after merging the samples in order. *)
Definition spec_mean (samples : list (Z * Z)) : Z * Z :=
  foldl spec_step (0, 0) samples.

(** The samples [(avgRtt, received)] that a run of calls contributes to the
    record of destination [d]. *)
Definition samples_of (d : string) (calls : list (Time * PingStatistic)) : list (Z * Z) :=
  (fun c => (AvgRtt (Statistic c.2), PacketsRecv (Statistic c.2)))
    <$> filter (fun c => DecIp c.2 = d) calls.

Definition total_weight (samples : list (Z * Z)) : Z :=
  foldr (fun sample acc => sample.2 + acc) 0 samples.

(** The running mean and weight the store holds for [d]; a destination
    without a record has contributed nothing yet. *)
Definition avg_state (s : PingStatsStore) (d : string) : Z * Z :=
  match summaryData s !! d with
  | Some r => (sAvgRtt r, sTotalRecv r)
  | None => (0, 0)
  end.

(** A call that [Add] can run, and whose sample, when it is for [d], has
    received packets and an average within [0, B]. *)
Definition contributes (d : string) (B : Z) (c : Time * PingStatistic) : Prop :=
  0 <= PacketsRecv (Statistic c.2) /\
  (DecIp c.2 = d ->
   0 < PacketsRecv (Statistic c.2) /\ 0 <= AvgRtt (Statistic c.2) <= B).

(** What the induction on the calls carries: the mean is within the samples'
    range, and is still zero while nothing has been received. *)
Definition avg_inv (B : Z) (st : Z * Z) : Prop :=
  0 <= st.1 <= B /\ 0 <= st.2 /\ (st.2 = 0 -> st.1 = 0).

(** The exact numerator of the weighted mean: the sum of value times weight. *)
Definition weighted_sum (samples : list (Z * Z)) : Z :=
  foldr (fun sample acc => sample.1 * sample.2 + acc) 0 samples.

(** ** Vocabulary of the store's invariants *)

(** A sample as the probe client reports it: no more received than sent. *)
Definition sample_ok (c : Time * PingStatistic) : Prop :=
  0 <= PacketsRecv (Statistic c.2) <= PacketsSent (Statistic c.2).

Definition sent_total (calls : list (Time * PingStatistic)) : Z :=
  foldr (fun c acc => PacketsSent (Statistic c.2) + acc) 0 calls.

Definition recv_le_sent (s : PingStatsStore) : Prop :=
  forall k r, summaryData s !! k = Some r -> sTotalRecv r <= sTotalSent r.

(** Every record's counters are ordered and below the budget [U]. *)
Definition counters_within (U : Z) (s : PingStatsStore) : Prop :=
  forall k r, summaryData s !! k = Some r -> 0 <= sTotalRecv r <= sTotalSent r /\ sTotalSent r <= U.

(** The fields a record takes from the result that creates it. *)
Definition created_from (stat : PingStatistic) (r : SummaryStatistic) : Prop :=
  sDestIP r = DecIp stat /\ sRegion r = Region stat /\ sIsp r = Isp stat /\
  sPacketLoss r = PacketLoss (Statistic stat) /\
  sPacketsRecvDuplicates r = PacketsRecvDuplicates (Statistic stat).

Definition same_creation (r r' : SummaryStatistic) : Prop :=
  sDestIP r' = sDestIP r /\ sRegion r' = sRegion r /\ sIsp r' = sIsp r /\
  sPacketLoss r' = sPacketLoss r /\
  sPacketsRecvDuplicates r' = sPacketsRecvDuplicates r.

(** The first result for destination [d] in a run of calls. *)
Definition firstFor (d : string) (calls : list (Time * PingStatistic)) : option PingStatistic :=
  snd <$> List.find (fun c => String.eqb (DecIp c.2) d) calls.

(** The results of a received stream that reach [Add]. *)
Definition aggregated (received : list (Time * PingStatistic)) : list (Time * PingStatistic) :=
  List.filter (fun c => negb (PacketLoss (Statistic c.2) =? 100)%float) received.

(** ** Example data *)

(** Results as the probe task posts them. *)
Definition mkStat (dst region isp : string) (sent recv dup : Z) (loss : float)
    (mn mx av : Duration) : PingStatistic :=
  {| SrcIp := ""; DecIp := dst; Region := region; Isp := isp;
     Statistic := {| PacketsRecv := recv; PacketsSent := sent;
                     PacketsRecvDuplicates := dup; PacketLoss := loss;
                     MinRtt := mn; MaxRtt := mx; AvgRtt := av |} |}.

(** The scenario of the specification: two results for one destination. *)
Definition firstStat : PingStatistic :=
  mkStat "1.1.1.1" "bj" "dx" 3 3 0 0%float
    (10 * Millisecond) (30 * Millisecond) (20 * Millisecond).

Definition secondStat : PingStatistic :=
  mkStat "1.1.1.1" "bj" "dx" 3 2 0 (1 / 3 * 100)%float
    (8 * Millisecond) (25 * Millisecond) (15 * Millisecond).

Definition scenario : list (Time * PingStatistic) := [(1, firstStat); (2, secondStat)].

(** The store after the first result of the scenario, and after both. *)
Definition afterFirst : PingStatsStore :=
  default (NewPingStatsStore 25) (Add (NewPingStatsStore 25) 1 firstStat).

Definition afterBoth : PingStatsStore :=
  default afterFirst (Add afterFirst 2 secondStat).

(** One destination probed twice, the second time under another region and
    ISP, with another loss and duplicate count. *)
Definition retaggedStat : PingStatistic :=
  mkStat "1.1.1.1" "sh" "lt" 4 2 1 50%float
    (8 * Millisecond) (25 * Millisecond) (15 * Millisecond).

Definition retagged : list (Time * PingStatistic) := [(1, firstStat); (2, retaggedStat)].

Definition afterRetagged : PingStatsStore :=
  default afterFirst (Add afterFirst 2 retaggedStat).

(** Three destinations, one per ISP, with losses of 50, 10 and 0 percent. *)
Definition hostA : PingStatistic :=
  mkStat "9.9.9.9" "bj" "dx" 4 2 0 50%float
    (30 * Millisecond) (50 * Millisecond) (40 * Millisecond).

Definition hostB : PingStatistic :=
  mkStat "8.8.8.8" "sh" "lt" 10 9 1 10%float
    (5 * Millisecond) (9 * Millisecond) (7 * Millisecond).

Definition hostC : PingStatistic :=
  mkStat "7.7.7.7" "gz" "yd" 3 3 0 0%float
    (11 * Millisecond) (13 * Millisecond) (12 * Millisecond).

Definition threeHosts : PingStatsStore :=
  default (NewPingStatsStore 25)
          (AddAll (NewPingStatsStore 25) [(1, hostA); (2, hostB); (3, hostC)]).

(** Two destinations of one ISP, with losses of 5 and 50 percent, and one of
    another ISP with a loss of 10 percent. *)
Definition hostD : PingStatistic :=
  mkStat "6.6.6.6" "bj" "dx" 20 19 0 5%float
    (20 * Millisecond) (24 * Millisecond) (22 * Millisecond).

Definition twoIsps : PingStatsStore :=
  default (NewPingStatsStore 25)
          (AddAll (NewPingStatsStore 25) [(1, hostD); (2, hostA); (3, hostB)]).

(** A result with every packet lost. *)
Definition lostStat : PingStatistic :=
  mkStat "2.2.2.2" "sh" "lt" 3 0 0 100%float 0 0 0.
(** * Proofs *)

(** ** 64-bit arithmetic that does not overflow *)

Module Int64Facts.
Import Int64.

Lemma wrap_id z : in_range z -> wrap z = z.
Proof.
  unfold in_range, wrap, min_int, max_int. intros H.
  rewrite Z.mod_small; lia.
Qed.

Lemma wrap_in_range z : in_range (wrap z).
Proof.
  unfold in_range, wrap, min_int, max_int.
  pose proof (Z.mod_pos_bound (z + 2 ^ 63) (2 ^ 64)). lia.
Qed.

Lemma add_exact a b : in_range (a + b) -> add a b = a + b.
Proof. apply wrap_id. Qed.

Lemma sub_exact a b : in_range (a - b) -> sub a b = a - b.
Proof. apply wrap_id. Qed.

Lemma mul_exact a b : in_range (a * b) -> mul a b = a * b.
Proof. apply wrap_id. Qed.

Lemma quo_exact a b :
  b <> 0 -> in_range (Z.quot a b) -> quo a b = Some (Z.quot a b).
Proof.
  intros Hb Hr. unfold quo.
  destruct (Z.eqb_spec b 0) as [->|_]; [done|].
  by rewrite wrap_id.
Qed.

End Int64Facts.

(** ** Facts about [Add] *)

Lemma mergeAvg_is_Some m total recv v : total <> 0 -> is_Some (mergeAvg m total recv v).
Proof.
intros Ht. unfold mergeAvg, Int64.quo.
destruct (Z.eqb_spec total 0); [done | eauto].
Qed.

Lemma mergeAvg_None m total recv v : mergeAvg m total recv v = None <-> total = 0.
Proof.
unfold mergeAvg, Int64.quo. destruct (Z.eqb_spec total 0); split; try done.
Qed.

(** What a successful update leaves in each field. *)
Lemma updateSummary_inv now sd sum r' :
updateSummary now sd sum = Some r' ->
let totalRecv := Int64.add (sTotalRecv sum) (PacketsRecv sd) in
sDestIP r' = sDestIP sum /\ sRegion r' = sRegion sum /\ sIsp r' = sIsp sum /\
sPacketLoss r' = sPacketLoss sum /\
sPacketsRecvDuplicates r' = sPacketsRecvDuplicates sum /\
sLastUpdated r' = now /\
sTotalSent r' = Int64.add (sTotalSent sum) (PacketsSent sd) /\
sTotalRecv r' = totalRecv /\
sMinRtt r' = (if (MinRtt sd >? 0) && (MinRtt sd <? sMinRtt sum)
              then MinRtt sd else sMinRtt sum) /\
sMaxRtt r' = (if MaxRtt sd >? sMaxRtt sum then MaxRtt sd else sMaxRtt sum) /\
(if totalRecv >? 0
 then mergeAvg (sAvgRtt sum) totalRecv (PacketsRecv sd) (AvgRtt sd)
 else Some (sAvgRtt sum)) = Some (sAvgRtt r').
Proof.
unfold updateSummary. intros H.
repeat match type of H with
       | (mbind _ ?x) = Some _ =>
           let E := fresh "E" in destruct x eqn:E; simpl in H; [|discriminate]
       end.
injection H as <-. simpl. repeat split; done.
Qed.

Lemma updateSummary_is_Some now sd sum :
0 <= PacketsRecv sd -> is_Some (updateSummary now sd sum).
Proof.
intros Hrecv. unfold updateSummary.
set (totalRecv := Int64.add (sTotalRecv sum) (PacketsRecv sd)).
assert (Hgt : forall m v, (totalRecv >? PacketsRecv sd) = true ->
                          is_Some (mergeAvg m totalRecv (PacketsRecv sd) v)).
{ intros m v Hc. apply mergeAvg_is_Some. lia. }
assert (Hpos : forall m v, (totalRecv >? 0) = true ->
                           is_Some (mergeAvg m totalRecv (PacketsRecv sd) v)).
{ intros m v Hc. apply mergeAvg_is_Some. lia. }
destruct (totalRecv >? PacketsRecv sd) eqn:E1.
- destruct (Hgt (sMinRttAvg sum) (MinRtt sd) eq_refl) as [a ->].
  destruct (Hgt (sMaxRttAvg sum) (MaxRtt sd) eq_refl) as [b ->]. simpl.
  destruct (totalRecv >? 0) eqn:E2; simpl; [|eauto].
  destruct (Hpos (sAvgRtt sum) (AvgRtt sd) eq_refl) as [c ->]. simpl. eauto.
- simpl. destruct (totalRecv >? 0) eqn:E2; simpl; [|eauto].
  destruct (Hpos (sAvgRtt sum) (AvgRtt sd) eq_refl) as [c ->]. simpl. eauto.
Qed.

Lemma Add_inv s now stat s' :
Add s now stat = Some s' ->
exists r', updateSummary now (Statistic stat) (lookupOrCreate s stat) = Some r' /\
           summaryData s' = <[DecIp stat := r']> (summaryData s) /\
           recentStats s' = pushRecent s stat /\
           maxRecent s' = maxRecent s.
Proof.
unfold Add. fold (lookupOrCreate s stat). intros H.
destruct (updateSummary now (Statistic stat) (lookupOrCreate s stat)) as [r'|] eqn:E;
  simpl in H; [|discriminate].
injection H as <-. exists r'. simpl. done.
Qed.

Lemma Add_is_Some s now stat :
0 <= PacketsRecv (Statistic stat) -> is_Some (Add s now stat).
Proof.
intros Hrecv. unfold Add. fold (lookupOrCreate s stat).
destruct (updateSummary_is_Some now (Statistic stat) (lookupOrCreate s stat) Hrecv)
  as [r' ->].
simpl. eauto.
Qed.

(** Records under other destinations are not touched. *)
Lemma Add_lookup_ne s now stat s' k :
Add s now stat = Some s' -> k <> DecIp stat ->
summaryData s' !! k = summaryData s !! k.
Proof.
intros H Hk. apply Add_inv in H as (r' & _ & -> & _).
by rewrite lookup_insert_ne.
Qed.

Lemma Add_lookup_eq s now stat s' :
Add s now stat = Some s' ->
exists r', summaryData s' !! DecIp stat = Some r' /\
           updateSummary now (Statistic stat) (lookupOrCreate s stat) = Some r'.
Proof.
intros H. apply Add_inv in H as (r' & Hu & -> & _).
exists r'. by rewrite lookup_insert_eq.
Qed.

(** No call removes a record. *)
Lemma Add_keeps_record s now stat s' k :
Add s now stat = Some s' -> is_Some (summaryData s !! k) ->
is_Some (summaryData s' !! k).
Proof.
intros H Hk. destruct (decide (k = DecIp stat)) as [->|Hne].
- destruct (Add_lookup_eq _ _ _ _ H) as (r' & -> & _). eauto.
- by rewrite (Add_lookup_ne _ _ _ _ k H Hne).
Qed.

Lemma AddAll_keeps_record calls : forall s s' k,
AddAll s calls = Some s' -> is_Some (summaryData s !! k) ->
is_Some (summaryData s' !! k).
Proof.
induction calls as [|[now stat] calls IH]; intros s s' k H Hk; simpl in H.
- by injection H as <-.
- destruct (Add s now stat) as [s1|] eqn:E; simpl in H; [|discriminate].
  eapply IH; [done|]. by eapply Add_keeps_record.
Qed.

(** ** The running average *)

Section RunningAverage.

Lemma total_weight_cons sample samples :
  total_weight (sample :: samples) = sample.2 + total_weight samples.
Proof. reflexivity. Qed.


Variable d : string.
Variable B : Z.

Lemma lookupOrCreate_avg s stat :
  DecIp stat = d ->
  (sAvgRtt (lookupOrCreate s stat), sTotalRecv (lookupOrCreate s stat)) = avg_state s d.
Proof.
  intros <-. unfold lookupOrCreate, avg_state.
  by destruct (summaryData s !! DecIp stat).
Qed.

Lemma mergeAvg_exact m W v w :
  0 <= m <= B -> 0 <= W -> (W = 0 -> m = 0) -> 0 < w -> 0 <= v <= B ->
  W + w <= Int64.max_int -> B * (W + w) <= Int64.max_int ->
  mergeAvg m (W + w) w v = Some (spec_merge m W v w) /\
  0 <= spec_merge m W v w <= B.
Proof.
  intros Hm HW H0 Hw Hv HT HB.
  assert (Hmax : Int64.max_int = 2 ^ 63 - 1) by reflexivity.
  assert (Hmin : Int64.min_int = - 2 ^ 63) by reflexivity.
  assert (HmW : 0 <= m * W <= B * W) by nia.
  assert (Hvw : 0 <= v * w <= B * w) by nia.
  assert (Hq : 0 <= (m * W + v * w) ÷ (W + w) <= B).
  { rewrite Z.quot_div_nonneg by lia. split.
    - apply Z.div_pos; lia.
    - apply Z.div_le_upper_bound; nia. }
  assert (Heq : (m * W + v * w) ÷ (W + w) = spec_merge m W v w).
  { unfold spec_merge. destruct (Z.eqb_spec W 0) as [->|]; [|done].
    rewrite (H0 eq_refl). replace (0 * 0 + v * w) with (v * w) by lia.
    replace (0 + w) with w by lia. apply Z.quot_mul. lia. }
  split; [|by rewrite <- Heq].
  unfold mergeAvg.
  rewrite Int64Facts.sub_exact by (unfold Int64.in_range; lia).
  replace (W + w - w) with W by lia.
  rewrite !Int64Facts.mul_exact by (unfold Int64.in_range; nia).
  rewrite Int64Facts.add_exact by (unfold Int64.in_range; nia).
  assert (HBmax : B <= Int64.max_int) by nia.
  rewrite Int64Facts.quo_exact; [by rewrite Heq | lia | unfold Int64.in_range; lia].
Qed.

(** One [Add] for [d] performs one merge of the rule. *)
Lemma Add_avg_step s now stat :
  DecIp stat = d ->
  avg_inv B (avg_state s d) ->
  0 < PacketsRecv (Statistic stat) ->
  0 <= AvgRtt (Statistic stat) <= B ->
  (avg_state s d).2 + PacketsRecv (Statistic stat) <= Int64.max_int ->
  B * ((avg_state s d).2 + PacketsRecv (Statistic stat)) <= Int64.max_int ->
  exists s', Add s now stat = Some s' /\
             avg_state s' d =
               spec_step (avg_state s d)
                         (AvgRtt (Statistic stat), PacketsRecv (Statistic stat)) /\
             avg_inv B (avg_state s' d).
Proof.
  intros Hd (Hm & HW & H0) Hw Hv HT HB.
  destruct (Add_is_Some s now stat) as [s' Hs']; [lia|].
  exists s'. split; [done|].
  destruct (Add_lookup_eq _ _ _ _ Hs') as (r' & Hl & Hu).
  apply updateSummary_inv in Hu as (_ & _ & _ & _ & _ & _ & _ & Htot & _ & _ & Havg).
  cbv zeta in Htot, Havg.
  pose proof (lookupOrCreate_avg s stat Hd) as Hst.
  destruct (avg_state s d) as [m W] eqn:Est. simpl in *.
  injection Hst as Hst1 Hst2. rewrite Hst1, Hst2 in *.
  rewrite Int64Facts.add_exact in Htot, Havg
    by (assert (Int64.max_int = 2 ^ 63 - 1) by reflexivity;
        unfold Int64.in_range, Int64.min_int; lia).
  destruct (mergeAvg_exact m W (AvgRtt (Statistic stat)) (PacketsRecv (Statistic stat)))
    as [Hmerge Hrange]; try done.
  replace (W + PacketsRecv (Statistic stat) >? 0) with true in Havg by lia.
  rewrite Hmerge in Havg. injection Havg as Havg.
  unfold avg_state at 1 2. rewrite Hd in Hl. rewrite Hl, <- Havg, Htot.
  unfold spec_step, avg_inv. simpl. repeat split; lia.
Qed.

Lemma Add_avg_other s now stat s' :
  DecIp stat <> d -> Add s now stat = Some s' -> avg_state s' d = avg_state s d.
Proof.
  intros Hd Hs'. unfold avg_state.
  by rewrite (Add_lookup_ne _ _ _ _ d Hs').
Qed.

Lemma total_weight_nonneg calls :
  Forall (contributes d B) calls -> 0 <= total_weight (samples_of d calls).
Proof.
  unfold samples_of. induction 1 as [|c calls Hc _ IH]; [done|].
  rewrite filter_cons. case_decide; [|done].
  rewrite fmap_cons, total_weight_cons. simpl. destruct Hc as [? _]. lia.
Qed.

(** A run of calls folds the rule over the samples it carries for [d]. *)
Lemma AddAll_avg calls : forall s,
  Forall (contributes d B) calls ->
  avg_inv B (avg_state s d) ->
  (avg_state s d).2 + total_weight (samples_of d calls) <= Int64.max_int ->
  B * ((avg_state s d).2 + total_weight (samples_of d calls)) <= Int64.max_int ->
  exists s', AddAll s calls = Some s' /\
             avg_state s' d = foldl spec_step (avg_state s d) (samples_of d calls) /\
             (summaryData s !! d = None -> samples_of d calls <> [] ->
              is_Some (summaryData s' !! d)).
Proof.
  induction calls as [|[now stat] calls IH]; intros s Hall Hinv HT HB.
  { exists s. by repeat split. }
  apply Forall_cons in Hall as [[Hrecv Hc] Hall]. simpl in Hrecv, Hc.
  pose proof (total_weight_nonneg calls Hall) as Hnn.
  destruct (decide (DecIp stat = d)) as [Hd|Hd].
  - destruct (Hc Hd) as [Hw Hv].
    assert (Es : samples_of d ((now, stat) :: calls) =
                 (AvgRtt (Statistic stat), PacketsRecv (Statistic stat))
                   :: samples_of d calls).
    { unfold samples_of. rewrite filter_cons. simpl. by rewrite decide_True. }
    rewrite Es in HT, HB |- *. rewrite total_weight_cons in HT, HB. simpl in HT, HB.
    assert (HB0 : 0 <= B) by lia.
    destruct (Add_avg_step s now stat Hd Hinv Hw Hv) as (s1 & Hs1 & Hst & Hinv1);
      [lia | nia |].
    destruct (IH s1 Hall Hinv1) as (s' & Hs' & Hst' & _).
    { rewrite Hst. simpl. lia. }
    { rewrite Hst. simpl. replace (_ + _ + _) with
        ((avg_state s d).2 + (PacketsRecv (Statistic stat)
           + total_weight (samples_of d calls))) by lia. done. }
    exists s'. simpl. rewrite Hs1. simpl. split; [done|]. split.
    + by rewrite Hst', Hst.
    + intros _ _.
      destruct (Add_lookup_eq _ _ _ _ Hs1) as (r1 & Hl & _). rewrite Hd in Hl.
      eapply AddAll_keeps_record; eauto.
  - assert (Es : samples_of d ((now, stat) :: calls) = samples_of d calls).
    { unfold samples_of. rewrite filter_cons. simpl. by rewrite decide_False. }
    rewrite Es in HT, HB |- *.
    destruct (Add_is_Some s now stat Hrecv) as [s1 Hs1].
    pose proof (Add_avg_other s now stat s1 Hd Hs1) as Hst.
    destruct (IH s1 Hall) as (s' & Hs' & Hst' & Hex); try by rewrite Hst.
    exists s'. simpl. rewrite Hs1. simpl. split; [done|]. split.
    + by rewrite Hst', Hst.
    + intros Hnone. apply Hex. by rewrite (Add_lookup_ne _ _ _ _ d Hs1).
Qed.

Lemma spec_mean_snoc samples sample :
  spec_mean (samples ++ [sample]) = spec_step (spec_mean samples) sample.
Proof. unfold spec_mean. by rewrite foldl_app. Qed.

Lemma total_weight_snoc samples sample :
  total_weight (samples ++ [sample]) = total_weight samples + sample.2.
Proof.
  induction samples as [|x samples IH].
  - unfold total_weight. simpl. lia.
  - rewrite <- app_comm_cons, !total_weight_cons, IH. lia.
Qed.

Lemma weighted_sum_snoc samples sample :
  weighted_sum (samples ++ [sample]) = weighted_sum samples + sample.1 * sample.2.
Proof.
  unfold weighted_sum. induction samples as [|x samples IH]; simpl; lia.
Qed.

Lemma spec_mean_weight samples : (spec_mean samples).2 = total_weight samples.
Proof.
  induction samples as [|x samples IH] using rev_ind; [done|].
  rewrite spec_mean_snoc, total_weight_snoc. unfold spec_step. simpl. lia.
Qed.

(** The rule against the exact weighted mean: each merge truncates once, so
    the mean times the weight falls short of the exact sum by less than the
    weight per merge, and never exceeds it. *)
Lemma spec_mean_tolerance samples :
  Forall (fun sample => 0 <= sample.1 /\ 0 < sample.2) samples ->
  let m := (spec_mean samples).1 in
  let W := total_weight samples in
  0 <= m /\ 0 <= W /\
  weighted_sum samples - Z.of_nat (length samples) * W <= m * W <= weighted_sum samples.
Proof.
  induction samples as [|[v w] samples IH] using rev_ind; intros Hall.
  { cbn. lia. }
  apply Forall_app in Hall as [Hall Hx]. apply Forall_singleton in Hx as [Hv Hw].
  simpl in Hv, Hw. specialize (IH Hall). cbv zeta in IH |- *.
  destruct IH as (Hm & HW & Hlo & Hhi).
  rewrite spec_mean_snoc, total_weight_snoc, weighted_sum_snoc, length_app.
  unfold spec_step. rewrite spec_mean_weight. simpl.
  set (m := (spec_mean samples).1) in *. set (W := total_weight samples) in *.
  set (S := weighted_sum samples) in *.
  set (n := Z.of_nat (length samples)) in *.
  assert (Hn : 0 <= n) by lia.
  replace (Z.of_nat (length samples + 1)) with (n + 1) by lia.
  unfold spec_merge. destruct (Z.eqb_spec W 0) as [HW0|HW0].
  - rewrite HW0 in *. nia.
  - assert (Hq := Z.quot_rem' (m * W + v * w) (W + w)).
    assert (Hr : 0 <= Z.rem (m * W + v * w) (W + w) < W + w)
      by (apply Z.rem_bound_pos; nia).
    set (q := (m * W + v * w) ÷ (W + w)) in *.
    assert (0 <= q) by (apply Z.quot_pos; nia).
    repeat split; nia.
Qed.

End RunningAverage.

(** C1. For every run of [Add] calls whose samples for one destination have
    received packets (and whose values and weights stay within the 64-bit
    range), the record's [avgRtt] is the mean the incremental rule computes:
    the first sample's value, then [(m*W + v*w) / (W + w)] with [W] the
    packets received so far; its weight is the packets received in total, and
    it is the exact packet-weighted mean up to one truncation per merge.  The
    specification's two-result scenario ends with 6 sent, 5 received and an
    average of 18ms. *)
Theorem running_average_is_weighted_mean :
  (forall (d : string) (B : Z) (s : PingStatsStore) (calls : list (Time * PingStatistic)),
     summaryData s !! d = None ->
     Forall (contributes d B) calls ->
     samples_of d calls <> [] ->
     total_weight (samples_of d calls) <= Int64.max_int ->
     B * total_weight (samples_of d calls) <= Int64.max_int ->
     exists s' r,
       AddAll s calls = Some s' /\ summaryData s' !! d = Some r /\
       sAvgRtt r = (spec_mean (samples_of d calls)).1 /\
       sTotalRecv r = total_weight (samples_of d calls) /\
       weighted_sum (samples_of d calls)
         - Z.of_nat (length (samples_of d calls)) * sTotalRecv r
         <= sAvgRtt r * sTotalRecv r <= weighted_sum (samples_of d calls)) /\
  (exists s' r,
     AddAll (NewPingStatsStore 25) scenario = Some s' /\
     summaryData s' !! "1.1.1.1" = Some r /\
     sTotalSent r = 6 /\ sTotalRecv r = 5 /\
     sMinRtt r = 8 * Millisecond /\ sMaxRtt r = 30 * Millisecond /\
     sAvgRtt r = 18 * Millisecond).
Proof.
  split.
  - intros d B s calls Hnone Hall Hne HT HB.
    assert (Hst : avg_state s d = (0, 0)) by (unfold avg_state; by rewrite Hnone).
    destruct (AddAll_avg d B calls s Hall) as (s' & Hs' & Havg & Hex).
    + rewrite Hst. unfold avg_inv. simpl.
      assert (0 <= B); [|lia].
      destruct (samples_of d calls) as [|x l] eqn:E; [done|].
      assert (Hin : x ∈ samples_of d calls) by (rewrite E; left).
      unfold samples_of in Hin. apply list_elem_of_fmap in Hin as (c & _ & Hc).
      apply list_elem_of_filter in Hc as [Hd Hc].
      rewrite Forall_forall in Hall. destruct (Hall c Hc) as [_ Hcd].
      destruct (Hcd Hd) as [_ ?]. lia.
    + by rewrite Hst.
    + by rewrite Hst.
    + destruct (Hex Hnone Hne) as [r Hr]. exists s', r.
      rewrite Hst in Havg. fold (spec_mean (samples_of d calls)) in Havg.
      unfold avg_state in Havg. rewrite Hr in Havg.
      assert (Hm : sAvgRtt r = (spec_mean (samples_of d calls)).1) by by rewrite <- Havg.
      assert (HW : sTotalRecv r = total_weight (samples_of d calls))
        by (by rewrite <- spec_mean_weight, <- Havg).
      assert (Hpos : Forall (fun sample => 0 <= sample.1 /\ 0 < sample.2) (samples_of d calls)).
      { unfold samples_of. apply Forall_fmap, Forall_forall. intros c Hc.
        apply list_elem_of_filter in Hc as [Hd Hc]. rewrite Forall_forall in Hall.
        destruct (Hall c Hc) as [_ Hcd]. destruct (Hcd Hd) as [? [? _]]. by simpl. }
      destruct (spec_mean_tolerance _ Hpos) as (_ & _ & Htol).
      do 4 (split; [done|]). rewrite Hm, HW. exact Htol.
  - eexists _, _. split; [vm_compute; reflexivity|].
    split; [vm_compute; reflexivity|]. by vm_compute.
Qed.

(** The general statement at the scenario: the rule gives the average 18ms
    and the weight 5 that the store holds. *)
Lemma running_average_scenario :
  exists s' r,
    AddAll (NewPingStatsStore 25) scenario = Some s' /\
    summaryData s' !! "1.1.1.1" = Some r /\
    sAvgRtt r = 18 * Millisecond /\ sTotalRecv r = 5.
Proof.
  destruct (proj1 running_average_is_weighted_mean "1.1.1.1" (20 * Millisecond)
              (NewPingStatsStore 25) scenario)
    as (s' & r & Hs' & Hr & Havg & Hrecv & _).
  - reflexivity.
  - unfold scenario, contributes, firstStat, secondStat, mkStat, Millisecond.
    repeat (apply Forall_cons; split); [..|apply Forall_nil]; simpl; lia.
  - vm_compute. discriminate.
  - vm_compute. discriminate.
  - vm_compute. discriminate.
  - exists s', r. split; [exact Hs'|]. split; [exact Hr|].
    split; [rewrite Havg|rewrite Hrecv]; reflexivity.
Defined.

(** ** [totalRecv <= totalSent] *)

Lemma sent_total_cons c calls :
  sent_total (c :: calls) = PacketsSent (Statistic c.2) + sent_total calls.
Proof. reflexivity. Qed.

Lemma sent_total_nonneg calls : Forall sample_ok calls -> 0 <= sent_total calls.
Proof.
  induction 1 as [|c calls Hc _ IH]; [done|].
  rewrite sent_total_cons. unfold sample_ok in Hc. lia.
Qed.

Lemma sent_total_take calls i :
  Forall sample_ok calls -> sent_total (take i calls) <= sent_total calls.
Proof.
  intros Hall. revert i. induction Hall as [|c calls Hc Hall IH]; intros [|i]; try done.
  - change (take 0 (c :: calls)) with (@nil (Time * PingStatistic)).
    rewrite sent_total_cons. pose proof (sent_total_nonneg calls Hall).
    unfold sample_ok in Hc. change (sent_total []) with 0. lia.
  - change (take (S i) (c :: calls)) with (c :: take i calls).
    rewrite !sent_total_cons. specialize (IH i). lia.
Qed.

Lemma Add_counters s now stat U :
  0 <= U -> counters_within U s -> sample_ok (now, stat) ->
  U + PacketsSent (Statistic stat) <= Int64.max_int ->
  exists s', Add s now stat = Some s' /\
             counters_within (U + PacketsSent (Statistic stat)) s'.
Proof.
  intros HU Hs Hok Hmax. unfold sample_ok in Hok. simpl in Hok.
  destruct (Add_is_Some s now stat) as [s' Hs']; [lia|].
  exists s'. split; [done|]. intros k r Hk.
  destruct (decide (k = DecIp stat)) as [->|Hne].
  - destruct (Add_lookup_eq _ _ _ _ Hs') as (r' & Hl & Hu).
    rewrite Hl in Hk. injection Hk as ->.
    apply updateSummary_inv in Hu as (_ & _ & _ & _ & _ & _ & Hsent & Hrecv & _).
    cbv zeta in Hrecv.
    assert (Hold : 0 <= sTotalRecv (lookupOrCreate s stat) <= sTotalSent (lookupOrCreate s stat)
                   /\ sTotalSent (lookupOrCreate s stat) <= U).
    { unfold lookupOrCreate. destruct (summaryData s !! DecIp stat) as [r0|] eqn:E.
      - by apply (Hs (DecIp stat)).
      - simpl. lia. }
    assert (Hmx : Int64.max_int = 2 ^ 63 - 1) by reflexivity.
    rewrite Int64Facts.add_exact in Hsent, Hrecv
      by (unfold Int64.in_range, Int64.min_int; lia).
    lia.
  - rewrite (Add_lookup_ne _ _ _ _ k Hs' Hne) in Hk.
    destruct (Hs k r Hk). lia.
Qed.

Lemma AddAll_counters calls : forall s U,
  0 <= U -> counters_within U s -> Forall sample_ok calls ->
  U + sent_total calls <= Int64.max_int ->
  exists s', AddAll s calls = Some s' /\ counters_within (U + sent_total calls) s'.
Proof.
  induction calls as [|[now stat] calls IH]; intros s U HU Hs Hall Hmax.
  - exists s. split; [done|]. change (sent_total []) with 0.
    by replace (U + 0) with U by lia.
  - apply Forall_cons in Hall as [Hok Hall]. rewrite sent_total_cons in Hmax |- *.
    simpl in Hmax |- *.
    pose proof (sent_total_nonneg calls Hall) as Hnn.
    assert (Hok' := Hok). unfold sample_ok in Hok'. simpl in Hok'.
    destruct (Add_counters s now stat U HU Hs Hok) as (s1 & Hs1 & Hc1); [lia|].
    destruct (IH s1 (U + PacketsSent (Statistic stat))) as (s' & Hs' & Hc'); try done; try lia.
    exists s'. rewrite Hs1. simpl. split; [done|].
    by replace (U + (PacketsSent (Statistic stat) + sent_total calls))
      with (U + PacketsSent (Statistic stat) + sent_total calls) by lia.
Qed.

(** C2. Starting from a fresh store, after every [Add] call of a run whose
    samples have [0 <= PacketsRecv <= PacketsSent] (the packets sent in total
    fitting in an [int]), every record has [totalRecv <= totalSent]. *)
Theorem recv_le_sent_after_every_Add :
  forall (maxRecent : Z) (calls : list (Time * PingStatistic)) (i : nat),
    Forall sample_ok calls ->
    sent_total calls <= Int64.max_int ->
    exists s', AddAll (NewPingStatsStore maxRecent) (take i calls) = Some s' /\
               recv_le_sent s'.
Proof.
  intros maxRecent calls i Hall Hmax.
  destruct (AddAll_counters (take i calls) (NewPingStatsStore maxRecent) 0) as (s' & Hs' & Hc).
  - done.
  - intros k r Hk. simpl in Hk. by rewrite lookup_empty in Hk.
  - by apply Forall_take.
  - pose proof (sent_total_take calls i Hall). lia.
  - exists s'. split; [done|]. intros k r Hk. destruct (Hc k r Hk). lia.
Qed.

(** The invariant after both calls of the scenario. *)
Lemma recv_le_sent_scenario :
  exists s', AddAll (NewPingStatsStore 25) (take 2 scenario) = Some s' /\ recv_le_sent s'.
Proof.
  apply (recv_le_sent_after_every_Add 25 scenario 2).
  - unfold scenario, sample_ok, firstStat, secondStat, mkStat.
    repeat (apply Forall_cons; split); [..|apply Forall_nil]; simpl; lia.
  - vm_compute. discriminate.
Defined.

(** ** Results with a loss of 100 *)

(** C3. A result whose loss equals 100 leaves the store as it is (no record
    created, none changed, the recent history untouched) and still advances
    the progress counter by one. *)
Theorem full_loss_is_counted_not_stored :
  forall (store : PingStatsStore) (processedCount : Z) (now : Time) (stats : PingStatistic),
    (PacketLoss (Statistic stats) =? 100)%float = true ->
    Int64.in_range (processedCount + 1) ->
    handleResult store processedCount now stats = Some (store, processedCount + 1).
Proof.
  intros store n now stats Hloss Hn. unfold handleResult.
  rewrite Hloss. simpl. by rewrite Int64Facts.add_exact.
Qed.

(** The loop as a whole: the store is fed exactly the results whose loss is
    not 100, in order, and every result is counted. *)
Lemma handleResults_aggregated received : forall store n,
  Int64.in_range n -> Int64.in_range (n + Z.of_nat (length received)) ->
  handleResults store n received =
    (store' ← AddAll store (aggregated received);
     Some (store', n + Z.of_nat (length received))).
Proof.
  induction received as [|[now stats] received IH]; intros store n Hn Hlen.
  - cbn. do 2 f_equal. lia.
  - assert (Hn1 : Int64.in_range (n + 1)).
    { unfold Int64.in_range in *. simpl length in Hlen. lia. }
    assert (Hlen1 : Int64.in_range (n + 1 + Z.of_nat (length received))).
    { simpl length in Hlen.
      by replace (n + 1 + Z.of_nat (length received))
        with (n + Z.of_nat (S (length received))) by lia. }
    assert (Hcount : n + 1 + Z.of_nat (length received)
                     = n + Z.of_nat (length ((now, stats) :: received)))
      by (simpl length; lia).
    cbn [handleResults]. unfold handleResult. rewrite Int64Facts.add_exact by done.
    unfold aggregated. cbn [List.filter snd]. fold (aggregated received).
    destruct (PacketLoss (Statistic stats) =? 100)%float; cbn [negb mbind option_bind].
    + rewrite IH by done. by rewrite Hcount.
    + cbn [AddAll]. destruct (Add store now stats) as [s1|]; cbn [mbind option_bind]; [|done].
      rewrite IH by done. by rewrite Hcount.
Qed.

(** A fully lost result handled after the scenario. *)
Lemma full_loss_example :
  handleResult (NewPingStatsStore 25) 7 3 lostStat = Some (NewPingStatsStore 25, 8).
Proof.
  apply (full_loss_is_counted_not_stored (NewPingStatsStore 25) 7 3 lostStat).
  - reflexivity.
  - unfold Int64.in_range. vm_compute. split; discriminate.
Defined.

(** ** Minimum and maximum round-trip times *)

Lemma updateSummary_min_max now sd sum r' :
  updateSummary now sd sum = Some r' ->
  sMinRtt r' = (if MinRtt sd >? 0 then Z.min (sMinRtt sum) (MinRtt sd) else sMinRtt sum) /\
  sMaxRtt r' = Z.max (sMaxRtt sum) (MaxRtt sd).
Proof.
  intros H. apply updateSummary_inv in H as (_ & _ & _ & _ & _ & _ & _ & _ & Hmin & Hmax & _).
  rewrite Hmin, Hmax. split.
  - destruct (Z.gtb_spec (MinRtt sd) 0); simpl; [|done].
    destruct (Z.ltb_spec (MinRtt sd) (sMinRtt sum)); lia.
  - destruct (Z.gtb_spec (MaxRtt sd) (sMaxRtt sum)); lia.
Qed.

Lemma Add_min_max_monotone s now stat s' k r :
  Add s now stat = Some s' -> summaryData s !! k = Some r ->
  exists r', summaryData s' !! k = Some r' /\
             sMinRtt r' <= sMinRtt r /\ sMaxRtt r <= sMaxRtt r'.
Proof.
  intros Hs' Hk. destruct (decide (k = DecIp stat)) as [->|Hne].
  - destruct (Add_lookup_eq _ _ _ _ Hs') as (r' & Hl & Hu).
    exists r'. split; [done|].
    apply updateSummary_min_max in Hu as [Hmin Hmax].
    unfold lookupOrCreate in Hmin, Hmax. rewrite Hk in Hmin, Hmax.
    rewrite Hmin, Hmax. destruct (MinRtt (Statistic stat) >? 0); lia.
  - exists r. rewrite (Add_lookup_ne _ _ _ _ k Hs' Hne). by repeat split.
Qed.

(** C5. One [Add] sets the record's [minRtt] to the smaller of the old value
    and the sample's when the sample's is positive, and leaves it alone
    otherwise; it sets [maxRtt] to the larger of the two.  So across any run
    of calls an existing record's [minRtt] never grows and its [maxRtt] never
    shrinks. *)
Theorem min_max_rtt_monotone :
  (forall (s : PingStatsStore) (now : Time) (stat : PingStatistic) (s' : PingStatsStore),
     Add s now stat = Some s' ->
     exists r',
       summaryData s' !! DecIp stat = Some r' /\
       sMinRtt r' =
         (if MinRtt (Statistic stat) >? 0
          then Z.min (sMinRtt (lookupOrCreate s stat)) (MinRtt (Statistic stat))
          else sMinRtt (lookupOrCreate s stat)) /\
       sMaxRtt r' = Z.max (sMaxRtt (lookupOrCreate s stat)) (MaxRtt (Statistic stat))) /\
  (forall (calls : list (Time * PingStatistic)) (s s' : PingStatsStore)
          (k : string) (r : SummaryStatistic),
     AddAll s calls = Some s' -> summaryData s !! k = Some r ->
     exists r', summaryData s' !! k = Some r' /\
                sMinRtt r' <= sMinRtt r /\ sMaxRtt r <= sMaxRtt r').
Proof.
  split.
  - intros s now stat s' Hs'.
    destruct (Add_lookup_eq _ _ _ _ Hs') as (r' & Hl & Hu).
    exists r'. split; [done|]. by apply updateSummary_min_max in Hu.
  - induction calls as [|[now stat] calls IH]; intros s s' k r Hs' Hk; simpl in Hs'.
    + injection Hs' as <-. exists r. by repeat split.
    + destruct (Add s now stat) as [s1|] eqn:E; simpl in Hs'; [|discriminate].
      destruct (Add_min_max_monotone _ _ _ _ _ _ E Hk) as (r1 & Hk1 & Hmin1 & Hmax1).
      destruct (IH _ _ _ _ Hs' Hk1) as (r' & Hk' & Hmin' & Hmax').
      exists r'. split; [done|]. lia.
Qed.

(** The second result of the scenario lowers the minimum from 10ms to 8ms
    and keeps the maximum of 30ms. *)
Lemma min_max_rtt_scenario :
  exists r', summaryData afterBoth !! "1.1.1.1" = Some r' /\
             sMinRtt r' = 8 * Millisecond /\ sMaxRtt r' = 30 * Millisecond.
Proof.
  destruct (proj1 min_max_rtt_monotone afterFirst 2 secondStat afterBoth)
    as (r' & Hl & Hmin & Hmax).
  - vm_compute. reflexivity.
  - exists r'. split; [exact Hl|].
    split; [rewrite Hmin | rewrite Hmax]; vm_compute; reflexivity.
Defined.

(** ** The fields fixed at creation *)

Lemma Add_same_creation s now stat s' k r :
  Add s now stat = Some s' -> summaryData s !! k = Some r ->
  exists r', summaryData s' !! k = Some r' /\ same_creation r r'.
Proof.
  intros Hs' Hk. destruct (decide (k = DecIp stat)) as [->|Hne].
  - destruct (Add_lookup_eq _ _ _ _ Hs') as (r' & Hl & Hu).
    exists r'. split; [done|].
    apply updateSummary_inv in Hu as (H1 & H2 & H3 & H4 & H5 & _).
    unfold lookupOrCreate in H1, H2, H3, H4, H5. rewrite Hk in H1, H2, H3, H4, H5.
    by repeat split.
  - exists r. rewrite (Add_lookup_ne _ _ _ _ k Hs' Hne). by repeat split.
Qed.

Lemma Add_created s now stat s' :
  Add s now stat = Some s' -> summaryData s !! DecIp stat = None ->
  exists r', summaryData s' !! DecIp stat = Some r' /\ created_from stat r'.
Proof.
  intros Hs' Hk. destruct (Add_lookup_eq _ _ _ _ Hs') as (r' & Hl & Hu).
  exists r'. split; [done|].
  apply updateSummary_inv in Hu as (H1 & H2 & H3 & H4 & H5 & _).
  unfold lookupOrCreate in H1, H2, H3, H4, H5. rewrite Hk in H1, H2, H3, H4, H5.
  by repeat split.
Qed.

Lemma same_creation_trans r1 r2 r3 :
  same_creation r1 r2 -> same_creation r2 r3 -> same_creation r1 r3.
Proof.
  intros (?&?&?&?&?) (?&?&?&?&?). repeat split; congruence.
Qed.

Lemma created_from_same stat r r' :
  created_from stat r -> same_creation r r' -> created_from stat r'.
Proof.
  intros (?&?&?&?&?) (?&?&?&?&?). repeat split; congruence.
Qed.

(** No later call rewrites the fields of an existing record. *)
Lemma AddAll_same_creation calls : forall s s' k r,
  AddAll s calls = Some s' -> summaryData s !! k = Some r ->
  exists r', summaryData s' !! k = Some r' /\ same_creation r r'.
Proof.
  induction calls as [|[now stat] calls IH]; intros s s' k r Hs' Hk; simpl in Hs'.
  - injection Hs' as <-. exists r. by repeat split.
  - destruct (Add s now stat) as [s1|] eqn:E; simpl in Hs'; [|discriminate].
    destruct (Add_same_creation _ _ _ _ _ _ E Hk) as (r1 & Hk1 & H1).
    destruct (IH _ _ _ _ Hs' Hk1) as (r' & Hk' & H').
    exists r'. split; [done|]. by eapply same_creation_trans.
Qed.

(** A record holds what the first result for its destination gave it. *)
Lemma AddAll_created_from_first calls : forall s s' d r,
  summaryData s !! d = None -> AddAll s calls = Some s' ->
  summaryData s' !! d = Some r ->
  exists first, firstFor d calls = Some first /\ DecIp first = d /\ created_from first r.
Proof.
  induction calls as [|[now stat] calls IH]; intros s s' d r Hnone Hs' Hr; simpl in Hs'.
  - injection Hs' as <-. congruence.
  - destruct (Add s now stat) as [s1|] eqn:E; simpl in Hs'; [|discriminate].
    unfold firstFor. cbn [List.find snd].
    destruct (String.eqb_spec (DecIp stat) d) as [Hd|Hd].
    + exists stat. split; [done|]. split; [done|]. subst d.
      destruct (Add_created _ _ _ _ E Hnone) as (r1 & Hk1 & Hc1).
      destruct (AddAll_same_creation _ _ _ _ _ Hs' Hk1) as (r' & Hk' & Hsame).
      rewrite Hr in Hk'. injection Hk' as <-. by eapply created_from_same.
    + apply (IH s1 s' d r); [|done..].
      rewrite (Add_lookup_ne _ _ _ _ d E); [done|congruence].
Qed.

(** C7. The region and ISP of a record are those of the first result for its
    destination, the one that created it; no later [Add] for the destination
    changes them, whatever region or ISP the later results carry. *)
Theorem region_isp_fixed_at_creation :
  (forall (calls : list (Time * PingStatistic)) (s s' : PingStatsStore)
          (d : string) (r : SummaryStatistic),
     summaryData s !! d = None -> AddAll s calls = Some s' ->
     summaryData s' !! d = Some r ->
     exists first, firstFor d calls = Some first /\
                   sRegion r = Region first /\ sIsp r = Isp first) /\
  (forall (calls : list (Time * PingStatistic)) (s s' : PingStatsStore)
          (d : string) (r : SummaryStatistic),
     summaryData s !! d = Some r -> AddAll s calls = Some s' ->
     exists r', summaryData s' !! d = Some r' /\
                sRegion r' = sRegion r /\ sIsp r' = sIsp r).
Proof.
  split.
  - intros calls s s' d r Hnone Hs' Hr.
    destruct (AddAll_created_from_first calls s s' d r Hnone Hs' Hr)
      as (first & Hf & _ & (_ & Hreg & Hisp & _)).
    by exists first.
  - intros calls s s' d r Hr Hs'.
    destruct (AddAll_same_creation calls s s' d r Hs' Hr) as (r' & Hr' & (_ & Hreg & Hisp & _)).
    by exists r'.
Qed.

(** The destination probed again under another region and ISP keeps the
    first ones. *)
Lemma region_isp_retagged :
  exists r', summaryData afterRetagged !! "1.1.1.1" = Some r' /\
             sRegion r' = "bj" /\ sIsp r' = "dx".
Proof.
  destruct (proj2 region_isp_fixed_at_creation [(2, retaggedStat)] afterFirst
              afterRetagged "1.1.1.1" (default (newSummary firstStat)
                                          (summaryData afterFirst !! "1.1.1.1")))
    as (r' & Hl & Hreg & Hisp).
  - vm_compute. reflexivity.
  - vm_compute. reflexivity.
  - exists r'. split; [exact Hl|].
    split; [rewrite Hreg | rewrite Hisp]; vm_compute; reflexivity.
Defined.

(** ** Comparing [float64] values *)

Lemma SFltb_lex x y :
  sf_is_nan x = false -> sf_is_nan y = false ->
  SFltb x y = true <-> lex_lt (sf_key x) (sf_key y).
Proof.
  unfold SFltb, lex_lt.
  destruct x as [sx|sx| |sx mx ex], y as [sy|sy| |sy my ey]; try discriminate; intros _ _;
    try destruct sx; try destruct sy; simpl;
    try (split; [discriminate | lia]);
    try (split; [intros _; lia | reflexivity]).
  all: change (Pos.compare_cont Eq mx my) with (Pos.compare mx my).
  all: destruct (Z.compare_spec ex ey); simpl;
    try (split; [discriminate | lia]); try (split; [intros _; lia | reflexivity]).
  all: destruct (Pos.compare_spec mx my); simpl;
    try (split; [discriminate | lia]); try (split; [intros _; lia | reflexivity]).
Qed.

Lemma SFltb_true_not_nan x y :
  SFltb x y = true -> sf_is_nan x = false /\ sf_is_nan y = false.
Proof.
  unfold SFltb. destruct x, y; simpl; try discriminate; done.
Qed.

Lemma SFeqb_refl x : sf_is_nan x = false -> SFeqb x x = true.
Proof.
  unfold SFeqb. destruct x as [s|s| |s m e]; try discriminate; intros _; simpl.
  - done.
  - by destruct s.
  - rewrite Z.compare_refl.
    change (Pos.compare_cont Eq m m) with (Pos.compare m m).
    rewrite Pos.compare_refl. by destruct s.
Qed.

Lemma is_nan_spec x : PrimFloat.is_nan x = false <-> sf_is_nan (Prim2SF x) = false.
Proof.
  unfold PrimFloat.is_nan. rewrite FloatAxioms.eqb_spec. split.
  - intros H. destruct (Prim2SF x); try done.
  - intros H. by rewrite SFeqb_refl.
Qed.

Lemma float_ltb_trans (x y z : float) :
  (x <? y)%float = true -> (y <? z)%float = true -> (x <? z)%float = true.
Proof.
  rewrite !FloatAxioms.ltb_spec. intros Hxy Hyz.
  destruct (SFltb_true_not_nan _ _ Hxy) as [Hx Hy].
  destruct (SFltb_true_not_nan _ _ Hyz) as [_ Hz].
  apply SFltb_lex in Hxy, Hyz; try done. apply SFltb_lex; try done.
  unfold lex_lt in *. lia.
Qed.

Lemma float_ltb_asym (x y : float) :
  (x <? y)%float = true -> (y <? x)%float = false.
Proof.
  rewrite !FloatAxioms.ltb_spec. intros Hxy.
  destruct (SFltb_true_not_nan _ _ Hxy) as [Hx Hy].
  apply SFltb_lex in Hxy; try done.
  destruct (SFltb (Prim2SF y) (Prim2SF x)) eqn:E; [|done].
  apply SFltb_lex in E; try done. unfold lex_lt in *. lia.
Qed.

Lemma float_ltb_negtrans (x y z : float) :
  PrimFloat.is_nan x = false -> PrimFloat.is_nan y = false -> PrimFloat.is_nan z = false ->
  (x <? y)%float = false -> (y <? z)%float = false -> (x <? z)%float = false.
Proof.
  rewrite !FloatAxioms.ltb_spec. intros Hx Hy Hz Hxy Hyz.
  apply is_nan_spec in Hx, Hy, Hz.
  destruct (SFltb (Prim2SF x) (Prim2SF z)) eqn:E; [|done].
  apply SFltb_lex in E; try done.
  assert (Hxy' : ~ lex_lt (sf_key (Prim2SF x)) (sf_key (Prim2SF y))).
  { intros H. apply SFltb_lex in H; try done. congruence. }
  assert (Hyz' : ~ lex_lt (sf_key (Prim2SF y)) (sf_key (Prim2SF z))).
  { intros H. apply SFltb_lex in H; try done. congruence. }
  unfold lex_lt in *. lia.
Qed.

Lemma float_ltb_not_nan (x y : float) :
  (x <? y)%float = true -> PrimFloat.is_nan y = false.
Proof.
  rewrite FloatAxioms.ltb_spec. intros H. apply is_nan_spec.
  by destruct (SFltb_true_not_nan _ _ H).
Qed.

Lemma SFleb_lex x y :
  sf_is_nan x = false -> sf_is_nan y = false ->
  SFleb x y = true <-> ~ lex_lt (sf_key y) (sf_key x).
Proof.
  unfold SFleb, lex_lt.
  destruct x as [sx|sx| |sx mx ex], y as [sy|sy| |sy my ey]; try discriminate; intros _ _;
    try destruct sx; try destruct sy; simpl;
    try (split; [discriminate | lia]);
    try (split; [intros _; lia | reflexivity]).
  all: change (Pos.compare_cont Eq mx my) with (Pos.compare mx my).
  all: destruct (Z.compare_spec ex ey); simpl;
    try (split; [discriminate | lia]); try (split; [intros _; lia | reflexivity]).
  all: destruct (Pos.compare_spec mx my); simpl;
    try (split; [discriminate | lia]); try (split; [intros _; lia | reflexivity]).
Qed.

Lemma SFeqb_lex x y :
  sf_is_nan x = false -> sf_is_nan y = false ->
  SFeqb x y = true <-> ~ lex_lt (sf_key x) (sf_key y) /\ ~ lex_lt (sf_key y) (sf_key x).
Proof.
  unfold SFeqb, lex_lt.
  destruct x as [sx|sx| |sx mx ex], y as [sy|sy| |sy my ey]; try discriminate; intros _ _;
    try destruct sx; try destruct sy; simpl;
    try (split; [discriminate | lia]);
    try (split; [intros _; lia | reflexivity]).
  all: change (Pos.compare_cont Eq mx my) with (Pos.compare mx my).
  all: destruct (Z.compare_spec ex ey); simpl;
    try (split; [discriminate | lia]); try (split; [intros _; lia | reflexivity]).
  all: destruct (Pos.compare_spec mx my); simpl;
    try (split; [discriminate | lia]); try (split; [intros _; lia | reflexivity]).
Qed.

(** Away from NaN, [y < x] failing is [x <= y], and failing both ways is
    [x == y]. *)
Lemma float_leb_of_not_ltb (x y : float) :
  PrimFloat.is_nan x = false -> PrimFloat.is_nan y = false ->
  (y <? x)%float = false -> (x <=? y)%float = true.
Proof.
  rewrite FloatAxioms.ltb_spec, FloatAxioms.leb_spec. intros Hx Hy Hlt.
  apply is_nan_spec in Hx, Hy. apply SFleb_lex; try done.
  intros H. apply SFltb_lex in H; try done. congruence.
Qed.

Lemma float_eqb_of_tie (x y : float) :
  PrimFloat.is_nan x = false -> PrimFloat.is_nan y = false ->
  (x <? y)%float = false -> (y <? x)%float = false -> (x =? y)%float = true.
Proof.
  rewrite !FloatAxioms.ltb_spec, FloatAxioms.eqb_spec. intros Hx Hy Hxy Hyx.
  apply is_nan_spec in Hx, Hy. apply SFeqb_lex; try done.
  split; intros H; apply SFltb_lex in H; try done; congruence.
Qed.

(** ** Orderings and sorted lists *)

Lemma StronglySorted_weaken {A} (R R' : A -> A -> Prop) (l : list A) :
  (forall x y, R x y -> R' x y) -> StronglySorted R l -> StronglySorted R' l.
Proof.
  intros HR. induction 1 as [|x l Hl IH Hx]; constructor; [done|].
  eapply Forall_impl; [exact Hx|]. intros y. apply HR.
Qed.

Lemma StronglySorted_weaken_in {A} (R R' : A -> A -> Prop) (l : list A) :
  (forall x y, x ∈ l -> y ∈ l -> R x y -> R' x y) ->
  StronglySorted R l -> StronglySorted R' l.
Proof.
  intros HR Hs. induction Hs as [|x l Hl IH Hx]; constructor.
  - apply IH. intros a b Ha Hb. apply HR; by right.
  - rewrite Forall_forall in *. intros y Hy. apply HR; [by left | by right | by apply Hx].
Qed.

Lemma Forall2_impl_in {A B} (P Q : A -> B -> Prop) (l : list A) (k : list B) :
  (forall x y, x ∈ l -> y ∈ k -> P x y -> Q x y) ->
  Forall2 P l k -> Forall2 Q l k.
Proof.
  intros HPQ H. induction H as [|x y l k Hxy _ IH]; constructor.
  - apply HPQ; [by left | by left | done].
  - apply IH. intros a b Ha Hb. apply HPQ; by right.
Qed.

Section Orderings.

Context {A : Type} (less : A -> A -> bool).

(** The negated comparison is a transitive ordering when the plain one is. *)
Lemma TransitiveOrdering_negb (l : list A) :
  TransitiveOrdering less l -> TransitiveOrdering (fun x y => negb (less x y)) l.
Proof.
  intros [Ht Hn]. split; intros x y z Hx Hy Hz Hxy Hyz.
  - apply negb_true_iff. apply negb_true_iff in Hxy, Hyz. by apply (Hn x y z).
  - apply negb_false_iff. apply negb_false_iff in Hxy, Hyz. by apply (Ht x y z).
Qed.

Lemma TransitiveOrdering_direction (descending : bool) (l : list A) :
  TransitiveOrdering less l ->
  TransitiveOrdering (fun x y => direction descending (less x y)) l.
Proof.
  destruct descending; simpl; [apply TransitiveOrdering_negb | done].
Qed.

Lemma TransitiveOrdering_perm (l l' : list A) :
  l ≡ₚ l' -> TransitiveOrdering less l -> TransitiveOrdering less l'.
Proof.
  intros Hp [Ht Hn]. split; intros x y z Hx Hy Hz;
    rewrite <- Hp in Hx, Hy, Hz; [by apply Ht | by apply Hn].
Qed.

Lemma TransitiveOrdering_subseteq (l l' : list A) :
  l' ⊆ l -> TransitiveOrdering less l -> TransitiveOrdering less l'.
Proof.
  intros Hsub [Ht Hn]. split; intros x y z Hx Hy Hz;
    apply Hsub in Hx, Hy, Hz; [by apply Ht | by apply Hn].
Qed.

Hypothesis less_asym : forall x y, less x y = true -> less y x = false.

(** For a strict comparison, ordered means ascending; for its negation,
    descending. *)
Lemma OrderedBy_ascending (l : list A) :
  OrderedBy (fun x y => direction false (less x y)) l -> Ascending less l.
Proof.
  unfold OrderedBy, Ascending, strictly_before. simpl.
  apply StronglySorted_weaken. intros x y H.
  destruct (less y x) eqn:E; [|done]. by rewrite (less_asym _ _ E) in H.
Qed.

Lemma OrderedBy_descending (l : list A) :
  OrderedBy (fun x y => direction true (less x y)) l -> Descending less l.
Proof.
  unfold OrderedBy, Descending, strictly_before. simpl.
  apply StronglySorted_weaken. intros x y H.
  destruct (less x y) eqn:E; [|done]. by rewrite (less_asym _ _ E) in H.
Qed.

Lemma Descending_reverse (l : list A) : Descending less l -> Ascending less (reverse l).
Proof.
  unfold Descending, Ascending. induction 1 as [|x l Hl IH Hx].
  - rewrite reverse_nil. constructor.
  - rewrite reverse_cons. apply StronglySorted_app. split; [|split].
    + intros y z Hy Hz. apply list_elem_of_singleton in Hz as ->.
      rewrite Forall_forall in Hx. apply Hx. by apply elem_of_reverse.
    + done.
    + repeat constructor.
Qed.

Lemma countBefore_cons x y (l : list A) :
  countBefore less x (y :: l) = ((if less y x then 1 else 0) + countBefore less x l)%nat.
Proof. unfold countBefore. simpl. by destruct (less y x). Qed.

Lemma countBefore_perm x (l l' : list A) :
  l ≡ₚ l' -> countBefore less x l = countBefore less x l'.
Proof.
  intros Hp. unfold countBefore. apply Permutation_length.
  induction Hp; simpl; repeat (destruct (less _ x)); try done.
  - by constructor.
  - by constructor.
  - by etrans.
Qed.

Lemma countBefore_first x (l : list A) :
  Ascending less (x :: l) -> countBefore less x (x :: l) = 0%nat.
Proof.
  intros Hs. apply StronglySorted_inv in Hs as [_ Hx].
  rewrite countBefore_cons.
  assert (Hxx : less x x = false).
  { destruct (less x x) eqn:E; [|done]. by rewrite (less_asym _ _ E) in E. }
  rewrite Hxx. simpl. unfold countBefore.
  induction Hx as [|y l Hy _ IH]; [done|]. simpl. by rewrite Hy.
Qed.

(** Two ascending arrangements of the same elements agree position by
    position up to ties.  The elements live in [U], where [less] is a
    transitive ordering; the arrangements are compared by their counts. *)
Lemma ascending_agree (U : list A) :
  TransitiveOrdering less U ->
  forall l1 l2 : list A,
    l1 ⊆ U -> l2 ⊆ U -> length l1 = length l2 ->
    (forall x, x ∈ U -> countBefore less x l1 = countBefore less x l2) ->
    Ascending less l1 -> Ascending less l2 ->
    Forall2 (tie less) l1 l2.
Proof.
  intros [Ht Hn]. induction l1 as [|h1 t1 IH]; intros [|h2 t2] H1 H2 Hlen Hcnt Hs1 Hs2;
    try discriminate; [constructor|].
  assert (Hh1 : h1 ∈ U) by (apply H1; left).
  assert (Hh2 : h2 ∈ U) by (apply H2; left).
  assert (Htie : tie less h1 h2).
  { split.
    - destruct (less h1 h2) eqn:E; [|done].
      pose proof (Hcnt h2 Hh2) as Hc. rewrite (countBefore_first _ _ Hs2) in Hc.
      rewrite countBefore_cons, E in Hc. lia.
    - destruct (less h2 h1) eqn:E; [|done].
      pose proof (Hcnt h1 Hh1) as Hc. rewrite (countBefore_first _ _ Hs1) in Hc.
      rewrite countBefore_cons, E in Hc. lia. }
  constructor; [done|]. destruct Htie as [H12 H21].
  apply IH.
  - intros x Hx. apply H1. by right.
  - intros x Hx. apply H2. by right.
  - simpl in Hlen. lia.
  - intros x Hx. specialize (Hcnt x Hx). rewrite !countBefore_cons in Hcnt.
    assert (Heq : less h1 x = less h2 x).
    { destruct (less h1 x) eqn:E1, (less h2 x) eqn:E2; try done.
      - by rewrite (Hn h1 h2 x Hh1 Hh2 Hx H12 E2) in E1.
      - by rewrite (Hn h2 h1 x Hh2 Hh1 Hx H21 E1) in E2. }
    rewrite Heq in Hcnt. lia.
  - by apply StronglySorted_inv in Hs1 as [? _].
  - by apply StronglySorted_inv in Hs2 as [? _].
Qed.

End Orderings.

(** ** Go's insertion sort meets the sorter's contract *)

Section InsertionSort.

Context {A : Type} (less : A -> A -> bool).

Lemma insertLeft_perm x (sorted : list A) : insertLeft less x sorted ≡ₚ x :: sorted.
Proof.
  induction sorted as [|y rest IH]; simpl; [done|].
  destruct (less x y); [|done]. rewrite IH. apply Permutation_swap.
Qed.

Lemma foldl_insertLeft_perm (l : list A) : forall sorted,
  foldl (fun sorted x => insertLeft less x sorted) sorted l ≡ₚ sorted ++ l.
Proof.
  induction l as [|x l IH]; intros sorted; simpl.
  - by rewrite app_nil_r.
  - rewrite IH, insertLeft_perm. simpl. apply Permutation_middle.
Qed.

Lemma insertLeft_sorted (U : list A) x (sorted : list A) :
  TransitiveOrdering less U -> x ∈ U -> sorted ⊆ U ->
  sortedLeftwards less sorted -> sortedLeftwards less (insertLeft less x sorted).
Proof.
  intros [Ht Hn] Hx. unfold sortedLeftwards.
  induction sorted as [|y rest IH]; intros Hsub Hs; simpl.
  - repeat constructor.
  - assert (Hy : y ∈ U) by (apply Hsub; left).
    assert (Hrest : rest ⊆ U) by (intros z Hz; apply Hsub; by right).
    apply StronglySorted_inv in Hs as [Hs Hyrest].
    destruct (less x y) eqn:Exy.
    + constructor; [by apply IH|].
      rewrite (insertLeft_perm x rest). constructor; [|done].
      unfold strictly_before. rewrite Exy. by rewrite andb_false_r.
    + constructor; [by constructor|].
      constructor; [unfold strictly_before; by rewrite Exy|].
      rewrite Forall_forall in Hyrest |- *. intros z Hz.
      specialize (Hyrest z Hz). unfold strictly_before in *.
      assert (Hzu : z ∈ U) by by apply Hrest.
      destruct (less x z) eqn:Exz; [|done]. simpl.
      destruct (less z x) eqn:Ezx; [done|]. exfalso.
      destruct (less z y) eqn:Ezy.
      * by rewrite (Ht x z y Hx Hzu Hy Exz Ezy) in Exy.
      * rewrite andb_true_r in Hyrest.
        by rewrite (Hn x y z Hx Hy Hzu Exy Hyrest) in Exz.
Qed.

Lemma sortedLeftwards_reverse (sorted : list A) :
  sortedLeftwards less sorted -> OrderedBy less (reverse sorted).
Proof.
  unfold sortedLeftwards, OrderedBy. induction 1 as [|x l Hl IH Hx].
  - rewrite reverse_nil. constructor.
  - rewrite reverse_cons. apply StronglySorted_app. split; [|split].
    + intros y z Hy Hz. apply list_elem_of_singleton in Hz as ->.
      rewrite Forall_forall in Hx. apply Hx. by apply elem_of_reverse.
    + done.
    + repeat constructor.
Qed.

Lemma foldl_insertLeft_sorted (U : list A) (l : list A) : forall sorted,
  TransitiveOrdering less U -> l ⊆ U -> sorted ⊆ U -> sortedLeftwards less sorted ->
  sortedLeftwards less (foldl (fun sorted x => insertLeft less x sorted) sorted l).
Proof.
  induction l as [|x l IH]; intros sorted HU Hl Hsub Hs; simpl; [done|].
  assert (Hx : x ∈ U) by (apply Hl; left).
  apply IH; [done| | |].
  - intros z Hz. apply Hl. by right.
  - intros z Hz. rewrite insertLeft_perm in Hz.
    apply elem_of_cons in Hz as [->|Hz]; [done | by apply Hsub].
  - by apply (insertLeft_sorted U).
Qed.

End InsertionSort.

Lemma insertionSort_func_SortSlice : SortSlice insertionSort_func.
Proof.
  intros A less l. unfold insertionSort_func. split.
  - by rewrite reverse_Permutation, foldl_insertLeft_perm.
  - intros HT. apply sortedLeftwards_reverse.
    apply (foldl_insertLeft_sorted less l); [done..| |constructor].
    intros z Hz. by apply elem_of_nil in Hz.
Qed.

(** ** Visiting a map *)

Lemma copySummary_id v : copySummary v = v.
Proof. by destruct v. Qed.

Lemma fmap_copySummary (l : list SummaryStatistic) : copySummary <$> l = l.
Proof.
  induction l as [|v l IH]; [done|]. by rewrite fmap_cons, copySummary_id, IH.
Qed.

Lemma rangeValues_of_entries {V} (m : gmap string V) (entries : list (string * V)) :
  (forall k v, (k, v) ∈ entries -> m !! k = Some v) ->
  rangeValues m entries.*1 = entries.*2.
Proof.
  unfold rangeValues. induction entries as [|[k v] entries IH]; intros H; [done|].
  simpl. rewrite (H k v) by left. f_equal. apply IH.
  intros k' v' Hin. apply H. by right.
Qed.

(** Whatever the order of the visit, the values met are the map's. *)
Lemma rangeValues_perm {V} (m : gmap string V) (order : list string) :
  RangeOrder m order -> rangeValues m order ≡ₚ (map_to_list m).*2.
Proof.
  unfold RangeOrder. intros Hp.
  rewrite <- (rangeValues_of_entries m (map_to_list m)).
  - unfold rangeValues. by rewrite Hp.
  - intros k v. apply elem_of_map_to_list.
Qed.

Lemma elem_of_rangeValues {V} (m : gmap string V) (order : list string) (x : V) :
  x ∈ rangeValues m order -> exists k, m !! k = Some x.
Proof.
  unfold rangeValues. intros H. apply list_elem_of_omap in H as (k & _ & Hk). eauto.
Qed.

Lemma elem_of_map_values {V} (m : gmap string V) (x : V) :
  x ∈ (map_to_list m).*2 <-> exists k, m !! k = Some x.
Proof.
  rewrite list_elem_of_fmap. split.
  - intros ([k v] & -> & Hin). apply elem_of_map_to_list in Hin. eauto.
  - intros (k & Hk). exists (k, x). split; [done|]. by apply elem_of_map_to_list.
Qed.

(** ** The comparisons of the views are orderings *)

Lemma Zltb_ordering {A} (key : A -> Z) (l : list A) :
  TransitiveOrdering (fun a b => key a <? key b) l.
Proof. split; intros x y z _ _ _; lia. Qed.

Lemma loss_ordering (l : list SummaryStatistic) :
  Forall lossIsNumber l ->
  TransitiveOrdering (fun a b => (sPacketLoss a <? sPacketLoss b)%float) l.
Proof.
  rewrite Forall_forall. intros Hl. split; intros x y z Hx Hy Hz.
  - apply float_ltb_trans.
  - apply float_ltb_negtrans; by apply Hl.
Qed.

Lemma lessFlat_ordering field (l : list SummaryStatistic) :
  (flatByLoss field = true -> Forall lossIsNumber l) ->
  TransitiveOrdering (lessFlat field) l.
Proof.
  unfold lessFlat, flatByLoss. intros H.
  destruct (String.eqb field "minrtt"); [apply (Zltb_ordering sMinRtt)|].
  destruct (String.eqb field "maxrtt"); [apply (Zltb_ordering sMaxRtt)|].
  destruct (String.eqb field "avgrtt"); [apply (Zltb_ordering sAvgRtt)|].
  apply loss_ordering. by apply H.
Qed.

Lemma lessFlat_asym field x y : lessFlat field x y = true -> lessFlat field y x = false.
Proof.
  unfold lessFlat.
  repeat (destruct (String.eqb field _); [lia|]). apply float_ltb_asym.
Qed.

Lemma lessLossOnly_ordering field (l : list SummaryStatistic) :
  Forall lossIsNumber l -> TransitiveOrdering (lessLossOnly field) l.
Proof.
  unfold lessLossOnly. intros H.
  destruct (String.eqb field "rtt"); [apply (Zltb_ordering sAvgRtt)|].
  destruct (String.eqb field "sent"); [apply (Zltb_ordering sTotalSent)|].
  destruct (String.eqb field "recv"); [apply (Zltb_ordering sTotalRecv)|].
  by apply loss_ordering.
Qed.

Lemma lessLossOnly_asym field x y :
  lessLossOnly field x y = true -> lessLossOnly field y x = false.
Proof.
  unfold lessLossOnly.
  repeat (destruct (String.eqb field _); [lia|]). apply float_ltb_asym.
Qed.

(** ** The flat sorted summary *)

Section FlatSummary.

Variable sort_Slice : Sorter.
Hypothesis sort_Slice_ok : SortSlice sort_Slice.

Lemma GetSummarySorted_perm s order field descending :
  RangeOrder (summaryData s) order ->
  GetSummarySorted sort_Slice s order field descending ≡ₚ (map_to_list (summaryData s)).*2.
Proof.
  intros Ho. unfold GetSummarySorted.
  destruct (sort_Slice_ok _ (fun i j => direction descending (lessFlat field i j))
              (copySummary <$> rangeValues (summaryData s) order)) as [Hp _].
  by rewrite Hp, fmap_copySummary, rangeValues_perm.
Qed.

Lemma GetSummarySorted_ordered s order field descending :
  RangeOrder (summaryData s) order ->
  (flatByLoss field = true ->
   forall k r, summaryData s !! k = Some r -> lossIsNumber r) ->
  OrderedBy (fun i j => direction descending (lessFlat field i j))
            (GetSummarySorted sort_Slice s order field descending).
Proof.
  intros Ho Hnan. unfold GetSummarySorted.
  destruct (sort_Slice_ok _ (fun i j => direction descending (lessFlat field i j))
              (copySummary <$> rangeValues (summaryData s) order)) as [_ Hs].
  apply Hs. apply (TransitiveOrdering_direction (lessFlat field)).
  apply lessFlat_ordering. intros Hf. apply Forall_forall. intros x Hx.
  rewrite fmap_copySummary in Hx. apply elem_of_rangeValues in Hx as [k Hk].
  by apply (Hnan Hf k).
Qed.

End FlatSummary.

(** The two directions against each other, in terms of the comparison. *)
Lemma GetSummarySorted_reverse_ties :
  forall (sort_Slice : Sorter) (s : PingStatsStore) (order1 order2 : list string)
         (field : string),
    SortSlice sort_Slice ->
    RangeOrder (summaryData s) order1 -> RangeOrder (summaryData s) order2 ->
    (flatByLoss field = true ->
     forall k r, summaryData s !! k = Some r -> lossIsNumber r) ->
    let ascending := GetSummarySorted sort_Slice s order1 field false in
    let descending := GetSummarySorted sort_Slice s order2 field true in
    Ascending (lessFlat field) ascending /\
    Descending (lessFlat field) descending /\
    Forall2 (tie (lessFlat field)) ascending (reverse descending).
Proof.
  intros sort_Slice s order1 order2 field Hsort Ho1 Ho2 Hnan ascending descending.
  assert (Hpa : ascending ≡ₚ (map_to_list (summaryData s)).*2)
    by by apply GetSummarySorted_perm.
  assert (Hpd : descending ≡ₚ (map_to_list (summaryData s)).*2)
    by by apply GetSummarySorted_perm.
  assert (Hasc : Ascending (lessFlat field) ascending).
  { apply OrderedBy_ascending; [apply lessFlat_asym|].
    by apply GetSummarySorted_ordered. }
  assert (Hdesc : Descending (lessFlat field) descending).
  { apply OrderedBy_descending; [apply lessFlat_asym|].
    by apply GetSummarySorted_ordered. }
  split; [done|]. split; [done|].
  apply (ascending_agree (lessFlat field) (lessFlat_asym field) ascending).
  - apply lessFlat_ordering. intros Hf. apply Forall_forall. intros x Hx.
    rewrite Hpa in Hx. apply elem_of_map_values in Hx as [k Hk]. by apply (Hnan Hf k).
  - done.
  - intros x Hx. rewrite elem_of_reverse in Hx. rewrite Hpd in Hx. by rewrite Hpa.
  - rewrite length_reverse. apply Permutation_length. by rewrite Hpa, Hpd.
  - intros x _. apply countBefore_perm. by rewrite reverse_Permutation, Hpa, Hpd.
  - done.
  - by apply Descending_reverse.
Qed.

(** The comparison of the flat summary says what the keys say. *)
Lemma lessFlat_false_key field x y :
  (flatByLoss field = true -> lossIsNumber x /\ lossIsNumber y) ->
  lessFlat field y x = false -> flatKeyLe field x y.
Proof.
  unfold lessFlat, flatKeyLe, flatByLoss, lossIsNumber.
  destruct (String.eqb field "minrtt"); [intros _; apply Z.ltb_ge|].
  destruct (String.eqb field "maxrtt"); [intros _; apply Z.ltb_ge|].
  destruct (String.eqb field "avgrtt"); [intros _; apply Z.ltb_ge|].
  simpl. intros Hnan. destruct (Hnan eq_refl). by apply float_leb_of_not_ltb.
Qed.

Lemma tie_lessFlat_key field x y :
  (flatByLoss field = true -> lossIsNumber x /\ lossIsNumber y) ->
  tie (lessFlat field) x y -> flatKeyEq field x y.
Proof.
  unfold tie, lessFlat, flatKeyEq, flatByLoss, lossIsNumber.
  destruct (String.eqb field "minrtt"); [intros _ [?%Z.ltb_ge ?%Z.ltb_ge]; lia|].
  destruct (String.eqb field "maxrtt"); [intros _ [?%Z.ltb_ge ?%Z.ltb_ge]; lia|].
  destruct (String.eqb field "avgrtt"); [intros _ [?%Z.ltb_ge ?%Z.ltb_ge]; lia|].
  simpl. intros Hnan [Hxy Hyx]. destruct (Hnan eq_refl). by apply float_eqb_of_tie.
Qed.

(** C6. For a fixed field, the flat summary sorted ascending and the one
    sorted descending both hold exactly the records of the store, each once:
    the same multiset.  The first is in ascending order of the field's key
    (the minimum, maximum or average round-trip time, or else the loss) and
    the second in descending order of it, and the descending list read in
    reverse agrees with the ascending one position by position up to records
    with equal keys.  (When the key is the loss, the losses are numbers.) *)
Theorem sorted_flat_descending_reverses_ascending :
  forall (sort_Slice : Sorter) (s : PingStatsStore) (order1 order2 : list string)
         (field : string),
    SortSlice sort_Slice ->
    RangeOrder (summaryData s) order1 -> RangeOrder (summaryData s) order2 ->
    (flatByLoss field = true ->
     forall k r, summaryData s !! k = Some r -> lossIsNumber r) ->
    let records := (map_to_list (summaryData s)).*2 in
    let ascending := GetSummarySorted sort_Slice s order1 field false in
    let descending := GetSummarySorted sort_Slice s order2 field true in
    ascending ≡ₚ records /\
    descending ≡ₚ records /\
    ascending ≡ₚ descending /\
    StronglySorted (flatKeyLe field) ascending /\
    StronglySorted (fun a b => flatKeyLe field b a) descending /\
    Forall2 (flatKeyEq field) ascending (reverse descending).
Proof.
  intros sort_Slice s order1 order2 field Hsort Ho1 Ho2 Hnan records ascending descending.
  assert (Hpa : ascending ≡ₚ records) by by apply GetSummarySorted_perm.
  assert (Hpd : descending ≡ₚ records) by by apply GetSummarySorted_perm.
  assert (Hrec : forall x, x ∈ records -> flatByLoss field = true -> lossIsNumber x).
  { intros x Hx Hf. apply elem_of_map_values in Hx as [k Hk]. by apply (Hnan Hf k). }
  destruct (GetSummarySorted_reverse_ties sort_Slice s order1 order2 field
              Hsort Ho1 Ho2 Hnan) as (Hasc & Hdesc & Hties).
  fold ascending in Hasc, Hties. fold descending in Hdesc, Hties.
  split_and!; try done.
  - by rewrite Hpa, Hpd.
  - apply (StronglySorted_weaken_in (fun x y => lessFlat field y x = false)); [|exact Hasc].
    intros x y Hx Hy. rewrite Hpa in Hx, Hy. apply lessFlat_false_key.
    intros Hf. split; by apply Hrec.
  - apply (StronglySorted_weaken_in (fun x y => lessFlat field x y = false)); [|exact Hdesc].
    intros x y Hx Hy. rewrite Hpd in Hx, Hy. apply lessFlat_false_key.
    intros Hf. split; by apply Hrec.
  - apply (Forall2_impl_in (tie (lessFlat field))); [|exact Hties].
    intros x y Hx Hy. rewrite Hpa in Hx. rewrite elem_of_reverse, Hpd in Hy.
    apply tie_lessFlat_key. intros Hf. split; by apply Hrec.
Qed.

(** The three destinations sorted by loss, visited in two opposite orders. *)
Lemma sorted_flat_three_hosts :
  let records := (map_to_list (summaryData threeHosts)).*2 in
  let order := (map_to_list (summaryData threeHosts)).*1 in
  let ascending := GetSummarySorted insertionSort_func threeHosts order "loss" false in
  let descending :=
    GetSummarySorted insertionSort_func threeHosts (reverse order) "loss" true in
  ascending ≡ₚ records /\
  descending ≡ₚ records /\
  ascending ≡ₚ descending /\
  StronglySorted (flatKeyLe "loss") ascending /\
  StronglySorted (fun a b => flatKeyLe "loss" b a) descending /\
  Forall2 (flatKeyEq "loss") ascending (reverse descending).
Proof.
  apply (sorted_flat_descending_reverses_ascending insertionSort_func threeHosts
           (map_to_list (summaryData threeHosts)).*1
           (reverse (map_to_list (summaryData threeHosts)).*1) "loss").
  - exact insertionSort_func_SortSlice.
  - unfold RangeOrder. reflexivity.
  - unfold RangeOrder. apply reverse_Permutation.
  - intros _. apply map_Forall_lookup.
    apply (bool_decide_unpack _). vm_compute. reflexivity.
Defined.

(** ** The loss-only view *)

Lemma filter_elem_of {A} (p : A -> bool) (l : list A) x :
  x ∈ List.filter p l <-> x ∈ l /\ p x = true.
Proof. rewrite !list_elem_of_In. apply filter_In. Qed.

(** C4.  The grouped summary of three lossy destinations lists the two of
    the first ISP, then the one of the second.  The loss-only view does hold
    exactly these records, but not in the order of its input: sorted again
    as a whole, it puts the destination of the second ISP between the two of
    the first, and the ISP groups of its input are gone. *)
Theorem loss_only_breaks_the_isp_groups :
  let sum := GetSummarySortedGroupedByIsp insertionSort_func twoIsps
               ["6.6.6.6"; "9.9.9.9"; "8.8.8.8"] ["dx"; "lt"] "loss" false in
  let lossOnly := GetLossOnlyGroupedByIspSorted insertionSort_func sum "loss" false in
  sDestIP <$> sum = ["6.6.6.6"; "9.9.9.9"; "8.8.8.8"] /\
  sIsp <$> sum = ["dx"; "dx"; "lt"] /\
  List.filter (fun v => (0 <? sPacketLoss v)%float) sum = sum /\
  sDestIP <$> lossOnly = ["6.6.6.6"; "8.8.8.8"; "9.9.9.9"] /\
  sIsp <$> lossOnly = ["dx"; "lt"; "dx"] /\
  lossOnly <> List.filter (fun v => (0 <? sPacketLoss v)%float) sum.
Proof.
  split_and!; try (vm_compute; reflexivity).
  vm_compute. discriminate.
Qed.

(** ** What the views show of a record *)

Lemma groupByIsp_snoc records v :
  groupByIsp (records ++ [v]) =
    <[sIsp v := default [] (groupByIsp records !! sIsp v) ++ [copySummary v]]>
      (groupByIsp records).
Proof. unfold groupByIsp. by rewrite foldl_app. Qed.

Lemma groupByIsp_elem_of records : forall isp l x,
  groupByIsp records !! isp = Some l -> x ∈ l -> x ∈ records.
Proof.
  induction records as [|v records IH] using rev_ind; intros isp l x Hl Hx.
  - unfold groupByIsp in Hl. simpl in Hl. by rewrite lookup_empty in Hl.
  - rewrite groupByIsp_snoc in Hl. rewrite elem_of_app.
    destruct (decide (sIsp v = isp)) as [<-|Hne].
    + rewrite lookup_insert_eq in Hl. injection Hl as <-.
      apply elem_of_app in Hx as [Hx|Hx].
      * left. destruct (groupByIsp records !! sIsp v) as [l0|] eqn:E; simpl in Hx.
        -- by apply (IH (sIsp v) l0).
        -- by apply elem_of_nil in Hx.
      * right. by rewrite copySummary_id in Hx.
    + rewrite lookup_insert_ne in Hl by done. left. by apply (IH isp l).
Qed.

Section ViewRows.

Variable sort_Slice : Sorter.
Hypothesis sort_Slice_ok : SortSlice sort_Slice.

Lemma sort_Slice_elem_of {A} (less : A -> A -> bool) (l : list A) x :
  x ∈ sort_Slice A less l <-> x ∈ l.
Proof. destruct (sort_Slice_ok A less l) as [Hp _]. by rewrite Hp. Qed.

Lemma concat_sorted_elem_of {A} (less : A -> A -> bool) (lists : list (list A)) :
  forall result x,
    x ∈ foldl (fun result list => result ++ sort_Slice A less list) result lists ->
    x ∈ result \/ exists list, list ∈ lists /\ x ∈ list.
Proof.
  induction lists as [|list lists IH]; intros result x Hx; simpl in Hx; [by left|].
  apply IH in Hx as [Hx|(list' & Hin & Hx)].
  - apply elem_of_app in Hx as [Hx|Hx]; [by left|].
    right. exists list. split; [left|]. by apply sort_Slice_elem_of in Hx.
  - right. exists list'. split; [by right | done].
Qed.

(** Every row of a view is a record of the store. *)
Lemma GetSummarySorted_row s order field descending x :
  x ∈ GetSummarySorted sort_Slice s order field descending ->
  exists k, summaryData s !! k = Some x.
Proof.
  unfold GetSummarySorted. rewrite sort_Slice_elem_of, fmap_copySummary.
  apply elem_of_rangeValues.
Qed.

Lemma GetSummarySortedGroupedByIsp_row s order ispOrder field descending x :
  x ∈ GetSummarySortedGroupedByIsp sort_Slice s order ispOrder field descending ->
  exists k, summaryData s !! k = Some x.
Proof.
  unfold GetSummarySortedGroupedByIsp. intros Hx.
  apply concat_sorted_elem_of in Hx as [Hx|(list & Hin & Hx)].
  - by apply elem_of_nil in Hx.
  - apply elem_of_rangeValues in Hin as [isp Hisp].
    apply (elem_of_rangeValues (summaryData s) order).
    by apply (groupByIsp_elem_of _ isp list).
Qed.

Lemma GetLossOnlyGroupedByIspSorted_row sum field descending x :
  x ∈ GetLossOnlyGroupedByIspSorted sort_Slice sum field descending -> x ∈ sum.
Proof.
  unfold GetLossOnlyGroupedByIspSorted. rewrite sort_Slice_elem_of, filter_elem_of.
  by intros [? _].
Qed.

End ViewRows.

(** C10. The loss percentage and the duplicate count of a record are those of
    the first result for its destination; no later [Add] for the destination
    updates them.  So every row of the flat summary, of the grouped summary
    and of the loss-only view shows the first result's loss and duplicates. *)
Theorem loss_and_duplicates_fixed_at_creation :
  (forall (calls : list (Time * PingStatistic)) (s s' : PingStatsStore)
          (d : string) (r : SummaryStatistic),
     summaryData s !! d = None -> AddAll s calls = Some s' ->
     summaryData s' !! d = Some r ->
     exists first, firstFor d calls = Some first /\
                   sPacketLoss r = PacketLoss (Statistic first) /\
                   sPacketsRecvDuplicates r = PacketsRecvDuplicates (Statistic first)) /\
  (forall (calls : list (Time * PingStatistic)) (s s' : PingStatsStore)
          (d : string) (r : SummaryStatistic),
     summaryData s !! d = Some r -> AddAll s calls = Some s' ->
     exists r', summaryData s' !! d = Some r' /\
                sPacketLoss r' = sPacketLoss r /\
                sPacketsRecvDuplicates r' = sPacketsRecvDuplicates r) /\
  (forall (sort_Slice : Sorter) (maxRecent : Z) (calls : list (Time * PingStatistic))
          (s' : PingStatsStore) (order ispOrder : list string)
          (field1 field2 field3 : string) (des1 des2 des3 : bool) (x : SummaryStatistic),
     SortSlice sort_Slice ->
     AddAll (NewPingStatsStore maxRecent) calls = Some s' ->
     let flat := GetSummarySorted sort_Slice s' order field1 des1 in
     let grouped := GetSummarySortedGroupedByIsp sort_Slice s' order ispOrder field2 des2 in
     let lossOnly := GetLossOnlyGroupedByIspSorted sort_Slice grouped field3 des3 in
     x ∈ flat \/ x ∈ grouped \/ x ∈ lossOnly ->
     exists first, firstFor (sDestIP x) calls = Some first /\
                   sPacketLoss x = PacketLoss (Statistic first) /\
                   sPacketsRecvDuplicates x = PacketsRecvDuplicates (Statistic first)).
Proof.
  split; [|split].
  - intros calls s s' d r Hnone Hs' Hr.
    destruct (AddAll_created_from_first calls s s' d r Hnone Hs' Hr)
      as (first & Hf & _ & (_ & _ & _ & Hloss & Hdup)).
    by exists first.
  - intros calls s s' d r Hr Hs'.
    destruct (AddAll_same_creation calls s s' d r Hs' Hr)
      as (r' & Hr' & (_ & _ & _ & Hloss & Hdup)).
    by exists r'.
  - intros sort_Slice maxRecent calls s' order ispOrder field1 field2 field3
           des1 des2 des3 x Hsort Hs' flat grouped lossOnly Hx.
    assert (Hrow : exists k, summaryData s' !! k = Some x).
    { destruct Hx as [Hx|[Hx|Hx]].
      - by apply (GetSummarySorted_row sort_Slice Hsort) in Hx.
      - by apply (GetSummarySortedGroupedByIsp_row sort_Slice Hsort) in Hx.
      - apply (GetLossOnlyGroupedByIspSorted_row sort_Slice Hsort) in Hx.
        by apply (GetSummarySortedGroupedByIsp_row sort_Slice Hsort) in Hx. }
    destruct Hrow as [k Hk].
    destruct (AddAll_created_from_first calls (NewPingStatsStore maxRecent) s' k x)
      as (first & Hf & Hd & (Hdest & _ & _ & Hloss & Hdup)); [apply lookup_empty|done..|].
    exists first. rewrite Hdest, Hd. done.
Qed.

(** The destination probed again with a loss of 50 and one duplicate still
    shows the first result's loss of 0 and no duplicate. *)
Lemma loss_and_duplicates_retagged :
  exists r', summaryData afterRetagged !! "1.1.1.1" = Some r' /\
             sPacketLoss r' = 0%float /\ sPacketsRecvDuplicates r' = 0.
Proof.
  destruct (proj1 (proj2 loss_and_duplicates_fixed_at_creation) [(2, retaggedStat)]
              afterFirst afterRetagged "1.1.1.1"
              (default (newSummary firstStat) (summaryData afterFirst !! "1.1.1.1")))
    as (r' & Hl & Hloss & Hdup).
  - vm_compute. reflexivity.
  - vm_compute. reflexivity.
  - exists r'. split; [exact Hl|].
    split; [rewrite Hloss | rewrite Hdup]; vm_compute; reflexivity.
Defined.

(** The two lists [HandleDPing] prints show, for each destination, the loss
    and duplicates of the first result that reached the store. *)
Lemma handleResults_store received : forall store n,
  fst <$> handleResults store n received = AddAll store (aggregated received).
Proof.
  induction received as [|[now stats] received IH]; intros store n; [done|].
  cbn [handleResults]. unfold handleResult, aggregated.
  cbn [List.filter snd]. fold (aggregated received).
  destruct (PacketLoss (Statistic stats) =? 100)%float; cbn [negb mbind option_bind].
  - apply IH.
  - cbn [AddAll]. destruct (Add store now stats) as [s1|]; cbn [mbind option_bind]; [|done].
    apply IH.
Qed.

Lemma HandleDPing_rows (sort_Slice : Sorter) maxRecent received order ispOrder sort des
    summary lossOnly count x :
  SortSlice sort_Slice ->
  HandleDPing sort_Slice (NewPingStatsStore maxRecent) received order ispOrder sort des
    = Some (summary, lossOnly, count) ->
  x ∈ summary \/ x ∈ lossOnly ->
  exists first, firstFor (sDestIP x) (aggregated received) = Some first /\ created_from first x.
Proof.
  intros Hsort Hrun Hx. unfold HandleDPing in Hrun.
  pose proof (handleResults_store received (NewPingStatsStore maxRecent) 0) as Hstore.
  destruct (handleResults (NewPingStatsStore maxRecent) 0 received) as [[s' n]|];
    simpl in Hrun, Hstore; [|done].
  injection Hrun as <- <- <-.
  assert (Hrow : exists k, summaryData s' !! k = Some x).
  { destruct Hx as [Hx|Hx].
    - by apply (GetSummarySortedGroupedByIsp_row sort_Slice Hsort) in Hx.
    - apply (GetLossOnlyGroupedByIspSorted_row sort_Slice Hsort) in Hx.
      by apply (GetSummarySortedGroupedByIsp_row sort_Slice Hsort) in Hx. }
  destruct Hrow as [k Hk].
  destruct (AddAll_created_from_first (aggregated received) (NewPingStatsStore maxRecent) s' k x)
    as (first & Hf & Hd & Hc); [apply lookup_empty|done..|].
  exists first. split; [|done]. destruct Hc as [-> _]. by rewrite Hd.
Qed.

(** ** The target selector *)

Lemma validIsps_known isp :
  default false (validIsps !! isp) = bool_decide (isp ∈ knownIsps).
Proof.
  unfold validIsps, knownIsps. simpl. rewrite !lookup_insert, lookup_empty.
  destruct (decide ("电信" = isp)) as [<-|H1]; [done|].
  destruct (decide ("联通" = isp)) as [<-|H2]; [done|].
  destruct (decide ("移动" = isp)) as [<-|H3]; [done|].
  destruct (decide ("all" = isp)) as [<-|H4]; [done|].
  simpl. symmetry. apply bool_decide_eq_false. intros H.
  repeat (apply elem_of_cons in H as [H|H]; [congruence|]).
  by apply elem_of_nil in H.
Qed.

Lemma hasKey_is_Some {V} (m : gmap string V) key : hasKey m key = true <-> is_Some (m !! key).
Proof.
  unfold hasKey. destruct (m !! key); split; try done; intros [? ?]; done.
Qed.

Lemma ispRegions_lookup dns ispName regions :
  ispRegions dns !! ispName = Some regions <->
  (ispName = "电信" /\ regions = Dx dns) \/
  (ispName = "联通" /\ regions = Lt dns) \/
  (ispName = "移动" /\ regions = Yd dns).
Proof.
  unfold ispRegions. simpl. rewrite !lookup_insert, lookup_empty.
  destruct (decide ("电信" = ispName)) as [<-|H1].
  { split; [intros [= <-]; by left | intros [[_ ->]|[[? _]|[? _]]]; done]. }
  destruct (decide ("联通" = ispName)) as [<-|H2].
  { split; [intros [= <-]; right; by left | intros [[? _]|[[_ ->]|[? _]]]; done]. }
  destruct (decide ("移动" = ispName)) as [<-|H3].
  { split; [intros [= <-]; right; by right | intros [[? _]|[[? _]|[_ ->]]]; done]. }
  split; [done | intros [[? _]|[[? _]|[? _]]]; congruence].
Qed.

(** [isRegionExist] says whether the region is in the catalog of the ISP. *)
Lemma isRegionExist_catalog dns ispVal region :
  ispVal ∈ knownIsps ->
  isRegionExist ispVal region dns = true <-> regionInCatalog dns ispVal region.
Proof.
  unfold knownIsps, regionInCatalog, isRegionExist. intros Hin.
  assert (Hcases : ispVal = "电信" \/ ispVal = "联通" \/ ispVal = "移动" \/ ispVal = "all").
  { rewrite !elem_of_cons, elem_of_nil in Hin. tauto. }
  destruct Hcases as [-> | [-> | [-> | ->]]]; simpl.
  - rewrite hasKey_is_Some. split.
    + intros H. exists "电信", (Dx dns). rewrite ispRegions_lookup.
      split; [by right|]. split; [by left | done].
    + intros (i & r & [Hi|Hi] & Hr & Hs); [done|]. subst i.
      apply ispRegions_lookup in Hr. by destruct Hr as [[_ ->]|[[? _]|[? _]]].
  - rewrite hasKey_is_Some. split.
    + intros H. exists "联通", (Lt dns). rewrite ispRegions_lookup.
      split; [by right|]. split; [right; by left | done].
    + intros (i & r & [Hi|Hi] & Hr & Hs); [done|]. subst i.
      apply ispRegions_lookup in Hr. by destruct Hr as [[? _]|[[_ ->]|[? _]]].
  - rewrite hasKey_is_Some. split.
    + intros H. exists "移动", (Yd dns). rewrite ispRegions_lookup.
      split; [by right|]. split; [right; by right | done].
    + intros (i & r & [Hi|Hi] & Hr & Hs); [done|]. subst i.
      apply ispRegions_lookup in Hr. by destruct Hr as [[? _]|[[? _]|[_ ->]]].
  - rewrite !orb_true_iff, !hasKey_is_Some. split.
    + intros [[H|H]|H].
      * exists "电信", (Dx dns). rewrite ispRegions_lookup.
        split; [by left|]. split; [by left | done].
      * exists "联通", (Lt dns). rewrite ispRegions_lookup.
        split; [by left|]. split; [right; by left | done].
      * exists "移动", (Yd dns). rewrite ispRegions_lookup.
        split; [by left|]. split; [right; by right | done].
    + intros (i & r & _ & Hr & Hs). apply ispRegions_lookup in Hr.
      destruct Hr as [[_ ->]|[[_ ->]|[_ ->]]]; tauto.
Qed.

Lemma selectIsp_known isp : (selectIsp isp).1 ∈ knownIsps.
Proof.
  unfold selectIsp. rewrite validIsps_known. case_bool_decide; simpl; [done|].
  unfold knownIsps. rewrite !elem_of_cons. tauto.
Qed.

(** C8. An ISP outside the closed set is replaced by ["all"], a region that
    is not the whole-country selector and is not in the catalog of the ISP in
    use is replaced by ["全国"]; each replacement logs one warning and nothing
    else happens: the selector always returns the parameters the run goes on
    with.  A known ISP, the whole-country selector and a region of the
    catalog are used as requested, without a warning. *)
Theorem selector_falls_back_with_a_warning :
  forall (isp detection : string) (dns : DNSConfig),
    let ispVal := if bool_decide (isp ∈ knownIsps) then isp else "all" in
    let ispWarning :=
      if bool_decide (isp ∈ knownIsps) then [] else [UnsupportedIsp isp] in
    (detection <> "全国" /\ ~ regionInCatalog dns ispVal detection ->
     selectParams isp detection dns =
       (ispVal, "全国", ispWarning ++ [RegionNotFound detection ispVal])) /\
    (detection = "全国" \/ regionInCatalog dns ispVal detection ->
     selectParams isp detection dns = (ispVal, detection, ispWarning)).
Proof.
  intros isp detection dns ispVal ispWarning.
  assert (Hisp : selectIsp isp = (ispVal, ispWarning)).
  { unfold selectIsp, ispVal, ispWarning. rewrite validIsps_known.
    by case_bool_decide. }
  assert (Hknown : ispVal ∈ knownIsps).
  { pose proof (selectIsp_known isp) as Hk. by rewrite Hisp in Hk. }
  unfold selectParams. rewrite Hisp. unfold selectRegion. split.
  - intros [Hne Hcat].
    destruct (String.eqb_spec detection "全国") as [?|_]; [done|].
    destruct (isRegionExist ispVal detection dns) eqn:E; [|done].
    by apply isRegionExist_catalog in E.
  - intros [->|Hcat].
    + rewrite String.eqb_refl. simpl. by rewrite app_nil_r.
    + apply isRegionExist_catalog in Hcat; [|done]. rewrite Hcat.
      rewrite andb_false_r. by rewrite app_nil_r.
Qed.

(** An unknown region under an unknown ISP: both defaults, two warnings. *)
Lemma selector_unknown_region :
  selectParams "铁通" "火星" sampleCatalog =
    ("all", "全国", [UnsupportedIsp "铁通"] ++ [RegionNotFound "火星" "all"]).
Proof.
  apply (selector_falls_back_with_a_warning "铁通" "火星" sampleCatalog).
  split; [discriminate|].
  intros (i & r & _ & Hr & Hs). apply ispRegions_lookup in Hr.
  destruct Hr as [[_ ->]|[[_ ->]|[_ ->]]]; destruct Hs as [v Hv]; vm_compute in Hv;
    discriminate.
Defined.

(** ** The bounded dispatcher *)

Module DispatcherFacts.
Import Dispatcher.

Lemma TaskPc_eqb_eq a b : TaskPc_eqb a b = true <-> a = b.
Proof. destruct a, b; simpl; split; congruence. Qed.

Lemma at_pc_lookup st i pc :
  at_pc st i pc = true -> exists t, tasks st !! i = Some (t, pc).
Proof.
  unfold at_pc, pcOf. destruct (tasks st !! i) as [[t pc']|] eqn:E; simpl; [|done].
  intros H. apply TaskPc_eqb_eq in H as <-. eauto.
Qed.

Lemma count_alter (pcs : list TaskPc) (f : Target * TaskPc -> Target * TaskPc)
    (l : list (Target * TaskPc)) : forall i t,
  l !! i = Some t ->
  Z.of_nat (length (List.filter (pcIn pcs) (alter f i l))) =
    Z.of_nat (length (List.filter (pcIn pcs) l))
    - (if pcIn pcs t then 1 else 0) + (if pcIn pcs (f t) then 1 else 0).
Proof.
  induction l as [|x l IH]; intros [|i] t Hl; try done.
  - injection Hl as ->. simpl. destruct (pcIn pcs t), (pcIn pcs (f t)); simpl; lia.
  - simpl in Hl. specialize (IH i t Hl).
    change (alter f (S i) (x :: l)) with (x :: alter f i l). simpl.
    destruct (pcIn pcs x); simpl length; lia.
Qed.

Lemma countPc_setPc pcs st i t pc0 pc semLen' wgCount' :
  tasks st !! i = Some (t, pc0) ->
  countPc pcs (setPc st i pc semLen' wgCount') =
    countPc pcs st - (if existsb (TaskPc_eqb pc0) pcs then 1 else 0)
                   + (if existsb (TaskPc_eqb pc) pcs then 1 else 0).
Proof.
  intros Hl. unfold countPc, setPc. simpl.
  apply (count_alter pcs (fun t => (t.1, pc)) (tasks st) i (t, pc0) Hl).
Qed.

Lemma countPc_snoc pcs st t pc (st' : State) :
  tasks st' = tasks st ++ [(t, pc)] ->
  countPc pcs st' = countPc pcs st + (if existsb (TaskPc_eqb pc) pcs then 1 else 0).
Proof.
  intros Ht. unfold countPc. rewrite Ht, List.filter_app, length_app. simpl.
  unfold pcIn at 2. simpl. destruct (existsb (TaskPc_eqb pc) pcs); simpl; lia.
Qed.

Lemma fst_alter_pc (l : list (Target * TaskPc)) i pc :
  (alter (fun t : Target * TaskPc => (t.1, pc)) i l).*1 = l.*1.
Proof.
  revert i. induction l as [|x l IH]; intros [|i]; try done.
  change (alter (fun t : Target * TaskPc => (t.1, pc)) (S i) (x :: l))
    with (x :: alter (fun t : Target * TaskPc => (t.1, pc)) i l).
  by rewrite !fmap_cons, IH.
Qed.

Lemma allFinished_not_at st i pc :
  allFinished st -> pc <> Finished -> at_pc st i pc = false.
Proof.
  intros Hall Hpc. destruct (at_pc st i pc) eqn:E; [|done].
  apply at_pc_lookup in E as [t Hl]. unfold allFinished in Hall.
  rewrite Forall_forall in Hall. apply list_elem_of_lookup_2 in Hl.
  by apply Hall in Hl.
Qed.

(** A wait group at zero has no task left before its [Done]. *)
Lemma countPc_zero_allFinished st :
  countPc [AtSem; InPing; Returned; Released] st = 0 -> allFinished st.
Proof.
  unfold countPc, allFinished. induction (tasks st) as [|[t pc] l IH]; [constructor|].
  simpl. destruct pc; simpl; intros H; try lia.
  constructor; [done | by apply IH].
Qed.

Lemma probing_le_semLen st : probing st <= countPc [InPing; Returned] st.
Proof.
  unfold probing, countPc. induction (tasks st) as [|[t pc] l IH]; [done|].
  simpl. destruct pc; simpl; lia.
Qed.

Lemma Inv_init targets maxConcurrency st :
  init targets maxConcurrency = Some st -> Inv targets maxConcurrency st.
Proof.
  unfold init. destruct (Z.ltb_spec maxConcurrency 0); [done|].
  intros [= <-]. unfold Inv, countPc. simpl. repeat split; try done; lia.
Qed.

Lemma Inv_step targets maxConcurrency st a st' :
  Inv targets maxConcurrency st -> step st a = Some st' -> Inv targets maxConcurrency st'.
Proof.
  intros (Htasks & Hcap & Hsem & Hle & Hwg & Hwaited & Hclosed) Hstep.
  destruct a as [|i|i|i|i| |]; simpl in Hstep.
  - (* Spawn *)
    destruct (pending st) as [|t rest] eqn:Ep; [done|]. injection Hstep as <-.
    unfold Inv. simpl.
    rewrite (countPc_snoc [InPing; Returned] st t AtSem) by done.
    rewrite (countPc_snoc [AtSem; InPing; Returned; Released] st t AtSem) by done.
    simpl. split_and!; try lia; try done.
    + by rewrite fmap_app, <- app_assoc.
    + intros Hw. by destruct (Hwaited Hw) as [? _].
  - (* Acquire *)
    destruct (at_pc st i AtSem) eqn:Eat; simpl in Hstep; [|done].
    destruct (Z.ltb_spec (semLen st) (semCap st)); [|done]. injection Hstep as <-.
    destruct (at_pc_lookup _ _ _ Eat) as [t Hl].
    unfold Inv. rewrite !(countPc_setPc _ st i t AtSem) by done. simpl.
    split_and!; try lia; try done; try (by rewrite fst_alter_pc).
    intros Hw. destruct (Hwaited Hw) as [_ Hall].
    by rewrite (allFinished_not_at st i AtSem) in Eat.
  - (* PingReturns *)
    destruct (at_pc st i InPing) eqn:Eat; simpl in Hstep; [|done]. injection Hstep as <-.
    destruct (at_pc_lookup _ _ _ Eat) as [t Hl].
    unfold Inv. rewrite !(countPc_setPc _ st i t InPing) by done. simpl.
    split_and!; try lia; try done; try (by rewrite fst_alter_pc).
    intros Hw. destruct (Hwaited Hw) as [_ Hall].
    by rewrite (allFinished_not_at st i InPing) in Eat.
  - (* Release *)
    destruct (at_pc st i Returned) eqn:Eat; simpl in Hstep; [|done].
    destruct (Z.ltb_spec 0 (semLen st)); [|done]. injection Hstep as <-.
    destruct (at_pc_lookup _ _ _ Eat) as [t Hl].
    unfold Inv. rewrite !(countPc_setPc _ st i t Returned) by done. simpl.
    split_and!; try lia; try done; try (by rewrite fst_alter_pc).
    intros Hw. destruct (Hwaited Hw) as [_ Hall].
    by rewrite (allFinished_not_at st i Returned) in Eat.
  - (* WgDone *)
    destruct (at_pc st i Released) eqn:Eat; simpl in Hstep; [|done]. injection Hstep as <-.
    destruct (at_pc_lookup _ _ _ Eat) as [t Hl].
    unfold Inv. rewrite !(countPc_setPc _ st i t Released) by done. simpl.
    split_and!; try lia; try done; try (by rewrite fst_alter_pc).
    intros Hw. destruct (Hwaited Hw) as [_ Hall].
    by rewrite (allFinished_not_at st i Released) in Eat.
  - (* Wait *)
    destruct (pending st) as [|t rest] eqn:Ep; [|done].
    destruct (waited st) eqn:Ew; simpl in Hstep; [done|].
    destruct (Z.eqb_spec (wgCount st) 0) as [H0|]; [|done]. injection Hstep as <-.
    assert (Hall : allFinished st) by (apply countPc_zero_allFinished; lia).
    unfold Inv. split_and!; done.
  - (* Close *)
    destruct (waited st) eqn:Ew; simpl in Hstep; [|done].
    destruct (closed st) eqn:Ec; simpl in Hstep; [done|]. injection Hstep as <-.
    unfold Inv. split_and!; done.
Qed.

Lemma Inv_run targets maxConcurrency schedule : forall st st',
  Inv targets maxConcurrency st -> run st schedule = Some st' ->
  Inv targets maxConcurrency st'.
Proof.
  induction schedule as [|a schedule IH]; intros st st' Hinv Hrun; simpl in Hrun.
  - by injection Hrun as <-.
  - destruct (step st a) as [st1|] eqn:E; simpl in Hrun; [|done].
    eapply IH; [|done]. by eapply Inv_step.
Qed.

(** C9. Whatever the schedule, the tasks started are the target descriptors
    reached so far, one task each; the tasks inside the probe call are never
    more than the concurrency limit; and once the result channel is closed
    every descriptor has its task and every task has finished. *)
Theorem dispatcher_is_bounded_and_closes_last :
  forall (targets : list Target) (maxConcurrency : Z) (schedule : list Action)
         (st0 st : State),
    init targets maxConcurrency = Some st0 ->
    run st0 schedule = Some st ->
    (tasks st).*1 ++ pending st = targets /\
    probing st <= maxConcurrency /\
    (closed st = true -> (tasks st).*1 = targets /\ allFinished st).
Proof.
  intros targets maxConcurrency schedule st0 st Hinit Hrun.
  pose proof (Inv_run targets maxConcurrency schedule st0 st (Inv_init _ _ _ Hinit) Hrun)
    as (Htasks & Hcap & Hsem & Hle & Hwg & Hwaited & Hclosed).
  split; [done|]. split.
  - pose proof (probing_le_semLen st). lia.
  - intros Hc. destruct (Hwaited (Hclosed Hc)) as [Hp Hall].
    rewrite Hp, app_nil_r in Htasks. done.
Qed.

(** Two descriptors and one slot, run to the closing of the channel. *)
Lemma dispatcher_one_slot :
  exists st0 st,
    init twoTargets 1 = Some st0 /\ run st0 oneSlotSchedule = Some st /\
    closed st = true /\ (tasks st).*1 = twoTargets /\ allFinished st /\
    probing st <= 1.
Proof.
  pose (st0 := default (Build_State [] [] 0 0 0 false false) (init twoTargets 1)).
  pose (st := default st0 (run st0 oneSlotSchedule)).
  assert (Hinit : init twoTargets 1 = Some st0) by (vm_compute; reflexivity).
  assert (Hrun : run st0 oneSlotSchedule = Some st) by (vm_compute; reflexivity).
  destruct (dispatcher_is_bounded_and_closes_last twoTargets 1 oneSlotSchedule st0 st
              Hinit Hrun) as (_ & Hprobing & Hclosed).
  assert (Hc : closed st = true) by (vm_compute; reflexivity).
  destruct (Hclosed Hc) as [Htasks Hall].
  exists st0, st. repeat split; assumption.
Defined.

End DispatcherFacts.

(** * Further properties of the package *)

(** ** The recent history *)

Lemma pushRecent_last (N : Z) (hist : list PingStatistic) (s : PingStatsStore) stat :
  maxRecent s = N ->
  recentStats s = drop (length hist - Z.to_nat N) hist ->
  pushRecent s stat = drop (length (hist ++ [stat]) - Z.to_nat N) (hist ++ [stat]).
Proof.
  intros HN Hrec. unfold pushRecent. rewrite Hrec, HN, length_app, length_drop, length_app.
  simpl length.
  destruct (Z.gtb_spec (Z.of_nat (length hist - (length hist - Z.to_nat N) + 1)) N) as [Hgt|Hle].
  - assert (Hlen : (Z.to_nat N <= length hist)%nat) by lia.
    replace (length hist + 1 - Z.to_nat N)%nat with (S (length hist - Z.to_nat N)) by lia.
    rewrite <- drop_app_le by lia. by rewrite drop_drop, Nat.add_1_r.
  - assert (Hlen : (length hist < Z.to_nat N)%nat) by lia.
    replace (length hist - Z.to_nat N)%nat with 0%nat by lia.
    replace (length hist + 1 - Z.to_nat N)%nat with 0%nat by lia. done.
Qed.

Lemma AddAll_recent calls : forall (hist : list PingStatistic) s s',
  recentStats s = drop (length hist - Z.to_nat (maxRecent s)) hist ->
  AddAll s calls = Some s' ->
  maxRecent s' = maxRecent s /\
  recentStats s' =
    drop (length (hist ++ calls.*2) - Z.to_nat (maxRecent s)) (hist ++ calls.*2).
Proof.
  induction calls as [|[now stat] calls IH]; intros hist s s' Hrec Hs'; simpl in Hs'.
  - injection Hs' as <-. by rewrite app_nil_r.
  - destruct (Add s now stat) as [s1|] eqn:E; simpl in Hs'; [|discriminate].
    apply Add_inv in E as (r' & _ & _ & Hr1 & Hm1).
    destruct (IH (hist ++ [stat]) s1 s') as [Hm Hr]; [|done|].
    + rewrite Hr1, Hm1. by apply pushRecent_last.
    + rewrite Hm1 in Hm, Hr. split; [done|].
      by rewrite fmap_cons, (cons_middle stat), app_assoc.
Qed.

(** X1. The recent history is a window on the results added: from a new
    store, after any run of [Add] calls [GetRecent] returns the last
    [maxRecent] results of the run, oldest first, and all of them while there
    are fewer (none at all when [maxRecent] is zero or negative). *)
Theorem recent_history_is_the_last_results :
  forall (maxRecent : Z) (calls : list (Time * PingStatistic)) (s' : PingStatsStore),
    AddAll (NewPingStatsStore maxRecent) calls = Some s' ->
    GetRecent s' = drop (length calls - Z.to_nat maxRecent) calls.*2 /\
    Z.of_nat (length (GetRecent s')) = Z.min (Z.of_nat (length calls)) (Z.max 0 maxRecent).
Proof.
  intros maxRecent calls s' Hs'.
  destruct (AddAll_recent calls [] (NewPingStatsStore maxRecent) s') as [_ Hr]; [done..|].
  simpl in Hr. rewrite length_fmap in Hr. unfold GetRecent. rewrite Hr. split; [done|].
  rewrite length_drop, length_fmap. lia.
Qed.

(** With room for one result, only the second result of the scenario stays. *)
Lemma recent_history_scenario :
  exists s', AddAll (NewPingStatsStore 1) scenario = Some s' /\
             GetRecent s' = [secondStat].
Proof.
  pose (s' := default (NewPingStatsStore 1) (AddAll (NewPingStatsStore 1) scenario)).
  destruct (recent_history_is_the_last_results 1 scenario s') as [Hr _].
  - vm_compute. reflexivity.
  - exists s'. split; [vm_compute; reflexivity | exact Hr].
Defined.

(** ** The destinations of the store *)

Lemma Add_dom s now stat s' k :
  Add s now stat = Some s' ->
  is_Some (summaryData s' !! k) <-> k = DecIp stat \/ is_Some (summaryData s !! k).
Proof.
  intros Hs'. destruct (decide (k = DecIp stat)) as [->|Hne].
  - destruct (Add_lookup_eq _ _ _ _ Hs') as (r' & -> & _). split; eauto.
  - rewrite (Add_lookup_ne _ _ _ _ k Hs' Hne). split; [by right | by intros [?|?]].
Qed.

Lemma AddAll_dom calls : forall s s' k,
  AddAll s calls = Some s' ->
  is_Some (summaryData s' !! k) <->
  k ∈ (fun c => DecIp c.2) <$> calls \/ is_Some (summaryData s !! k).
Proof.
  induction calls as [|[now stat] calls IH]; intros s s' k Hs'; simpl in Hs'.
  - injection Hs' as <-. rewrite fmap_nil, elem_of_nil. tauto.
  - destruct (Add s now stat) as [s1|] eqn:E; simpl in Hs'; [|discriminate].
    rewrite (IH s1 s' k Hs'), (Add_dom _ _ _ _ k E), fmap_cons, elem_of_cons. simpl. tauto.
Qed.

(** X2. One record per destination: from a new store, the snapshot
    [GetSummary] returns has a record exactly under the destination
    addresses of the results added, and the record under a key names that
    key as its destination. *)
Theorem summary_has_one_record_per_destination :
  forall (maxRecent : Z) (calls : list (Time * PingStatistic)) (s' : PingStatsStore),
    AddAll (NewPingStatsStore maxRecent) calls = Some s' ->
    (forall k, is_Some (GetSummary s' !! k) <-> k ∈ (fun c => DecIp c.2) <$> calls) /\
    (forall k r, GetSummary s' !! k = Some r -> sDestIP r = k).
Proof.
  intros maxRecent calls s' Hs'. unfold GetSummary. split.
  - intros k. rewrite lookup_fmap, fmap_is_Some, (AddAll_dom calls _ s' k Hs').
    simpl. rewrite lookup_empty. split; [intros [?|[? ?]]; done | by left].
  - intros k r Hr. rewrite lookup_fmap in Hr.
    destruct (summaryData s' !! k) as [r0|] eqn:E; [|done]. simpl in Hr.
    rewrite copySummary_id in Hr. injection Hr as <-.
    destruct (AddAll_created_from_first calls (NewPingStatsStore maxRecent) s' k r0)
      as (first & _ & Hd & (Hdest & _)); [apply lookup_empty|done..|].
    by rewrite Hdest.
Qed.

(** The three hosts give three records and nothing under another address. *)
Lemma summary_three_hosts :
  (is_Some (GetSummary threeHosts !! "8.8.8.8") <->
   "8.8.8.8" ∈ (fun c : Time * PingStatistic => DecIp c.2)
                <$> [(1, hostA); (2, hostB); (3, hostC)]) /\
  (is_Some (GetSummary threeHosts !! "1.1.1.1") <->
   "1.1.1.1" ∈ (fun c : Time * PingStatistic => DecIp c.2)
                <$> [(1, hostA); (2, hostB); (3, hostC)]).
Proof.
  destruct (summary_has_one_record_per_destination 25
              [(1, hostA); (2, hostB); (3, hostC)] threeHosts) as [Hdom _].
  - vm_compute. reflexivity.
  - split; apply Hdom.
Defined.

(** ** A record and the calls for its destination *)

Lemma AddAll_app calls1 calls2 : forall s,
  AddAll s (calls1 ++ calls2) = (s1 ← AddAll s calls1; AddAll s1 calls2).
Proof.
  induction calls1 as [|[now stat] calls1 IH]; intros s; [done|].
  simpl. destruct (Add s now stat) as [s1|]; simpl; [apply IH | done].
Qed.

Lemma AddAll_snoc_inv calls now stat s s' :
  AddAll s (calls ++ [(now, stat)]) = Some s' ->
  exists s1, AddAll s calls = Some s1 /\ Add s1 now stat = Some s'.
Proof.
  rewrite AddAll_app. destruct (AddAll s calls) as [s1|]; simpl; [|done].
  intros H. exists s1. split; [done|].
  by destruct (Add s1 now stat).
Qed.

Lemma callsFor_snoc d calls c :
  callsFor d (calls ++ [c]) =
    if decide (DecIp c.2 = d) then callsFor d calls ++ [c] else callsFor d calls.
Proof.
  unfold callsFor. rewrite filter_app, filter_cons, filter_nil.
  case_decide; [done | by rewrite app_nil_r].
Qed.

Lemma Add_local s1 s2 now stat s1' :
  summaryData s1 !! DecIp stat = summaryData s2 !! DecIp stat ->
  Add s1 now stat = Some s1' ->
  exists s2', Add s2 now stat = Some s2' /\
              summaryData s2' !! DecIp stat = summaryData s1' !! DecIp stat.
Proof.
  intros Heq Hs1. destruct (Add_lookup_eq _ _ _ _ Hs1) as (r' & Hl & Hu).
  assert (Hloc : lookupOrCreate s2 stat = lookupOrCreate s1 stat)
    by (unfold lookupOrCreate; by rewrite Heq).
  exists {| summaryData := <[DecIp stat := r']> (summaryData s2);
            recentStats := pushRecent s2 stat; maxRecent := maxRecent s2 |}.
  unfold Add. rewrite Hloc, Hu. simpl. split; [done|].
  by rewrite lookup_insert_eq, Hl.
Qed.

(** X3. The record of a destination depends only on the results for that
    destination: adding the whole run, or only its calls for [d] in the same
    order, leaves the same record under [d] (so the order in which results
    for different destinations arrive does not matter to any record). *)
Theorem record_depends_only_on_its_calls :
  forall (d : string) (calls : list (Time * PingStatistic)) (s1 s2 s1' : PingStatsStore),
    summaryData s1 !! d = summaryData s2 !! d ->
    AddAll s1 calls = Some s1' ->
    exists s2', AddAll s2 (callsFor d calls) = Some s2' /\
                summaryData s2' !! d = summaryData s1' !! d.
Proof.
  intros d calls. induction calls as [|[now stat] calls IH]; intros s1 s2 s1' Heq Hs1;
    simpl in Hs1.
  - injection Hs1 as <-. by exists s2.
  - destruct (Add s1 now stat) as [s1a|] eqn:E; simpl in Hs1; [|discriminate].
    unfold callsFor. rewrite filter_cons. simpl. fold (callsFor d calls).
    destruct (decide (DecIp stat = d)) as [Hd|Hd].
    + subst d. destruct (Add_local s1 s2 now stat s1a Heq E) as (s2a & E2 & Heqa).
      destruct (IH s1a s2a s1' (eq_sym Heqa) Hs1) as (s2' & Hs2' & Heq').
      exists s2'. simpl. rewrite E2. by simpl.
    + apply (IH s1a s2 s1'); [|done].
      by rewrite (Add_lookup_ne _ _ _ _ d E).
Qed.

(** Host B alone gives the record it has among the three hosts. *)
Lemma record_of_host_B_alone :
  exists s2', AddAll (NewPingStatsStore 25)
                (callsFor "8.8.8.8" [(1, hostA); (2, hostB); (3, hostC)]) = Some s2' /\
              summaryData s2' !! "8.8.8.8" = summaryData threeHosts !! "8.8.8.8".
Proof.
  apply (record_depends_only_on_its_calls "8.8.8.8" [(1, hostA); (2, hostB); (3, hostC)]
           (NewPingStatsStore 25) (NewPingStatsStore 25) threeHosts).
  - reflexivity.
  - vm_compute. reflexivity.
Defined.

(** ** The counters and the time of the last update *)

Lemma wrap_add_wrap a b : Int64.add (Int64.wrap a) b = Int64.wrap (a + b).
Proof.
  unfold Int64.add, Int64.wrap.
  replace (((a + 2 ^ 63) mod 2 ^ 64 - 2 ^ 63 + b + 2 ^ 63))
    with ((a + 2 ^ 63) mod 2 ^ 64 + b) by lia.
  rewrite Zplus_mod_idemp_l. f_equal. f_equal. lia.
Qed.

Lemma sent_total_snoc calls c :
  sent_total (calls ++ [c]) = sent_total calls + PacketsSent (Statistic c.2).
Proof. unfold sent_total. induction calls as [|x calls IH]; simpl; lia. Qed.

Lemma recv_total_snoc calls c :
  recv_total (calls ++ [c]) = recv_total calls + PacketsRecv (Statistic c.2).
Proof. unfold recv_total. induction calls as [|x calls IH]; simpl; lia. Qed.

Lemma lookupOrCreate_totals s stat :
  (sTotalSent (lookupOrCreate s stat), sTotalRecv (lookupOrCreate s stat))
  = totals_state s (DecIp stat).
Proof.
  unfold lookupOrCreate, totals_state. by destruct (summaryData s !! DecIp stat).
Qed.

Lemma AddAll_totals d calls : forall s s',
  summaryData s !! d = None -> AddAll s calls = Some s' ->
  totals_state s' d =
    (Int64.wrap (sent_total (callsFor d calls)), Int64.wrap (recv_total (callsFor d calls))).
Proof.
  induction calls as [|[now stat] calls IH] using rev_ind; intros s s' Hnone Hs'.
  - simpl in Hs'. injection Hs' as <-. unfold totals_state. by rewrite Hnone.
  - apply AddAll_snoc_inv in Hs' as (s1 & Hs1 & Hadd).
    specialize (IH s s1 Hnone Hs1). rewrite callsFor_snoc. simpl.
    destruct (decide (DecIp stat = d)) as [Hd|Hd].
    + subst d. destruct (Add_lookup_eq _ _ _ _ Hadd) as (r' & Hl & Hu).
      apply updateSummary_inv in Hu as (_ & _ & _ & _ & _ & _ & Hsent & Hrecv & _).
      cbv zeta in Hrecv. pose proof (lookupOrCreate_totals s1 stat) as Hloc.
      rewrite IH in Hloc. injection Hloc as Hls Hlr.
      rewrite Hls in Hsent. rewrite Hlr in Hrecv.
      rewrite wrap_add_wrap in Hsent, Hrecv.
      unfold totals_state. rewrite Hl, Hsent, Hrecv.
      by rewrite sent_total_snoc, recv_total_snoc.
    + unfold totals_state in *. by rewrite (Add_lookup_ne _ _ _ _ d Hadd).
Qed.

Lemma AddAll_last_updated d calls : forall s s' r now stat,
  AddAll s calls = Some s' -> summaryData s' !! d = Some r ->
  last (callsFor d calls) = Some (now, stat) -> sLastUpdated r = now.
Proof.
  induction calls as [|[n1 st1] calls IH] using rev_ind; intros s s' r now stat Hs' Hr Hlast.
  - done.
  - apply AddAll_snoc_inv in Hs' as (s1 & Hs1 & Hadd).
    rewrite callsFor_snoc in Hlast. simpl in Hlast.
    destruct (decide (DecIp st1 = d)) as [Hd|Hd].
    + rewrite last_snoc in Hlast. injection Hlast as <- <-. subst d.
      destruct (Add_lookup_eq _ _ _ _ Hadd) as (r' & Hl & Hu).
      rewrite Hl in Hr. injection Hr as <-.
      by apply updateSummary_inv in Hu as (_ & _ & _ & _ & _ & Hnow & _).
    + rewrite (Add_lookup_ne _ _ _ _ d Hadd) in Hr by done.
      by apply (IH s s1 r now stat).
Qed.

(** X4. The counters of a record are the sums over the results for its
    destination, as 64-bit integers (so exactly the sums while these fit),
    and its update time is the clock reading of the last of those results. *)
Theorem counters_are_sums_and_time_is_last :
  forall (d : string) (calls : list (Time * PingStatistic)) (s s' : PingStatsStore)
         (r : SummaryStatistic),
    summaryData s !! d = None -> AddAll s calls = Some s' ->
    summaryData s' !! d = Some r ->
    sTotalSent r = Int64.wrap (sent_total (callsFor d calls)) /\
    sTotalRecv r = Int64.wrap (recv_total (callsFor d calls)) /\
    (Int64.in_range (sent_total (callsFor d calls)) ->
     sTotalSent r = sent_total (callsFor d calls)) /\
    (Int64.in_range (recv_total (callsFor d calls)) ->
     sTotalRecv r = recv_total (callsFor d calls)) /\
    (forall now stat, last (callsFor d calls) = Some (now, stat) -> sLastUpdated r = now).
Proof.
  intros d calls s s' r Hnone Hs' Hr.
  pose proof (AddAll_totals d calls s s' Hnone Hs') as Ht.
  unfold totals_state in Ht. rewrite Hr in Ht. injection Ht as Hsent Hrecv.
  split; [done|]. split; [done|]. split; [|split].
  - intros Hin. by rewrite Hsent, Int64Facts.wrap_id.
  - intros Hin. by rewrite Hrecv, Int64Facts.wrap_id.
  - intros now stat Hlast. by apply (AddAll_last_updated d calls s s' r now stat).
Qed.

(** After the scenario: 6 sent, 5 received, updated at the second reading. *)
Lemma counters_scenario :
  exists r, summaryData afterBoth !! "1.1.1.1" = Some r /\
            sTotalSent r = 6 /\ sTotalRecv r = 5 /\ sLastUpdated r = 2.
Proof.
  pose (r := default (newSummary firstStat) (summaryData afterBoth !! "1.1.1.1")).
  destruct (counters_are_sums_and_time_is_last "1.1.1.1" scenario
              (NewPingStatsStore 25) afterBoth r)
    as (_ & _ & Hsent & Hrecv & Hlast).
  - reflexivity.
  - vm_compute. reflexivity.
  - vm_compute. reflexivity.
  - exists r. split; [vm_compute; reflexivity|]. split; [|split].
    + rewrite Hsent; [reflexivity|]. vm_compute. split; discriminate.
    + rewrite Hrecv; [reflexivity|]. vm_compute. split; discriminate.
    + apply (Hlast 2 secondStat). vm_compute. reflexivity.
Defined.

(** ** The running averages of the minimum and of the maximum *)

(** What a successful update leaves in the two averages. *)
Lemma updateSummary_inv_rtt_avgs now sd sum r' :
  updateSummary now sd sum = Some r' ->
  let totalRecv := Int64.add (sTotalRecv sum) (PacketsRecv sd) in
  (if totalRecv >? PacketsRecv sd
   then mergeAvg (sMinRttAvg sum) totalRecv (PacketsRecv sd) (MinRtt sd)
   else Some (MinRtt sd)) = Some (sMinRttAvg r') /\
  (if totalRecv >? PacketsRecv sd
   then mergeAvg (sMaxRttAvg sum) totalRecv (PacketsRecv sd) (MaxRtt sd)
   else Some (MaxRtt sd)) = Some (sMaxRttAvg r').
Proof.
  unfold updateSummary. intros H.
  repeat match type of H with
         | (mbind _ ?x) = Some _ =>
             let E := fresh "E" in destruct x eqn:E; simpl in H; [|discriminate]
         end.
  injection H as <-. simpl. by split.
Qed.

Section RttAverage.

Variable d : string.
Variable B : Z.
Variable get : SummaryStatistic -> Z.
Variable val : Statistics -> Z.

Hypothesis get_update : forall now sd sum r',
  updateSummary now sd sum = Some r' ->
  (if Int64.add (sTotalRecv sum) (PacketsRecv sd) >? PacketsRecv sd
   then mergeAvg (get sum) (Int64.add (sTotalRecv sum) (PacketsRecv sd))
                 (PacketsRecv sd) (val sd)
   else Some (val sd)) = Some (get r').
Hypothesis get_new : forall stat, get (newSummary stat) = 0.

Lemma samples_by_snoc calls c :
  samples_by val d (calls ++ [c]) =
    if decide (DecIp c.2 = d)
    then samples_by val d calls ++ [(val (Statistic c.2), PacketsRecv (Statistic c.2))]
    else samples_by val d calls.
Proof.
  unfold samples_by. rewrite callsFor_snoc. case_decide; [|done].
  by rewrite fmap_app.
Qed.

Lemma samples_by_weight_nonneg calls :
  Forall (fun c : Time * PingStatistic => 0 <= PacketsRecv (Statistic c.2)) calls ->
  0 <= total_weight (samples_by val d calls).
Proof.
  induction calls as [|c calls IH] using rev_ind; intros Hall; [done|].
  apply Forall_app in Hall as [Hall Hc]. apply Forall_inv in Hc.
  rewrite samples_by_snoc. specialize (IH Hall).
  case_decide; [|done]. rewrite total_weight_snoc. simpl. lia.
Qed.

Lemma AddAll_rtt_avg calls : forall s,
  summaryData s !! d = None ->
  Forall (fun c : Time * PingStatistic =>
            0 <= PacketsRecv (Statistic c.2) /\
            (DecIp c.2 = d -> 0 <= val (Statistic c.2) <= B)) calls ->
  0 <= B ->
  total_weight (samples_by val d calls) <= Int64.max_int ->
  B * total_weight (samples_by val d calls) <= Int64.max_int ->
  exists s', AddAll s calls = Some s' /\
             rtt_state get d s' = spec_mean (samples_by val d calls) /\
             0 <= (rtt_state get d s').1 <= B.
Proof.
  induction calls as [|[now stat] calls IH] using rev_ind; intros s Hnone Hall HB HT HBT.
  { exists s. split; [done|]. unfold rtt_state. rewrite Hnone. simpl. split; [done | lia]. }
  apply Forall_app in Hall as [Hall Hc]. apply Forall_inv in Hc as [Hrecv Hv].
  simpl in Hrecv, Hv. rewrite samples_by_snoc in HT, HBT |- *. simpl in HT, HBT |- *.
  assert (Hnn : 0 <= total_weight (samples_by val d calls)).
  { apply samples_by_weight_nonneg. eapply Forall_impl; [exact Hall|]. by intros c [? _]. }
  destruct (decide (DecIp stat = d)) as [Hd|Hd].
  - rewrite total_weight_snoc in HT, HBT. simpl in HT, HBT.
    destruct (IH s Hnone Hall HB) as (s1 & Hs1 & Hst & Hrange); [lia | nia |].
    destruct (Add_is_Some s1 now stat Hrecv) as [s' Hs'].
    exists s'. rewrite AddAll_app, Hs1. simpl. rewrite Hs'. split; [done|].
    destruct (Add_lookup_eq _ _ _ _ Hs') as (r' & Hl & Hu).
    pose proof (get_update _ _ _ _ Hu) as Havg.
    apply updateSummary_inv in Hu as (_ & _ & _ & _ & _ & _ & _ & Htot & _).
    cbv zeta in Htot.
    assert (Hloc : (get (lookupOrCreate s1 stat), sTotalRecv (lookupOrCreate s1 stat))
                   = rtt_state get d s1).
    { unfold lookupOrCreate, rtt_state. rewrite Hd.
      destruct (summaryData s1 !! d); [done|]. by rewrite get_new. }
    rewrite spec_mean_snoc, <- Hst.
    destruct (rtt_state get d s1) as [m W] eqn:Est. simpl in Hrange.
    assert (HW : W = total_weight (samples_by val d calls)).
    { rewrite <- spec_mean_weight, <- Hst. done. }
    injection Hloc as Hm HWl. rewrite Hm, HWl in Havg. rewrite HWl in Htot.
    assert (Hmx : Int64.max_int = 2 ^ 63 - 1) by reflexivity.
    rewrite Int64Facts.add_exact in Havg, Htot
      by (unfold Int64.in_range, Int64.min_int; lia).
    specialize (Hv Hd).
    assert (Hres : get r' = spec_merge m W (val (Statistic stat)) (PacketsRecv (Statistic stat))
                   /\ 0 <= get r' <= B).
    { revert Havg.
      destruct (Z.gtb_spec (W + PacketsRecv (Statistic stat)) (PacketsRecv (Statistic stat)))
        as [Hgt|Hle]; intros Havg.
      - destruct (Z.eq_dec (PacketsRecv (Statistic stat)) 0) as [H0|H0].
        + (* nothing received: the mean is kept *)
          unfold mergeAvg in Havg. rewrite H0 in Havg |- *.
          replace (W + 0) with W in Havg by lia.
          rewrite Int64Facts.sub_exact in Havg by (unfold Int64.in_range, Int64.min_int; lia).
          replace (W - 0) with W in Havg by lia.
          rewrite !Int64Facts.mul_exact in Havg
            by (unfold Int64.in_range, Int64.min_int; nia).
          rewrite Int64Facts.add_exact in Havg
            by (unfold Int64.in_range, Int64.min_int; nia).
          replace (m * W + val (Statistic stat) * 0) with (m * W) in Havg by lia.
          assert (Hq : (m * W) ÷ W = m) by (apply Z.quot_mul; lia).
          rewrite Int64Facts.quo_exact in Havg;
            [|lia|rewrite Hq; unfold Int64.in_range, Int64.min_int; nia].
          rewrite Hq in Havg. injection Havg as <-.
          unfold spec_merge. destruct (Z.eqb_spec W 0); [lia|].
          replace (m * W + val (Statistic stat) * 0) with (m * W) by lia.
          replace (W + 0) with W by lia. rewrite Hq. split; [done | lia].
        + destruct (mergeAvg_exact B m W (val (Statistic stat)) (PacketsRecv (Statistic stat)))
            as [Hmerge Hr]; try done; try lia.
          rewrite Hmerge in Havg. by injection Havg as <-.
      - injection Havg as <-. unfold spec_merge.
        destruct (Z.eqb_spec W 0); [|lia]. split; [done | lia]. }
    destruct Hres as [Hget Hr'].
    rewrite Hd in Hl. unfold rtt_state. rewrite Hl. simpl.
    split; [|done]. unfold spec_step. simpl. by rewrite Hget, Htot.
  - destruct (IH s Hnone Hall HB HT HBT) as (s1 & Hs1 & Hst & Hrange).
    destruct (Add_is_Some s1 now stat Hrecv) as [s' Hs'].
    exists s'. rewrite AddAll_app, Hs1. simpl. rewrite Hs'. split; [done|].
    assert (Heq : rtt_state get d s' = rtt_state get d s1).
    { unfold rtt_state. by rewrite (Add_lookup_ne _ _ _ _ d Hs'). }
    by rewrite Heq.
Qed.

End RttAverage.

Lemma total_weight_samples_by val d calls :
  total_weight (samples_by val d calls) = recv_total (callsFor d calls).
Proof.
  unfold samples_by. induction (callsFor d calls) as [|c l IH]; [done|].
  rewrite fmap_cons, total_weight_cons, IH. reflexivity.
Qed.

(** X5. The running averages of the minimum and of the maximum follow the
    same merge rule as the average, weighted by the packets received: the
    first result's value, then [(m*W + v*w) / (W + w)].  Unlike the average
    they follow it for results that received nothing too.  (Values within
    [0, B] and [B] times the packets received within the 64-bit range.) *)
Theorem min_max_averages_follow_the_rule :
  forall (d : string) (B : Z) (s : PingStatsStore) (calls : list (Time * PingStatistic)),
    summaryData s !! d = None ->
    Forall (rtt_within d B) calls ->
    callsFor d calls <> [] ->
    recv_total (callsFor d calls) <= Int64.max_int ->
    B * recv_total (callsFor d calls) <= Int64.max_int ->
    exists s' r,
      AddAll s calls = Some s' /\ summaryData s' !! d = Some r /\
      sMinRttAvg r = (spec_mean (samples_by MinRtt d calls)).1 /\
      sMaxRttAvg r = (spec_mean (samples_by MaxRtt d calls)).1.
Proof.
  intros d B s calls Hnone Hall Hne HT HBT.
  assert (Hin : exists c, c ∈ calls /\ DecIp c.2 = d).
  { destruct (callsFor d calls) as [|c l] eqn:E; [done|].
    assert (Hc : c ∈ callsFor d calls) by (rewrite E; left).
    apply list_elem_of_filter in Hc as [? ?]. eauto. }
  destruct Hin as (c & Hc & Hcd).
  assert (HB : 0 <= B).
  { rewrite Forall_forall in Hall. destruct (Hall c Hc) as [_ Hr].
    destruct (Hr Hcd) as [? _]. lia. }
  destruct (AddAll_rtt_avg d B sMinRttAvg MinRtt) with (calls := calls) (s := s)
    as (s' & Hs' & Hmin & _); try done.
  { intros now sd sum r' Hu. by apply updateSummary_inv_rtt_avgs in Hu as [? _]. }
  { eapply Forall_impl; [exact Hall|]. intros x [? Hx]. split; [done|].
    intros Hd. by destruct (Hx Hd). }
  { by rewrite total_weight_samples_by. }
  { by rewrite total_weight_samples_by. }
  destruct (AddAll_rtt_avg d B sMaxRttAvg MaxRtt) with (calls := calls) (s := s)
    as (s'' & Hs'' & Hmax & _); try done.
  { intros now sd sum r' Hu. by apply updateSummary_inv_rtt_avgs in Hu as [_ ?]. }
  { eapply Forall_impl; [exact Hall|]. intros x [? Hx]. split; [done|].
    intros Hd. by destruct (Hx Hd). }
  { by rewrite total_weight_samples_by. }
  { by rewrite total_weight_samples_by. }
  rewrite Hs' in Hs''. injection Hs'' as <-.
  assert (Hsome : is_Some (summaryData s' !! d)).
  { apply (AddAll_dom calls s s' d Hs'). left.
    apply list_elem_of_fmap. exists c. by split. }
  destruct Hsome as [r Hr]. exists s', r.
  unfold rtt_state in Hmin, Hmax. rewrite Hr in Hmin, Hmax.
  split; [done|]. split; [done|]. by rewrite <- Hmin, <- Hmax.
Qed.

(** The scenario: minima of 10ms and 8ms weighted 3 and 2 average to 9.2ms,
    maxima of 30ms and 25ms to 28ms. *)
Lemma min_max_averages_scenario :
  exists s' r,
    AddAll (NewPingStatsStore 25) scenario = Some s' /\
    summaryData s' !! "1.1.1.1" = Some r /\
    sMinRttAvg r = 9200000 /\ sMaxRttAvg r = 28 * Millisecond.
Proof.
  destruct (min_max_averages_follow_the_rule "1.1.1.1" (30 * Millisecond)
              (NewPingStatsStore 25) scenario)
    as (s' & r & Hs' & Hr & Hmin & Hmax).
  - reflexivity.
  - unfold scenario, rtt_within, firstStat, secondStat, mkStat, Millisecond.
    repeat (apply Forall_cons; split); [..|apply Forall_nil]; simpl; lia.
  - vm_compute. discriminate.
  - vm_compute. discriminate.
  - vm_compute. discriminate.
  - exists s', r. split; [exact Hs'|]. split; [exact Hr|].
    split; [rewrite Hmin | rewrite Hmax]; reflexivity.
Defined.

(** ** The grouped summary *)

Lemma groupByIsp_lookup records isp :
  groupByIsp records !! isp =
    match filter (fun v => sIsp v = isp) records with
    | [] => None
    | group => Some group
    end.
Proof.
  induction records as [|v records IH] using rev_ind.
  - unfold groupByIsp. simpl. by rewrite lookup_empty.
  - rewrite groupByIsp_snoc, filter_app, filter_cons, filter_nil, copySummary_id.
    destruct (decide (sIsp v = isp)) as [Hv|Hv].
    + rewrite Hv, lookup_insert_eq, IH.
      by destruct (filter (fun v => sIsp v = isp) records).
    + rewrite lookup_insert_ne by done. by rewrite app_nil_r.
Qed.

Lemma foldl_app_concat {A} (f : list A -> list A) (lists : list (list A)) : forall result,
  foldl (fun result list => result ++ f list) result lists = result ++ concat (f <$> lists).
Proof.
  induction lists as [|list lists IH]; intros result; simpl.
  - by rewrite app_nil_r.
  - by rewrite IH, app_assoc.
Qed.

Lemma concat_filter_cons_perm {A K} `{EqDecision K} (f : A -> K) (v : A) (l : list A)
    (ks : list K) :
  NoDup ks -> f v ∈ ks ->
  concat ((fun k => filter (fun x => f x = k) (v :: l)) <$> ks)
  ≡ₚ v :: concat ((fun k => filter (fun x => f x = k) l) <$> ks).
Proof.
  induction 1 as [|k ks Hk Hnd IH]; intros Hin; [by apply elem_of_nil in Hin|].
  rewrite !fmap_cons. simpl. rewrite filter_cons.
  destruct (decide (f v = k)) as [Hv|Hv].
  - assert (Hsame : (fun k => filter (fun x => f x = k) (v :: l)) <$> ks
                    = (fun k => filter (fun x => f x = k) l) <$> ks).
    { apply list_fmap_ext. intros i k' Hk'. rewrite filter_cons.
      destruct (decide (f v = k')) as [Heq|]; [|done].
      apply list_elem_of_lookup_2 in Hk'. congruence. }
    by rewrite Hsame.
  - apply elem_of_cons in Hin as [?|Hin]; [done|].
    rewrite (IH Hin). by rewrite Permutation_middle.
Qed.

Lemma concat_filter_perm {A K} `{EqDecision K} (f : A -> K) (l : list A) (ks : list K) :
  NoDup ks -> (forall v, v ∈ l -> f v ∈ ks) ->
  concat ((fun k => filter (fun x => f x = k) l) <$> ks) ≡ₚ l.
Proof.
  intros Hnd. induction l as [|v l IH]; intros Hin.
  - clear. induction ks as [|k ks IHk]; [done|]. rewrite fmap_cons. simpl. exact IHk.
  - rewrite concat_filter_cons_perm; [|done|apply Hin; left].
    constructor. apply IH. intros x Hx. apply Hin. by right.
Qed.

Lemma lessGrouped_ordering field (l : list SummaryStatistic) :
  (groupedByLoss field = true -> Forall lossIsNumber l) ->
  TransitiveOrdering (lessGrouped field) l.
Proof.
  unfold lessGrouped, groupedByLoss. intros H.
  destruct (String.eqb field "loss") eqn:El.
  { apply loss_ordering. apply H. apply String.eqb_eq in El. by subst field. }
  destruct (String.eqb field "rtt"); [apply (Zltb_ordering sAvgRtt)|].
  destruct (String.eqb field "sent"); [apply (Zltb_ordering sTotalSent)|].
  destruct (String.eqb field "recv"); [apply (Zltb_ordering sTotalRecv)|].
  apply loss_ordering. by apply H.
Qed.

Lemma lessGrouped_asym field x y :
  lessGrouped field x y = true -> lessGrouped field y x = false.
Proof.
  unfold lessGrouped.
  destruct (String.eqb field "loss"); [apply float_ltb_asym|].
  repeat (destruct (String.eqb field _); [lia|]). apply float_ltb_asym.
Qed.

(** X6. The grouped summary is the concatenation, in the order the groups
    are visited, of one block per ISP; a block holds exactly the store's
    records of that ISP, sorted by the chosen field, ascending or descending
    (losses being numbers when the field is the loss).  When both visits are
    proper visits of their maps, the whole is a rearrangement of the store's
    records. *)
Theorem grouped_summary_is_sorted_blocks :
  forall (sort_Slice : Sorter) (s : PingStatsStore) (order ispOrder : list string)
         (field : string) (descending : bool),
    SortSlice sort_Slice ->
    let records := rangeValues (summaryData s) order in
    let block isp :=
      sort_Slice _ (fun i j => direction descending (lessGrouped field i j))
                 (filter (fun v => sIsp v = isp) records) in
    GetSummarySortedGroupedByIsp sort_Slice s order ispOrder field descending
      = concat (block <$> ispOrder) /\
    (forall isp, block isp ≡ₚ filter (fun v => sIsp v = isp) records) /\
    ((groupedByLoss field = true ->
      forall k r, summaryData s !! k = Some r -> lossIsNumber r) ->
     forall isp, if descending then Descending (lessGrouped field) (block isp)
                 else Ascending (lessGrouped field) (block isp)) /\
    (RangeOrder (summaryData s) order -> RangeOrder (groupByIsp records) ispOrder ->
     GetSummarySortedGroupedByIsp sort_Slice s order ispOrder field descending
       ≡ₚ (map_to_list (summaryData s)).*2).
Proof.
  intros sort_Slice s order ispOrder field descending Hsort records block.
  set (less := fun i j => direction descending (lessGrouped field i j)).
  assert (Hnil : sort_Slice _ less [] = []).
  { destruct (Hsort _ less []) as [Hp _]. by apply Permutation_nil_r in Hp. }
  assert (Heq : GetSummarySortedGroupedByIsp sort_Slice s order ispOrder field descending
                = concat (block <$> ispOrder)).
  { unfold GetSummarySortedGroupedByIsp. fold records. fold less.
    rewrite (foldl_app_concat (sort_Slice _ less)). simpl.
    induction ispOrder as [|isp ispOrder IH]; [done|].
    change (rangeValues (groupByIsp records) (isp :: ispOrder)) with
      (match groupByIsp records !! isp with
       | Some group => group :: rangeValues (groupByIsp records) ispOrder
       | None => rangeValues (groupByIsp records) ispOrder
       end).
    rewrite groupByIsp_lookup, (fmap_cons block). cbn [concat]. rewrite <- IH.
    unfold block at 1. fold less.
    destruct (filter (fun v => sIsp v = isp) records) as [|v group] eqn:E.
    - by rewrite Hnil.
    - by rewrite fmap_cons. }
  assert (Hblock : forall isp, block isp ≡ₚ filter (fun v => sIsp v = isp) records).
  { intros isp. unfold block. by destruct (Hsort _ less (filter (fun v => sIsp v = isp) records)). }
  split; [exact Heq|]. split; [exact Hblock|]. split.
  - intros Hnan isp.
    assert (Hord : OrderedBy less (block isp)).
    { unfold block. fold less.
      destruct (Hsort _ less (filter (fun v => sIsp v = isp) records)) as [_ Hs].
      apply Hs. apply (TransitiveOrdering_direction (lessGrouped field)).
      apply lessGrouped_ordering. intros Hf. apply Forall_forall. intros x Hx.
      apply list_elem_of_filter in Hx as [_ Hx].
      apply elem_of_rangeValues in Hx as [k Hk]. by apply (Hnan Hf k). }
    destruct descending.
    + apply OrderedBy_descending; [apply lessGrouped_asym | done].
    + apply OrderedBy_ascending; [apply lessGrouped_asym | done].
  - intros Ho Hio. rewrite Heq.
    assert (Hchunks : concat (block <$> ispOrder)
                      ≡ₚ concat ((fun isp => filter (fun v => sIsp v = isp) records)
                                   <$> ispOrder)).
    { clear -Hblock. induction ispOrder as [|isp ispOrder IH]; [done|].
      rewrite !fmap_cons. simpl. by rewrite IH, Hblock. }
    rewrite Hchunks, concat_filter_perm.
    + by apply rangeValues_perm.
    + unfold RangeOrder in Hio. rewrite Hio. apply NoDup_fst_map_to_list.
    + intros v Hv. unfold RangeOrder in Hio. rewrite Hio.
      apply list_elem_of_fmap.
      destruct (filter (fun x => sIsp x = sIsp v) records) as [|x group] eqn:E.
      * assert (Hin : v ∈ filter (fun x => sIsp x = sIsp v) records)
          by (by apply list_elem_of_filter).
        rewrite E in Hin. by apply elem_of_nil in Hin.
      * exists (sIsp v, x :: group). split; [done|].
        apply elem_of_map_to_list. by rewrite groupByIsp_lookup, E.
Qed.

(** The three hosts, one per ISP: three blocks of one record each. *)
Lemma grouped_summary_three_hosts :
  GetSummarySortedGroupedByIsp insertionSort_func threeHosts
    ["9.9.9.9"; "8.8.8.8"; "7.7.7.7"] ["yd"; "dx"; "lt"] "rtt" true
  = concat ((fun isp =>
               insertionSort_func _ (fun i j => direction true (lessGrouped "rtt" i j))
                 (filter (fun v => sIsp v = isp)
                    (rangeValues (summaryData threeHosts)
                       ["9.9.9.9"; "8.8.8.8"; "7.7.7.7"])))
              <$> ["yd"; "dx"; "lt"]).
Proof.
  apply (grouped_summary_is_sorted_blocks insertionSort_func threeHosts
           ["9.9.9.9"; "8.8.8.8"; "7.7.7.7"] ["yd"; "dx"; "lt"] "rtt" true).
  exact insertionSort_func_SortSlice.
Defined.

(** ** The whole of [HandleDPing] *)

Lemma AddAll_is_Some calls : forall s,
  Forall (fun c : Time * PingStatistic => 0 <= PacketsRecv (Statistic c.2)) calls ->
  is_Some (AddAll s calls).
Proof.
  induction calls as [|[now stat] calls IH]; intros s Hall; simpl; [eauto|].
  apply Forall_cons in Hall as [Hc Hall].
  destruct (Add_is_Some s now stat Hc) as [s1 ->]. simpl. by apply IH.
Qed.

Lemma rangeValues_empty {V} (order : list string) : rangeValues (∅ : gmap string V) order = [].
Proof.
  unfold rangeValues. induction order as [|k order IH]; [done|].
  simpl. by rewrite lookup_empty.
Qed.

(** X7. The consumer always comes to its end on results with no negative
    count (fewer than [2^63] of them): it has fed the store the results whose
    loss is not 100, it reports as progress the number of results received,
    lost ones included, and it prints the grouped summary of the store and,
    as loss-only view, the rows of that summary whose loss is above zero.
    When nothing reached the store both lists are empty. *)
Theorem handle_dping_outputs :
  forall (sort_Slice : Sorter) (maxRecent : Z) (received : list (Time * PingStatistic))
         (order ispOrder : list string) (field : string) (des : bool),
    SortSlice sort_Slice ->
    Forall (fun c : Time * PingStatistic => 0 <= PacketsRecv (Statistic c.2)) received ->
    Int64.in_range (Z.of_nat (length received)) ->
    exists s' summary lossOnly,
      AddAll (NewPingStatsStore maxRecent) (aggregated received) = Some s' /\
      HandleDPing sort_Slice (NewPingStatsStore maxRecent) received order ispOrder field des
        = Some (summary, lossOnly, Z.of_nat (length received)) /\
      summary = GetSummarySortedGroupedByIsp sort_Slice s' order ispOrder field des /\
      (forall x, x ∈ lossOnly <-> x ∈ summary /\ (0 <? sPacketLoss x)%float = true) /\
      (aggregated received = [] -> summary = [] /\ lossOnly = []).
Proof.
  intros sort_Slice maxRecent received order ispOrder field des Hsort Hall Hlen.
  assert (Hagg : Forall (fun c : Time * PingStatistic => 0 <= PacketsRecv (Statistic c.2))
                        (aggregated received)).
  { rewrite Forall_forall in Hall |- *. intros c Hc. apply Hall.
    unfold aggregated in Hc. by apply filter_elem_of in Hc as [? _]. }
  destruct (AddAll_is_Some (aggregated received) (NewPingStatsStore maxRecent) Hagg)
    as [s' Hs'].
  set (summary := GetSummarySortedGroupedByIsp sort_Slice s' order ispOrder field des).
  set (lossOnly := GetLossOnlyGroupedByIspSorted sort_Slice summary field des).
  exists s', summary, lossOnly. split; [done|]. split.
  { unfold HandleDPing. rewrite handleResults_aggregated.
    - rewrite Hs'. simpl. done.
    - unfold Int64.in_range, Int64.min_int, Int64.max_int. lia.
    - done. }
  split; [done|]. split.
  - intros x. unfold lossOnly, GetLossOnlyGroupedByIspSorted.
    rewrite (sort_Slice_elem_of sort_Slice Hsort).
    apply (filter_elem_of (fun v => (0 <? sPacketLoss v)%float)).
  - intros Hnil. rewrite Hnil in Hs'. simpl in Hs'. injection Hs' as <-.
    assert (Hsum : summary = []).
    { unfold summary, GetSummarySortedGroupedByIsp. simpl.
      rewrite rangeValues_empty. unfold groupByIsp. simpl.
      by rewrite rangeValues_empty. }
    split; [done|]. unfold lossOnly, GetLossOnlyGroupedByIspSorted. rewrite Hsum. simpl.
    destruct (Hsort _ (fun i j => direction des (lessLossOnly field i j)) []) as [Hp _].
    by apply Permutation_nil_r in Hp.
Qed.

(** A stream of one result, fully lost: counted, and nothing to print. *)
Lemma handle_dping_only_lost :
  HandleDPing insertionSort_func (NewPingStatsStore 25) [(1, lostStat)] [] [] "loss" false
  = Some ([], [], 1).
Proof.
  destruct (handle_dping_outputs insertionSort_func 25 [(1, lostStat)] [] [] "loss" false)
    as (s' & summary & lossOnly & _ & Hrun & _ & _ & Hempty).
  - exact insertionSort_func_SortSlice.
  - repeat constructor. simpl. lia.
  - vm_compute. split; discriminate.
  - destruct Hempty as [-> ->]; [reflexivity|]. exact Hrun.
Defined.

(** ** The footer of the printed table *)

Module PrintSummaryListFacts.
Import PrintSummaryList.

Lemma received_cons r rows : received (r :: rows) = sTotalRecv r + received rows.
Proof. reflexivity. Qed.

Lemma weighted_cons get r rows :
  weighted get (r :: rows) = get r * sTotalRecv r + weighted get rows.
Proof. reflexivity. Qed.

Lemma received_nonneg B rows : Forall (row_within B) rows -> 0 <= received rows.
Proof.
  induction 1 as [|r rows [Hr _] _ IH]; [done|]. rewrite received_cons. lia.
Qed.

(** The loop keeps each accumulator on its own. *)
Lemma foldl_addRow rows : forall t,
  let count a r := Int64.add a (sTotalRecv r) in
  let weigh (get : SummaryStatistic -> Z) a r :=
    Int64.add a (Int64.mul (get r) (sTotalRecv r)) in
  totalRecv (foldl addRow t rows) = foldl count (totalRecv t) rows /\
  rttCount (foldl addRow t rows) = foldl count (rttCount t) rows /\
  globalMinRtt (foldl addRow t rows) = foldl (weigh sMinRtt) (globalMinRtt t) rows /\
  globalMaxRtt (foldl addRow t rows) = foldl (weigh sMaxRtt) (globalMaxRtt t) rows /\
  globalAvgRtt (foldl addRow t rows) = foldl (weigh sAvgRtt) (globalAvgRtt t) rows.
Proof.
  induction rows as [|r rows IH]; intros t; simpl; [done|]. apply IH.
Qed.

Lemma count_exact B rows : forall a,
  Forall (row_within B) rows -> 0 <= a -> a + received rows <= Int64.max_int ->
  foldl (fun a r => Int64.add a (sTotalRecv r)) a rows = a + received rows.
Proof.
  induction rows as [|r rows IH]; intros a Hall Ha Hmax; cbn [foldl].
  - change (received []) with 0. lia.
  - apply Forall_cons in Hall as [[Hr _] Hall]. rewrite received_cons in Hmax |- *.
    pose proof (received_nonneg B rows Hall).
    assert (Hmx : Int64.max_int = 2 ^ 63 - 1) by reflexivity.
    rewrite Int64Facts.add_exact by (unfold Int64.in_range, Int64.min_int; lia).
    rewrite IH; [lia | done | lia | lia].
Qed.

Section Weighted.

Variable get : SummaryStatistic -> Z.
Variable B : Z.
Hypothesis B_nonneg : 0 <= B.

Lemma weighted_bounds rows :
  Forall (get_within get B) rows ->
  0 <= received rows /\ 0 <= weighted get rows <= B * received rows.
Proof.
  induction 1 as [|r rows [Hr Hg] _ IH]; [change (received []) with 0; cbn; lia|].
  rewrite received_cons, weighted_cons.
  destruct (Z.eq_dec (sTotalRecv r) 0) as [H0|H0]; [rewrite H0; lia|].
  assert (0 <= get r <= B) by (apply Hg; lia). nia.
Qed.

Lemma weigh_exact rows : forall a,
  Forall (get_within get B) rows -> 0 <= a -> a + B * received rows <= Int64.max_int ->
  foldl (fun a r => Int64.add a (Int64.mul (get r) (sTotalRecv r))) a rows
  = a + weighted get rows.
Proof.
  induction rows as [|r rows IH]; intros a Hall Ha Hmax; cbn [foldl].
  - change (weighted get []) with 0. lia.
  - apply Forall_cons in Hall as [[Hr Hg] Hall].
    rewrite received_cons in Hmax. rewrite weighted_cons.
    destruct (weighted_bounds rows Hall) as (Hrecv & Hw0 & HwB).
    assert (Hmx : Int64.max_int = 2 ^ 63 - 1) by reflexivity.
    assert (Hprod : 0 <= get r * sTotalRecv r <= B * sTotalRecv r).
    { destruct (Z.eq_dec (sTotalRecv r) 0) as [H0|H0]; [rewrite H0; lia|].
      assert (0 <= get r <= B) by (apply Hg; lia). nia. }
    rewrite Int64Facts.mul_exact by (unfold Int64.in_range, Int64.min_int; nia).
    rewrite Int64Facts.add_exact by (unfold Int64.in_range, Int64.min_int; nia).
    rewrite IH; [lia | done | lia | nia].
Qed.

Lemma divideByCount_mean rows :
  Forall (get_within get B) rows -> B * received rows <= Int64.max_int ->
  let mean := divideByCount (received rows) (weighted get rows) in
  (0 < received rows -> mean = weighted get rows ÷ received rows) /\
  (received rows = 0 -> mean = 0) /\
  0 <= mean <= B.
Proof.
  intros Hall Hmax. destruct (weighted_bounds rows Hall) as (Hrecv & Hw0 & HwB).
  unfold divideByCount. cbv zeta.
  assert (Hmx : Int64.max_int = 2 ^ 63 - 1) by reflexivity.
  destruct (Z.gtb_spec (received rows) 0) as [Hpos|Hzero].
  - assert (Hq : 0 <= weighted get rows ÷ received rows <= B).
    { rewrite Z.quot_div_nonneg by lia. split.
      - apply Z.div_pos; lia.
      - apply Z.div_le_upper_bound; nia. }
    assert (B <= Int64.max_int) by nia.
    rewrite Int64Facts.wrap_id by (unfold Int64.in_range, Int64.min_int; lia).
    split; [done|]. split; [lia | done].
  - assert (weighted get rows = 0) by nia. split; [lia|]. split; [done | lia].
Qed.

End Weighted.

(** X8. The footer's three times are means over the rows weighted by the
    packets each row received: the sum of time times packets, divided by the
    packets received in all.  A row that received nothing has no part in
    them, and when no row received anything they are zero: nothing is
    divided.  (Times of rows that received are within [0, B], and [B] times
    the packets received fits in 64 bits.) *)
Theorem footer_times_are_weighted_means :
  forall (B : Z) (rows : list SummaryStatistic),
    0 <= B -> Forall (row_within B) rows ->
    received rows <= Int64.max_int -> B * received rows <= Int64.max_int ->
    let f := footer rows in
    footRecv f = received rows /\
    (0 < received rows ->
     footMinRtt f = weighted sMinRtt rows ÷ received rows /\
     footMaxRtt f = weighted sMaxRtt rows ÷ received rows /\
     footAvgRtt f = weighted sAvgRtt rows ÷ received rows) /\
    (received rows = 0 -> footMinRtt f = 0 /\ footMaxRtt f = 0 /\ footAvgRtt f = 0) /\
    0 <= footMinRtt f <= B /\ 0 <= footMaxRtt f <= B /\ 0 <= footAvgRtt f <= B.
Proof.
  intros B rows HB Hall Hmax HBmax f.
  destruct (foldl_addRow rows noTotals) as (Hrecv & Hcount & Hmin & Hmaxr & Havg).
  simpl in Hrecv, Hcount, Hmin, Hmaxr, Havg.
  pose proof (received_nonneg B rows Hall) as Hnn.
  rewrite (count_exact B) in Hrecv, Hcount by (done || lia).
  assert (Hmin' : Forall (get_within sMinRtt B) rows).
  { eapply Forall_impl; [exact Hall|]. intros r [? Hr]. split; [done|].
    intros Hp. by destruct (Hr Hp) as (? & _ & _). }
  assert (Hmax' : Forall (get_within sMaxRtt B) rows).
  { eapply Forall_impl; [exact Hall|]. intros r [? Hr]. split; [done|].
    intros Hp. by destruct (Hr Hp) as (_ & ? & _). }
  assert (Havg' : Forall (get_within sAvgRtt B) rows).
  { eapply Forall_impl; [exact Hall|]. intros r [? Hr]. split; [done|].
    intros Hp. by destruct (Hr Hp) as (_ & _ & ?). }
  rewrite (weigh_exact sMinRtt B) in Hmin by (done || lia).
  rewrite (weigh_exact sMaxRtt B) in Hmaxr by (done || lia).
  rewrite (weigh_exact sAvgRtt B) in Havg by (done || lia).
  rewrite Z.add_0_l in Hrecv, Hcount, Hmin, Hmaxr, Havg.
  unfold f, footer. cbv zeta. simpl.
  rewrite Hrecv, Hcount, Hmin, Hmaxr, Havg.
  destruct (divideByCount_mean sMinRtt B HB rows Hmin' HBmax) as (Hm1 & Hm2 & Hm3).
  destruct (divideByCount_mean sMaxRtt B HB rows Hmax' HBmax) as (Hx1 & Hx2 & Hx3).
  destruct (divideByCount_mean sAvgRtt B HB rows Havg' HBmax) as (Ha1 & Ha2 & Ha3).
  cbv zeta in *. split; [lia|]. split; [|split].
  - intros Hp. by rewrite Hm1, Hx1, Ha1.
  - intros Hz. by rewrite Hm2, Hx2, Ha2.
  - done.
Qed.

(** The three hosts: 2, 9 and 3 packets received with averages of 40ms, 7ms
    and 12ms give 14 packets and a global average of 179ms / 14. *)
Lemma footer_three_hosts :
  let rows := (map_to_list (summaryData threeHosts)).*2 in
  footRecv (footer rows) = 14 /\ footAvgRtt (footer rows) = 12785714.
Proof.
  destruct (footer_times_are_weighted_means (50 * Millisecond)
              (map_to_list (summaryData threeHosts)).*2)
    as (Hrecv & Hmeans & _).
  - unfold Millisecond. lia.
  - apply Forall_forall. intros r Hr. apply elem_of_map_values in Hr as [k Hk].
    revert k r Hk. apply map_Forall_lookup. apply (bool_decide_unpack _).
    vm_compute. reflexivity.
  - vm_compute. discriminate.
  - vm_compute. discriminate.
  - split; [rewrite Hrecv; reflexivity|].
    destruct Hmeans as (_ & _ & Havg); [vm_compute; reflexivity|].
    rewrite Havg. reflexivity.
Defined.

End PrintSummaryListFacts.

(** ** What the selector hands on *)

(** X9. Whatever is requested, the parameters the run goes on with are
    valid: the ISP is one of the closed set, the region is the whole country
    or a region of the catalog for that ISP.  Validating them again changes
    nothing and warns of nothing, and a request comes back unchanged exactly
    when no warning was logged. *)
Theorem selected_parameters_are_valid :
  forall (isp detection : string) (dns : DNSConfig),
    let ispVal := (selectParams isp detection dns).1.1 in
    let regionVal := (selectParams isp detection dns).1.2 in
    let warnings := (selectParams isp detection dns).2 in
    ispVal ∈ knownIsps /\
    (regionVal = "全国" \/ regionInCatalog dns ispVal regionVal) /\
    selectParams ispVal regionVal dns = (ispVal, regionVal, []) /\
    (warnings = [] <-> ispVal = isp /\ regionVal = detection).
Proof.
  intros isp detection dns.
  assert (Hsel : forall i r, i ∈ knownIsps ->
            (r = "全国" \/ regionInCatalog dns i r) -> selectParams i r dns = (i, r, [])).
  { intros i r Hi Hr. unfold selectParams, selectIsp, selectRegion.
    rewrite validIsps_known, bool_decide_eq_true_2 by done. simpl.
    destruct Hr as [->|Hr]; [by rewrite String.eqb_refl|].
    apply isRegionExist_catalog in Hr; [|done]. rewrite Hr. by rewrite andb_false_r. }
  cbv zeta. remember (selectParams isp detection dns) as r eqn:Er0.
  unfold selectParams, selectIsp in Er0. rewrite validIsps_known in Er0.
  assert (Hall : "all" ∈ knownIsps) by (unfold knownIsps; rewrite !elem_of_cons; tauto).
  destruct (bool_decide (isp ∈ knownIsps)) eqn:Ek; simpl in Er0.
  - apply bool_decide_eq_true in Ek. unfold selectRegion in Er0.
    destruct (String.eqb_spec detection "全国") as [->|Hne]; simpl in Er0.
    + subst r; simpl. split; [done|]. split; [by left|]. split; [by apply Hsel; [|left]|]. done.
    + destruct (isRegionExist isp detection dns) eqn:Er; simpl in Er0; subst r; simpl.
      * apply isRegionExist_catalog in Er; [|done].
        split; [done|]. split; [by right|]. split; [by apply Hsel; [|right]|]. done.
      * split; [done|]. split; [by left|]. split; [by apply Hsel; [|left]|].
        split; [done | by intros [_ ?]].
  - apply bool_decide_eq_false in Ek.
    assert (Hisp : "all" <> isp) by (intros <-; done).
    unfold selectRegion in Er0.
    destruct (String.eqb_spec detection "全国") as [->|Hne]; simpl in Er0.
    + subst r; simpl. split; [done|]. split; [by left|]. split; [by apply Hsel; [|left]|].
      split; [done | by intros [? _]].
    + destruct (isRegionExist "all" detection dns) eqn:Er; simpl in Er0; subst r; simpl.
      * apply isRegionExist_catalog in Er; [|done].
        split; [done|]. split; [by right|]. split; [by apply Hsel; [|right]|].
        split; [done | by intros [? _]].
      * split; [done|]. split; [by left|]. split; [by apply Hsel; [|left]|].
        split; [done | by intros [? _]].
Qed.

(** ** The targets of a run *)

Lemma elem_of_processIPs ipList region ispName t :
  t ∈ (processIPs ipList region ispName).1 <->
  exists ip, ip ∈ ipList /\ t = {| tAddress := ip; tRegion := region; tIsp := ispName |}.
Proof.
  unfold processIPs. destruct ipList as [|ip0 ipList]; simpl.
  - rewrite elem_of_nil. split; [done|]. intros (ip & Hip & _). by apply elem_of_nil in Hip.
  - rewrite elem_of_cons, list_elem_of_fmap. split.
    + intros [->|(ip & -> & Hip)]; [exists ip0 | exists ip]; split; try done; [left | by right].
    + intros (ip & Hip & ->). apply elem_of_cons in Hip as [->|Hip]; [by left | right; eauto].
Qed.

Lemma elem_of_concat_fst {A B} (parts : list (list A * B)) (x : A) :
  x ∈ concat parts.*1 <-> exists p, p ∈ parts /\ x ∈ p.1.
Proof.
  induction parts as [|p parts IH].
  - simpl. rewrite elem_of_nil. split; [done|]. intros (p & Hp & _). by apply elem_of_nil in Hp.
  - rewrite fmap_cons. simpl. rewrite elem_of_app, IH. split.
    + intros [Hx|(q & Hq & Hx)]; [exists p | exists q]; split; try done; [left | by right].
    + intros (q & Hq & Hx). apply elem_of_cons in Hq as [->|Hq]; [by left | right; eauto].
Qed.

Lemma getIPList_catalog dns ispName region ip :
  ip ∈ getIPList dns ispName region <->
  exists regions cfg, ispRegions dns !! ispName = Some regions /\
                      regions !! region = Some cfg /\ ip ∈ IPv4 cfg.
Proof.
  unfold getIPList. split.
  - intros Hip.
    destruct (String.eqb_spec ispName "电信") as [->|H1];
      [|destruct (String.eqb_spec ispName "联通") as [->|H2];
        [|destruct (String.eqb_spec ispName "移动") as [->|H3]]].
    + destruct (Dx dns !! region) as [cfg|] eqn:E; [|by apply elem_of_nil in Hip].
      exists (Dx dns), cfg. rewrite ispRegions_lookup. split; [by left | done].
    + destruct (Lt dns !! region) as [cfg|] eqn:E; [|by apply elem_of_nil in Hip].
      exists (Lt dns), cfg. rewrite ispRegions_lookup. split; [right; by left | done].
    + destruct (Yd dns !! region) as [cfg|] eqn:E; [|by apply elem_of_nil in Hip].
      exists (Yd dns), cfg. rewrite ispRegions_lookup. split; [right; by right | done].
    + by apply elem_of_nil in Hip.
  - intros (regions & cfg & Hr & Hc & Hip). apply ispRegions_lookup in Hr.
    destruct Hr as [[-> ->]|[[-> ->]|[-> ->]]]; simpl; by rewrite Hc.
Qed.

(** X10. The tasks started are the addresses the selection covers: every
    target is an address of the catalog under the ISP and region it carries,
    of the ISP in use (any for ["all"]) and of the region in use (any for the
    whole country); and every such address is a target, the loops over the
    whole country visiting every ISP and region. *)
Theorem targets_are_the_selected_addresses :
  forall (dns : DNSConfig) (ispVal regionVal : string) (ispOrder : list string)
         (regionOrder : string -> list string) (t : Target),
    (regionVal = "全国" -> visitsCatalog dns ispOrder regionOrder) ->
    t ∈ (dispatchTargets dns ispVal regionVal ispOrder regionOrder).1 <->
    selected dns ispVal regionVal t.
Proof.
  intros dns ispVal regionVal ispOrder regionOrder t Hvisit.
  unfold dispatchTargets, selected.
  destruct (String.eqb_spec regionVal "全国") as [Hr|Hr]; cbn [negb fst].
  - (* the whole country *)
    specialize (Hvisit Hr). rewrite elem_of_concat_fst. split.
    + intros (p & Hp & Ht). apply list_elem_of_join in Hp as (ps & Hp & Hps).
      apply list_elem_of_fmap in Hps as (ispName & -> & Hin).
      destruct (negb (String.eqb ispVal "all") && negb (String.eqb ispName ispVal)) eqn:Eskip;
        [by apply elem_of_nil in Hp|].
      destruct (ispRegions dns !! ispName) as [regions|] eqn:Eregs;
        [|by apply elem_of_nil in Hp].
      apply list_elem_of_omap in Hp as (region & _ & Hreg).
      destruct (regions !! region) as [cfg|] eqn:Ecfg; simpl in Hreg; [|done].
      injection Hreg as <-. apply elem_of_processIPs in Ht as (ip & Hip & ->). simpl.
      exists regions, cfg. split; [done|]. split; [done|]. split; [done|].
      split; [|by left].
      apply andb_false_iff in Eskip as [E|E]; apply negb_false_iff, String.eqb_eq in E;
        [by left | by right].
    + intros (regions & cfg & Hregs & Hcfg & Hip & Hisp & _).
      destruct (Hvisit (tIsp t) regions (tRegion t) Hregs) as [Hio Hro]; [by rewrite Hcfg|].
      exists (processIPs (IPv4 cfg) (tRegion t) (tIsp t)). split.
      * apply list_elem_of_join.
        eexists. split; [|apply list_elem_of_fmap; exists (tIsp t); split; [reflexivity|done]].
        assert (Eskip : negb (String.eqb ispVal "all") && negb (String.eqb (tIsp t) ispVal)
                        = false).
        { destruct Hisp as [->|<-]; [done|]. rewrite String.eqb_refl. by rewrite andb_false_r. }
        rewrite Eskip, Hregs. apply list_elem_of_omap.
        exists (tRegion t). split; [done|]. by rewrite Hcfg.
      * apply elem_of_processIPs. exists (tAddress t). split; [done|]. by destruct t.
  - (* one region *)
    rewrite elem_of_concat_fst. split.
    + intros (p & Hp & Ht). apply list_elem_of_fmap in Hp as (ispName & -> & Hin).
      apply elem_of_processIPs in Ht as (ip & Hip & ->). simpl.
      apply getIPList_catalog in Hip as (regions & cfg & Hregs & Hcfg & Hip).
      exists regions, cfg. split; [done|]. split; [done|]. split; [done|].
      split; [|by right].
      destruct (String.eqb_spec ispVal "all") as [->|Hall]; [by left|].
      apply list_elem_of_singleton in Hin. by right.
    + intros (regions & cfg & Hregs & Hcfg & Hip & Hisp & Hreg).
      destruct Hreg as [?|Hreg]; [done|].
      exists (processIPs (getIPList dns (tIsp t) regionVal) regionVal (tIsp t)). split.
      * apply list_elem_of_fmap. exists (tIsp t). split; [done|].
        destruct (String.eqb_spec ispVal "all") as [->|Hall].
        -- apply ispRegions_lookup in Hregs. rewrite !elem_of_cons.
           destruct Hregs as [[-> _]|[[-> _]|[-> _]]]; tauto.
        -- destruct Hisp as [?|<-]; [done|]. by apply list_elem_of_singleton.
      * apply elem_of_processIPs. exists (tAddress t). split.
        -- apply getIPList_catalog. exists regions, cfg. by rewrite <- Hreg.
        -- rewrite <- Hreg. by destruct t.
Qed.

(** The whole sample catalog for every ISP: Unicom's Beijing address is one
    of the targets. *)
Lemma targets_of_the_sample_catalog :
  {| tAddress := "202.106.0.20"; tRegion := "北京"; tIsp := "联通" |}
    ∈ (dispatchTargets sampleCatalog "all" "全国" sampleIspOrder sampleRegionOrder).1.
Proof.
  apply (targets_are_the_selected_addresses sampleCatalog "all" "全国"
           sampleIspOrder sampleRegionOrder).
  - intros _ ispName regions region Hregs [cfg Hcfg].
    apply ispRegions_lookup in Hregs.
    destruct Hregs as [[-> ->]|[[-> ->]|[-> ->]]];
      cbn [sampleCatalog Dx Lt Yd] in Hcfg;
      apply elem_of_list_to_map_2 in Hcfg;
      repeat (apply elem_of_cons in Hcfg as [Hcfg|Hcfg];
              [injection Hcfg as -> _;
               split; apply (bool_decide_unpack _); vm_compute; reflexivity|]);
      by apply elem_of_nil in Hcfg.
  - exists (Lt sampleCatalog), {| IPv4 := ["202.106.0.20"] |}.
    split; [reflexivity|]. split; [reflexivity|].
    split; [by apply list_elem_of_singleton|]. split; by left.
Defined.

(** ** The dispatcher runs to its end *)

Module DispatcherProgress.
Import Dispatcher DispatcherFacts.

Lemma stepsLeft_nonneg pc : 0 <= stepsLeft pc.
Proof. destruct pc; simpl; lia. Qed.

Lemma tasksLeft_nonneg l : 0 <= tasksLeft l.
Proof.
  induction l as [|t l IH]; simpl; [lia|]. pose proof (stepsLeft_nonneg t.2). lia.
Qed.

Lemma tasksLeft_snoc l t : tasksLeft (l ++ [t]) = tasksLeft l + stepsLeft t.2.
Proof. induction l as [|x l IH]; simpl; lia. Qed.

Lemma tasksLeft_alter l : forall i t pc0 pc,
  l !! i = Some (t, pc0) ->
  tasksLeft (alter (fun t : Target * TaskPc => (t.1, pc)) i l)
  = tasksLeft l - stepsLeft pc0 + stepsLeft pc.
Proof.
  induction l as [|x l IH]; intros [|i] t pc0 pc Hl; try done.
  - injection Hl as ->. simpl. lia.
  - simpl in Hl.
    change (alter (fun t : Target * TaskPc => (t.1, pc)) (S i) (x :: l))
      with (x :: alter (fun t : Target * TaskPc => (t.1, pc)) i l).
    simpl. rewrite (IH i t pc0 pc Hl). lia.
Qed.

Lemma tasksLeft_allFinished l :
  Forall (fun t : Target * TaskPc => t.2 = Finished) l -> tasksLeft l = 0.
Proof. induction 1 as [|t l Ht _ IH]; simpl; [done|]. rewrite Ht, IH. done. Qed.

(** Every step is one of the steps left. *)
Lemma remaining_step st a st' :
  step st a = Some st' -> remaining st = remaining st' + 1.
Proof.
  intros Hstep. destruct a as [|i|i|i|i| |]; simpl in Hstep.
  - destruct (pending st) as [|t rest] eqn:Ep; [done|]. injection Hstep as <-.
    unfold remaining. rewrite Ep. simpl pending. simpl tasks. simpl waited. simpl closed.
    rewrite tasksLeft_snoc. simpl stepsLeft. simpl length. lia.
  - destruct (at_pc st i AtSem) eqn:E; simpl in Hstep; [|done].
    destruct (semLen st <? semCap st); [|done]. injection Hstep as <-.
    apply at_pc_lookup in E as [t Hl]. unfold remaining, setPc. simpl.
    rewrite (tasksLeft_alter _ _ _ _ _ Hl). simpl. lia.
  - destruct (at_pc st i InPing) eqn:E; simpl in Hstep; [|done]. injection Hstep as <-.
    apply at_pc_lookup in E as [t Hl]. unfold remaining, setPc. simpl.
    rewrite (tasksLeft_alter _ _ _ _ _ Hl). simpl. lia.
  - destruct (at_pc st i Returned) eqn:E; simpl in Hstep; [|done].
    destruct (0 <? semLen st); [|done]. injection Hstep as <-.
    apply at_pc_lookup in E as [t Hl]. unfold remaining, setPc. simpl.
    rewrite (tasksLeft_alter _ _ _ _ _ Hl). simpl. lia.
  - destruct (at_pc st i Released) eqn:E; simpl in Hstep; [|done]. injection Hstep as <-.
    apply at_pc_lookup in E as [t Hl]. unfold remaining, setPc. simpl.
    rewrite (tasksLeft_alter _ _ _ _ _ Hl). simpl. lia.
  - destruct (pending st) as [|t rest] eqn:Ep; [|done].
    destruct (waited st) eqn:Ew; simpl in Hstep; [done|].
    destruct (wgCount st =? 0); [|done]. injection Hstep as <-.
    unfold remaining. rewrite Ep, Ew. simpl. lia.
  - destruct (waited st) eqn:Ew; simpl in Hstep; [|done].
    destruct (closed st) eqn:Ec; simpl in Hstep; [done|]. injection Hstep as <-.
    unfold remaining. rewrite Ew, Ec. simpl. lia.
Qed.

Lemma remaining_run schedule : forall st st',
  run st schedule = Some st' ->
  remaining st = remaining st' + Z.of_nat (length schedule).
Proof.
  induction schedule as [|a schedule IH]; intros st st' Hrun; simpl in Hrun.
  - injection Hrun as <-. simpl. lia.
  - destruct (step st a) as [st1|] eqn:E; simpl in Hrun; [|done].
    apply remaining_step in E. apply IH in Hrun. simpl length. lia.
Qed.

Lemma remaining_nonneg st : 0 <= remaining st.
Proof.
  unfold remaining. pose proof (tasksLeft_nonneg (tasks st)).
  destruct (waited st), (closed st); lia.
Qed.

(** X11. A run of the dispatcher over [n] targets takes at most [5 n + 2]
    steps, whatever the schedule, and the result channel is closed exactly
    when that many have been taken: each target is started once and its
    task sends, probes, receives and calls [Done] once each, then the wait
    returns and the channel is closed. *)
Theorem dispatcher_takes_five_steps_per_target :
  forall (targets : list Target) (maxConcurrency : Z) (schedule : list Action)
         (st0 st : State),
    init targets maxConcurrency = Some st0 ->
    run st0 schedule = Some st ->
    Z.of_nat (length schedule) <= 5 * Z.of_nat (length targets) + 2 /\
    (closed st = true <->
     Z.of_nat (length schedule) = 5 * Z.of_nat (length targets) + 2).
Proof.
  intros targets maxConcurrency schedule st0 st Hinit Hrun.
  pose proof (Inv_run _ _ _ _ _ (Inv_init _ _ _ Hinit) Hrun)
    as (_ & _ & _ & _ & _ & Hwaited & Hclosed).
  pose proof (remaining_run _ _ _ Hrun) as Hrem.
  pose proof (remaining_nonneg st) as Hnn.
  assert (H0 : remaining st0 = 5 * Z.of_nat (length targets) + 2).
  { unfold init in Hinit. destruct (maxConcurrency <? 0); [done|].
    injection Hinit as <-. unfold remaining. simpl. lia. }
  split; [lia|]. split.
  - intros Hc. destruct (Hwaited (Hclosed Hc)) as [Hp Hfin].
    assert (remaining st = 0); [|lia].
    unfold remaining. rewrite Hp, Hc, (Hclosed Hc), (tasksLeft_allFinished _ Hfin). done.
  - intros Hlen. assert (Hz : remaining st = 0) by lia.
    unfold remaining in Hz. pose proof (tasksLeft_nonneg (tasks st)).
    destruct (closed st); [done|]. destruct (waited st); lia.
Qed.

Lemma one_slot_schedule_is_complete :
  Z.of_nat (length oneSlotSchedule) <= 5 * Z.of_nat (length twoTargets) + 2 /\
  (true = true <-> Z.of_nat (length oneSlotSchedule) = 5 * Z.of_nat (length twoTargets) + 2).
Proof.
  apply (dispatcher_takes_five_steps_per_target twoTargets 1 oneSlotSchedule
           {| pending := twoTargets; tasks := []; semLen := 0; semCap := 1;
              wgCount := 0; waited := false; closed := false |}
           {| pending := [];
              tasks := (fun t => (t, Finished)) <$> twoTargets;
              semLen := 0; semCap := 1;
              wgCount := 0; waited := true; closed := true |}).
  - reflexivity.
  - vm_compute. reflexivity.
Defined.

(** *** No stall while a slot exists *)

Lemma at_pc_of_lookup st i t pc : tasks st !! i = Some (t, pc) -> at_pc st i pc = true.
Proof.
  intros Hl. unfold at_pc, pcOf. rewrite Hl. simpl. by apply TaskPc_eqb_eq.
Qed.

(** Either some task is past its send and before its [Done], or none holds
    a slot; and then either some task waits at its send or none is left. *)
Lemma tasks_classified (l : list (Target * TaskPc)) :
  (exists i t pc, l !! i = Some (t, pc) /\ (pc = InPing \/ pc = Returned \/ pc = Released)) \/
  (length (List.filter (pcIn [InPing; Returned]) l) = 0%nat /\
   ((exists i t, l !! i = Some (t, AtSem)) \/
    length (List.filter (pcIn [AtSem; InPing; Returned; Released]) l) = 0%nat)).
Proof.
  induction l as [|[t pc] l IH]; [right; split; [done | by right]|].
  destruct IH as [(i & t' & pc' & Hl & Hpc)|[Hnone Hrest]].
  - left. exists (S i), t', pc'. done.
  - destruct pc.
    + right. split; [done|]. left. by exists 0%nat, t.
    + left. exists 0%nat, t, InPing. split; [done | by left].
    + left. exists 0%nat, t, Returned. split; [done | right; by left].
    + left. exists 0%nat, t, Released. split; [done | right; by right].
    + right. split; [done|]. destruct Hrest as [(i & t' & Hl)|Hz].
      * left. by exists (S i), t'.
      * by right.
Qed.

Lemma returned_holds_a_slot (l : list (Target * TaskPc)) : forall i t,
  l !! i = Some (t, Returned) ->
  (0 < length (List.filter (pcIn [InPing; Returned]) l))%nat.
Proof.
  induction l as [|[t' pc'] l IH]; intros [|i] t Hl; try done.
  - injection Hl as -> ->. simpl. lia.
  - simpl in Hl. specialize (IH i t Hl). cbn [List.filter].
    destruct (pcIn [InPing; Returned] (t', pc')); cbn [length]; lia.
Qed.

(** X12. With at least one slot the dispatcher never stalls: in every state
    a schedule can reach in which the result channel is not closed yet, some
    step can be taken (a probe call is taken to return).  With the bound on
    the number of steps, every run ends with the channel closed. *)
Theorem dispatcher_never_stalls_with_a_slot :
  forall (targets : list Target) (maxConcurrency : Z) (schedule : list Action)
         (st0 st : State),
    1 <= maxConcurrency ->
    init targets maxConcurrency = Some st0 ->
    run st0 schedule = Some st ->
    closed st = false ->
    exists a, is_Some (step st a).
Proof.
  intros targets maxConcurrency schedule st0 st Hcap Hinit Hrun Hopen.
  pose proof (Inv_run _ _ _ _ _ (Inv_init _ _ _ Hinit) Hrun)
    as (_ & Hsc & Hsem & _ & Hwg & _ & _).
  destruct (pending st) as [|t rest] eqn:Ep; [|exists Spawn; simpl; by rewrite Ep].
  destruct (waited st) eqn:Ew; [exists Close; simpl; by rewrite Ew, Hopen|].
  unfold countPc in Hsem, Hwg.
  destruct (tasks_classified (tasks st)) as [(i & t & pc & Hl & Hpc)|[Hnone Hrest]].
  - destruct Hpc as [->|[->| ->]].
    + exists (PingReturns i). simpl. by rewrite (at_pc_of_lookup _ _ _ _ Hl).
    + exists (Release i). simpl. rewrite (at_pc_of_lookup _ _ _ _ Hl).
      pose proof (returned_holds_a_slot _ _ _ Hl).
      destruct (Z.ltb_spec 0 (semLen st)); [done | lia].
    + exists (WgDone i). simpl. by rewrite (at_pc_of_lookup _ _ _ _ Hl).
  - destruct Hrest as [(i & t & Hl)|Hz].
    + exists (Acquire i). simpl. rewrite (at_pc_of_lookup _ _ _ _ Hl).
      destruct (Z.ltb_spec (semLen st) (semCap st)); [done | lia].
    + exists Wait. simpl. rewrite Ep, Ew.
      destruct (Z.eqb_spec (wgCount st) 0); [done | lia].
Qed.

Lemma one_slot_taken_can_go_on :
  exists a, is_Some (step {| pending := [];
                             tasks := zip twoTargets [AtSem; InPing];
                             semLen := 1; semCap := 1; wgCount := 2;
                             waited := false; closed := false |} a).
Proof.
  apply (dispatcher_never_stalls_with_a_slot twoTargets 1 [Spawn; Spawn; Acquire 1%nat]
           {| pending := twoTargets; tasks := []; semLen := 0; semCap := 1;
              wgCount := 0; waited := false; closed := false |}).
  - lia.
  - reflexivity.
  - vm_compute. reflexivity.
  - reflexivity.
Defined.

(** *** No slot at all *)

Lemma noSlot_step st a st' : noSlot st -> step st a = Some st' -> noSlot st'.
Proof.
  intros (Hcap & Hlen & Hall & Hwg & Hw & Hc & Hne) Hstep.
  assert (Hno : forall i pc, pc <> AtSem -> at_pc st i pc = false).
  { intros i pc Hpc. destruct (at_pc st i pc) eqn:E; [|done].
    apply at_pc_lookup in E as [t Hl]. rewrite Forall_forall in Hall.
    apply list_elem_of_lookup_2 in Hl. by apply Hall in Hl. }
  destruct a as [|i|i|i|i| |]; simpl in Hstep.
  - destruct (pending st) as [|t rest] eqn:Ep; [done|]. injection Hstep as <-.
    unfold noSlot. simpl. split_and!; try done.
    + apply Forall_app. split; [done|]. by constructor.
    + rewrite length_app. simpl. lia.
    + left. by destruct (tasks st).
  - rewrite Hlen, Hcap in Hstep. by rewrite andb_false_r in Hstep.
  - by rewrite Hno in Hstep.
  - by rewrite Hno in Hstep.
  - by rewrite Hno in Hstep.
  - destruct (pending st) as [|t rest] eqn:Ep; [|done].
    destruct Hne as [Hne|Hne]; [|done].
    destruct (tasks st) as [|x l]; [done|]. simpl in Hwg.
    destruct (Z.eqb_spec (wgCount st) 0); [lia|]. by rewrite andb_false_r in Hstep.
  - by rewrite Hw in Hstep.
Qed.

Lemma noSlot_run schedule : forall st st',
  noSlot st -> run st schedule = Some st' -> noSlot st'.
Proof.
  induction schedule as [|a schedule IH]; intros st st' Hinv Hrun; simpl in Hrun.
  - by injection Hrun as <-.
  - destruct (step st a) as [st1|] eqn:E; simpl in Hrun; [|done].
    eapply IH; [|done]. by eapply noSlot_step.
Qed.

(** X13. With [maxConcurrency] zero and at least one target the run hangs:
    whatever the schedule, no task gets past its send on [sem], so no probe
    is ever made, the wait never returns and the result channel is never
    closed; once the targets are all started no step is left. *)
Theorem no_slot_no_probe :
  forall (targets : list Target) (schedule : list Action) (st0 st : State),
    targets <> [] ->
    init targets 0 = Some st0 ->
    run st0 schedule = Some st ->
    probing st = 0 /\ waited st = false /\ closed st = false /\
    (pending st = [] -> forall a, step st a = None).
Proof.
  intros targets schedule st0 st Hne Hinit Hrun.
  assert (H0 : noSlot st0).
  { injection Hinit as <-. unfold noSlot. simpl. split_and!; try done. by right. }
  pose proof (noSlot_run _ _ _ H0 Hrun) as Hns.
  pose proof Hns as (Hcap & Hlen & Hall & Hwg & Hw & Hc & Hne').
  split_and!; try done.
  - unfold probing, countPc. clear -Hall.
    induction Hall as [|[t pc] l Hpc _ IH]; [done|]. simpl in Hpc. subst pc. simpl. exact IH.
  - intros Hp a. destruct (step st a) as [st'|] eqn:E; [|done].
    pose proof (noSlot_step _ _ _ Hns E) as (_ & _ & _ & _ & Hw' & _ & _).
    destruct a as [|i|i|i|i| |]; simpl in E.
    + by rewrite Hp in E.
    + rewrite Hlen, Hcap in E. by rewrite andb_false_r in E.
    + destruct (at_pc st i InPing) eqn:Ea; [|done]. injection E as <-.
      apply at_pc_lookup in Ea as [t Hl]. rewrite Forall_forall in Hall.
      apply list_elem_of_lookup_2 in Hl. by apply Hall in Hl.
    + destruct (at_pc st i Returned) eqn:Ea; [|done].
      apply at_pc_lookup in Ea as [t Hl]. rewrite Forall_forall in Hall.
      apply list_elem_of_lookup_2 in Hl. by apply Hall in Hl.
    + destruct (at_pc st i Released) eqn:Ea; [|done].
      apply at_pc_lookup in Ea as [t Hl]. rewrite Forall_forall in Hall.
      apply list_elem_of_lookup_2 in Hl. by apply Hall in Hl.
    + rewrite Hp in E. destruct (waited st); simpl in E; [done|].
      destruct (wgCount st =? 0); [|done]. injection E as <-. simpl in Hw'. done.
    + by rewrite Hw in E.
Qed.

Lemma no_slot_two_targets :
  let st := {| pending := [];
               tasks := (fun t => (t, AtSem)) <$> twoTargets;
               semLen := 0; semCap := 0; wgCount := 2;
               waited := false; closed := false |} in
  probing st = 0 /\ waited st = false /\ closed st = false /\
  (pending st = [] -> forall a, step st a = None).
Proof.
  apply (no_slot_no_probe twoTargets [Spawn; Spawn]
           {| pending := twoTargets; tasks := []; semLen := 0; semCap := 0;
              wgCount := 0; waited := false; closed := false |}).
  - discriminate.
  - reflexivity.
  - vm_compute. reflexivity.
Defined.

End DispatcherProgress.

(** ** [StatisticList] *)

Module StatisticListFacts.
Import StatisticList.

Lemma items_AppendAll new : forall l, items (AppendAll l new) = items l ++ new.
Proof.
  unfold AppendAll. induction new as [|x new IH]; intros l; simpl.
  - by rewrite app_nil_r.
  - rewrite IH. simpl. by rewrite <- app_assoc.
Qed.

(** X14. A list made with a length the runtime can allocate starts with
    that many nil entries, so what is appended to it comes after them: item
    [k] appended is read back at index [len + k], the indexes below [len]
    and those past the end read nil, and a negative index makes [Get] panic.
    (The length is at most [maxSliceLen], and the memory holds the list and
    what is appended.) *)
Theorem appended_items_follow_the_initial_nils :
  forall (available len : Z) (new : list (option PingStatistic)),
    0 <= len -> len <= maxSliceLen ->
    len + Z.of_nat (length new) <= available ->
    exists l, NewStatisticList available len = Some l /\
      Len (AppendAll l new) = len + Z.of_nat (length new) /\
      forall index,
        Get (AppendAll l new) index =
          if index <? 0 then None
          else if index <? len then Some None
          else Some (default None (new !! Z.to_nat (index - len))).
Proof.
  intros available len new Hlen Hmax Havail. unfold NewStatisticList.
  destruct (Z.ltb_spec len 0) as [?|_]; [lia|].
  destruct (Z.ltb_spec maxSliceLen len) as [?|_]; [lia|].
  destruct (Z.ltb_spec available len) as [?|_]; [lia|]. cbn [orb].
  eexists. split; [reflexivity|].
  assert (HL : Len (AppendAll {| items := replicate (Z.to_nat len) None |} new)
               = len + Z.of_nat (length new)).
  { unfold Len. rewrite items_AppendAll. simpl.
    rewrite length_app, length_replicate. lia. }
  split; [done|]. intros index. unfold Get. rewrite HL.
  destruct (Z.ltb_spec index 0) as [Hneg|Hpos].
  - destruct (Z.geb_spec index (len + Z.of_nat (length new))); [lia | done].
  - rewrite items_AppendAll. simpl.
    destruct (Z.geb_spec index (len + Z.of_nat (length new))) as [Hge|Hlt].
    + destruct (Z.ltb_spec index len); [lia|].
      rewrite lookup_ge_None_2; [done | lia].
    + destruct (Z.ltb_spec index len) as [Hin|Hout].
      * rewrite lookup_app_l by (rewrite length_replicate; lia).
        rewrite lookup_replicate_2; [done | lia].
      * rewrite lookup_app_r by (rewrite length_replicate; lia).
        rewrite length_replicate.
        replace (Z.to_nat index - Z.to_nat len)%nat with (Z.to_nat (index - len)) by lia.
        destruct (new !! Z.to_nat (index - len)) as [x|] eqn:E; [done|].
        apply lookup_ge_None_1 in E. lia.
Qed.

Lemma append_after_two_nils :
  exists l, NewStatisticList 1024 2 = Some l /\
    Len (AppendAll l [Some firstStat]) = 2 + 1 /\
    forall index,
      Get (AppendAll l [Some firstStat]) index =
        if index <? 0 then None
        else if index <? 2 then Some None
        else Some (default None ([Some firstStat] !! Z.to_nat (index - 2))).
Proof.
  apply (appended_items_follow_the_initial_nils 1024 2 [Some firstStat]).
  - lia.
  - unfold maxSliceLen. lia.
  - simpl. lia.
Defined.

(** X15. [Remove] at an index of the list takes that entry out and moves
    the later ones down by one; at any other index, negative ones included,
    it leaves the list as it is. *)
Theorem remove_shifts_the_tail :
  forall (l : StatisticList) (index j : Z),
    let inside := (0 <=? index) && (index <? Len l) in
    Len (Remove l index) = (if inside then Len l - 1 else Len l) /\
    Get (Remove l index) j = Get l (if inside && (index <=? j) then j + 1 else j).
Proof.
  intros l index j. cbv zeta. unfold Remove.
  destruct (Z.ltb_spec index 0) as [Hneg|Hpos]; simpl.
  { destruct (Z.leb_spec 0 index); [lia|]. done. }
  destruct (Z.leb_spec 0 index); [|lia].
  destruct (Z.geb_spec index (Len l)) as [Hge|Hlt]; simpl.
  { destruct (Z.ltb_spec index (Len l)); [lia|]. done. }
  destruct (Z.ltb_spec index (Len l)); [|lia]. simpl.
  unfold Len in *.
  assert (HL : Z.of_nat (length (take (Z.to_nat index) (items l)
                                 ++ drop (Z.to_nat (index + 1)) (items l)))
               = Z.of_nat (length (items l)) - 1).
  { rewrite length_app, length_take, length_drop. lia. }
  split; [exact HL|]. unfold Get, Len. simpl. rewrite HL.
  destruct (Z.leb_spec index j) as [Hij|Hji].
  - destruct (Z.geb_spec j (Z.of_nat (length (items l)) - 1)).
    + destruct (Z.geb_spec (j + 1) (Z.of_nat (length (items l)))); [done | lia].
    + destruct (Z.geb_spec (j + 1) (Z.of_nat (length (items l)))); [lia|].
      destruct (Z.ltb_spec j 0); [lia|]. destruct (Z.ltb_spec (j + 1) 0); [lia|].
      rewrite lookup_app_r by (rewrite length_take; lia).
      rewrite length_take, lookup_drop. f_equal. lia.
  - destruct (Z.geb_spec j (Z.of_nat (length (items l)) - 1)); [lia|].
    destruct (Z.geb_spec j (Z.of_nat (length (items l)))); [lia|].
    destruct (Z.ltb_spec j 0); [done|].
    rewrite lookup_app_l by (rewrite length_take; lia).
    rewrite lookup_take_lt by lia. done.
Qed.

End StatisticListFacts.
